(** * Placeholder parsing of go-docx (placeholder.go)

    A shallow embedding of [ParsePlaceholders], [Placeholder.Text] and the
    delimiter helpers of placeholder.go, with the properties of the
    placeholder matcher proved over it.

    Go strings and byte slices are lists of bytes, a [rune] is an integer,
    and the conversion [[]rune(s)] is the UTF-8 decoding of the Go runtime.
    Run pointers are addresses into a store of runs, so that the pointer
    comparison [run == fragment.Run] is a comparison of addresses. *)

From Stdlib Require Import ZArith List Bool Lia Arith String Ascii.
From Stdlib Require Import Init.Byte Strings.Byte.
Import ListNotations.

Local Open Scope Z_scope.

(** ** Bytes, runes and UTF-8 *)

Definition rune := Z.

(** [rune(b)] for a byte [b]. *)
Definition byteZ (b : byte) : Z := Z.of_N (Byte.to_N b).

(** [byte(z)] for [0 <= z < 256]. *)
Definition Zbyte (z : Z) : byte :=
  match Byte.of_N (Z.to_N z) with
  | Some b => b
  | None => x00
  end.

Definition RuneError : rune := 65533.
Definition RuneSelf : Z := 128.

Definition inRange (lo hi : Z) (b : byte) : bool :=
  (lo <=? byteZ b) && (byteZ b <=? hi).

(** Continuation bytes lie in [0x80, 0xBF]. *)
Definition isCont (b : byte) : bool := inRange 128 191 b.

(** The table [first] of unicode/utf8 together with [acceptRanges]: for a
    leading byte, the length of the sequence and the range accepted for the
    second byte; [None] for a byte that cannot start a sequence. *)
Definition leadInfo (p0 : byte) : option (nat * Z * Z) :=
  let z := byteZ p0 in
  if z <? 194 then None
  else if z <? 224 then Some (2%nat, 128, 191)
  else if z =? 224 then Some (3%nat, 160, 191)
  else if z <? 237 then Some (3%nat, 128, 191)
  else if z =? 237 then Some (3%nat, 128, 159)
  else if z <? 240 then Some (3%nat, 128, 191)
  else if z =? 240 then Some (4%nat, 144, 191)
  else if z <? 244 then Some (4%nat, 128, 191)
  else if z =? 244 then Some (4%nat, 128, 143)
  else None.

(** [utf8.DecodeRune]: the first rune of [p] and its width in bytes. An
    invalid or truncated sequence yields [RuneError] with width 1. *)
Definition DecodeRune (p : list byte) : rune * nat :=
  match p with
  | [] => (RuneError, 0%nat)
  | p0 :: t =>
    if byteZ p0 <? RuneSelf then (byteZ p0, 1%nat)
    else
      match leadInfo p0 with
      | None => (RuneError, 1%nat)
      | Some (sz, lo, hi) =>
        match t with
        | [] => (RuneError, 1%nat)
        | b1 :: t1 =>
          if negb (inRange lo hi b1) then (RuneError, 1%nat)
          else if (sz <=? 2)%nat then
            (Z.lor (Z.shiftl (Z.land (byteZ p0) 31) 6) (Z.land (byteZ b1) 63),
             2%nat)
          else
            match t1 with
            | [] => (RuneError, 1%nat)
            | b2 :: t2 =>
              if negb (isCont b2) then (RuneError, 1%nat)
              else if (sz <=? 3)%nat then
                (Z.lor (Z.lor (Z.shiftl (Z.land (byteZ p0) 15) 12)
                              (Z.shiftl (Z.land (byteZ b1) 63) 6))
                       (Z.land (byteZ b2) 63),
                 3%nat)
              else
                match t2 with
                | [] => (RuneError, 1%nat)
                | b3 :: _ =>
                  if negb (isCont b3) then (RuneError, 1%nat)
                  else
                    (Z.lor (Z.lor (Z.lor
                       (Z.shiftl (Z.land (byteZ p0) 7) 18)
                       (Z.shiftl (Z.land (byteZ b1) 63) 12))
                       (Z.shiftl (Z.land (byteZ b2) 63) 6))
                       (Z.land (byteZ b3) 63),
                     4%nat)
                end
            end
        end
      end
  end.

(** Decoding from the left; [skip] counts the bytes still owed to the rune
    decoded last. *)
Fixpoint decodeFrom (skip : nat) (s : list byte) : list rune :=
  match s with
  | [] => []
  | b :: t =>
    match skip with
    | S k => decodeFrom k t
    | O => let '(r, n) := DecodeRune (b :: t) in r :: decodeFrom (n - 1) t
    end
  end.

(** The conversion [[]rune(s)]. *)
Definition runes (s : list byte) : list rune := decodeFrom 0 s.

(** [utf8.ValidRune]. *)
Definition ValidRune (r : rune) : bool :=
  ((0 <=? r) && (r <? 55296)) || ((57343 <? r) && (r <=? 1114111)).

(** [string(r)] and the verb [%c]: the UTF-8 encoding of [r], an invalid
    rune being encoded as [RuneError]. *)
Definition encodeRune (r : rune) : list byte :=
  let r := if ValidRune r then r else RuneError in
  if r <? 128 then [Zbyte r]
  else if r <? 2048 then
    [Zbyte (Z.lor 192 (Z.shiftr r 6)); Zbyte (Z.lor 128 (Z.land r 63))]
  else if r <? 65536 then
    [Zbyte (Z.lor 224 (Z.shiftr r 12));
     Zbyte (Z.lor 128 (Z.land (Z.shiftr r 6) 63));
     Zbyte (Z.lor 128 (Z.land r 63))]
  else
    [Zbyte (Z.lor 240 (Z.shiftr r 18));
     Zbyte (Z.lor 128 (Z.land (Z.shiftr r 12) 63));
     Zbyte (Z.lor 128 (Z.land (Z.shiftr r 6) 63));
     Zbyte (Z.lor 128 (Z.land r 63))].

(** A string literal as the bytes it denotes. *)
Definition bytes (s : string) : list byte := list_byte_of_string s.

(** [len(s)] as a Go [int]. *)
Definition len {A : Type} (l : list A) : Z := Z.of_nat (List.length l).

(** ** The functions of package strings used by the helpers *)

(** [utf8.RuneStart]: the byte is not a continuation byte. *)
Definition RuneStart (b : byte) : bool :=
  negb (Z.land (byteZ b) 192 =? 128).

(** The backwards search of [utf8.DecodeLastRuneInString] for the start of
    the last rune: [start] is lowered while it is at least the limit (the
    remaining rounds are counted by the first argument) and [s[start]] is a
    continuation byte. *)
Fixpoint backToStart (rounds : nat) (s : list byte) (start : Z) : Z :=
  match rounds with
  | O => start
  | S k =>
    if RuneStart (nth (Z.to_nat start) s x00) then start
    else backToStart k s (start - 1)
  end.

(** [utf8.DecodeLastRuneInString]. *)
Definition DecodeLastRune (s : list byte) : rune * nat :=
  let end_ := len s in
  if end_ =? 0 then (RuneError, 0%nat)
  else
    let r := byteZ (nth (Z.to_nat (end_ - 1)) s x00) in
    if r <? RuneSelf then (r, 1%nat)
    else
      let lim := Z.max 0 (end_ - 4) in
      let start := backToStart (Z.to_nat (end_ - 1 - lim)) s (end_ - 2) in
      let start := Z.max 0 start in
      let '(r, size) := DecodeRune (skipn (Z.to_nat start) s) in
      if start + Z.of_nat size =? end_ then (r, size) else (RuneError, 1%nat).

(** [strings.ContainsRune(cutset, r)] for a cutset that is valid UTF-8, as
    the cutsets built from [string(rune)] are. *)
Definition ContainsRune (cutset : list byte) (r : rune) : bool :=
  existsb (Z.eqb r) (runes cutset).

(** The loop of [strings.TrimLeft]: leading runes of the cutset are dropped;
    [skip] counts the bytes still to drop of the rune removed last. *)
Fixpoint trimLeftFrom (skip : nat) (cutset s : list byte) : list byte :=
  match s with
  | [] => []
  | b :: t =>
    match skip with
    | S k => trimLeftFrom k cutset t
    | O =>
      let '(r, n) :=
        if byteZ b <? RuneSelf then (byteZ b, 1%nat) else DecodeRune s in
      if ContainsRune cutset r then trimLeftFrom (n - 1) cutset t else s
    end
  end.

Definition TrimLeft (s cutset : list byte) : list byte :=
  trimLeftFrom 0 cutset s.

(** The loop of [strings.TrimRight]; every round drops at least one byte,
    so [len(s)] rounds are enough. *)
Fixpoint trimRightLoop (rounds : nat) (cutset s : list byte) : list byte :=
  match rounds with
  | O => s
  | S k =>
    match s with
    | [] => s
    | _ :: _ =>
      let '(r, n) := DecodeLastRune s in
      if ContainsRune cutset r
      then trimRightLoop k cutset (firstn (List.length s - n) s)
      else s
    end
  end.

Definition TrimRight (s cutset : list byte) : list byte :=
  trimRightLoop (List.length s) cutset s.

(** [strings.Trim]: all leading and trailing code points contained in
    [cutset] are removed, the trailing ones first. *)
Definition Trim (s cutset : list byte) : list byte :=
  match s, cutset with
  | [], _ => s
  | _, [] => s
  | _, _ => TrimLeft (TrimRight s cutset) cutset
  end.

(** ** Delimiter configuration *)

Record Delimiters := {
  OpenDelimiter : rune;
  CloseDelimiter : rune
}.

(** The initial values: ['{'] and ['}']. *)
Definition defaultDelimiters : Delimiters :=
  {| OpenDelimiter := 123; CloseDelimiter := 125 |}.

Definition ChangeOpenCloseDelimiter (openDelimiter closeDelimiter : rune)
    (_ : Delimiters) : Delimiters :=
  {| OpenDelimiter := openDelimiter; CloseDelimiter := closeDelimiter |}.

(** ** Delimiter helpers *)

Section DelimiterHelpers.

Variable cfg : Delimiters.

Definition IsDelimitedPlaceholder (s : list byte) : bool :=
  match s with
  | [] => false
  | first :: _ =>
    let last := List.last s x00 in
    (byteZ first =? OpenDelimiter cfg) && (byteZ last =? CloseDelimiter cfg)
  end.

Definition AddPlaceholderDelimiter (s : list byte) : list byte :=
  if IsDelimitedPlaceholder s then s
  else encodeRune (OpenDelimiter cfg) ++ s ++ encodeRune (CloseDelimiter cfg).

Definition RemovePlaceholderDelimiter (s : list byte) : list byte :=
  if negb (IsDelimitedPlaceholder s) then s
  else Trim s (encodeRune (OpenDelimiter cfg) ++ encodeRune (CloseDelimiter cfg)).

End DelimiterHelpers.

(** ** Data model

    Offsets and indices are [int64] or [int] in the source. They are
    lengths of strings and indices into them, far below the bound of either
    type, and are integers here. *)

Record Position := {
  Start : Z;
  End_ : Z
}.

Record TagPair := {
  OpenTag : Position;
  CloseTag : Position
}.

(** Modelled from the spec: the type [Run] is declared outside
    placeholder.go. A run has a stable identifier and the tag pair of its
    text element; the text payload begins at [Text.OpenTag.End], the offset
    that [Placeholder.Text] reads. *)
Record Run := {
  ID : Z;
  Text : TagPair;
  HasText : bool
}.

(** A [*Run] is an address; the store gives the run it points to. *)
Definition RunPtr := nat.
Definition Store := RunPtr -> Run.
Definition DocumentRuns := list RunPtr.

Record PlaceholderFragment := {
  FragPosition : Position;
  FragRun : RunPtr;
  SpanRun : list RunPtr
}.

Record Placeholder := {
  Fragments : list PlaceholderFragment
}.

(** Modelled from the spec: [NewPlaceholderFragment] is declared outside
    placeholder.go. A new fragment has the given position and run and has
    spanned no run yet. *)
Definition NewPlaceholderFragment (pos : Position) (run : RunPtr)
    : PlaceholderFragment :=
  {| FragPosition := pos; FragRun := run; SpanRun := [] |}.

(** Modelled from the spec: [Run.GetText] is declared outside
    placeholder.go. The text of a run is the part of the document bytes from
    the end of the opening tag of its text element to the start of the
    closing tag; a run whose offsets do not lie inside the document has the
    empty text. *)
Definition GetText (r : Run) (docBytes : list byte) : list byte :=
  let startPos := End_ (OpenTag (Text r)) in
  let endPos := Start (CloseTag (Text r)) in
  if (0 <=? startPos) && (startPos <=? endPos) && (endPos <=? len docBytes)
  then firstn (Z.to_nat (endPos - startPos)) (skipn (Z.to_nat startPos) docBytes)
  else [].

(** The slice expression [b[lo:hi]] with the bounds checked against the
    length of [b]; a result [Some t] is what the expression gives. The
    spare capacity of a slice is not modelled here: [None] stands for a
    range that is not within the length, where the code panics unless the
    backing array reaches further. [sliceWithin] below has the capacity. *)
Definition sliceBytes (b : list byte) (lo hi : Z) : option (list byte) :=
  if (0 <=? lo) && (lo <=? hi) && (hi <=? len b)
  then Some (firstn (Z.to_nat (hi - lo)) (skipn (Z.to_nat lo) b))
  else None.

(** The diagnostics written with [log.Printf], as the arguments they are
    formatted from. *)
Inductive Diagnostic :=
| UnmatchedClose (runID : Z) (text : list byte) (index : Z)
| UnmatchedOpen (runID : Z) (text : list byte) (start : Z).

Definition error := string.

(** The variables of the loop of [ParsePlaceholders] that live across runs,
    with the lines logged so far. The top of the stack is the last
    element, as [append] leaves it. *)
Record ScanState := {
  stack : list PlaceholderFragment;
  found : list Placeholder;
  logged : list Diagnostic
}.

(** What a call of [ParsePlaceholders] gives back, and what it logged. *)
Record ParseResult := {
  placeholders : list Placeholder;
  err : option error;
  diagnostics : list Diagnostic
}.

(** [stack[len(stack)-1]] together with [stack[:len(stack)-1]]. *)
Fixpoint pop {A : Type} (l : list A) : option (list A * A) :=
  match l with
  | [] => None
  | x :: t =>
    match pop t with
    | None => Some ([], x)
    | Some (init, top) => Some (x :: init, top)
    end
  end.

Definition setEnd (f : PlaceholderFragment) (e : Z) : PlaceholderFragment :=
  {| FragPosition := {| Start := Start (FragPosition f); End_ := e |};
     FragRun := FragRun f;
     SpanRun := SpanRun f |}.

Definition addSpanRun (run : RunPtr) (f : PlaceholderFragment)
    : PlaceholderFragment :=
  {| FragPosition := FragPosition f;
     FragRun := FragRun f;
     SpanRun := SpanRun f ++ [run] |}.

Section Parser.

Variable cfg : Delimiters.
Variable heap : Store.
Variable docBytes : list byte.

(** Modelled from the spec: [DocumentRuns.WithText] is declared outside
    placeholder.go. It keeps the runs that carry text, in order. *)
Definition WithText (runs : DocumentRuns) : DocumentRuns :=
  filter (fun run => HasText (heap run)) runs.

Definition runText (run : RunPtr) : list byte := GetText (heap run) docBytes.

(** [Placeholder.Text]. *)
Fixpoint textLoop (fragments : list PlaceholderFragment) (str : list byte)
    : option (list byte) :=
  match fragments with
  | [] => Some str
  | fragment :: rest =>
    let s := End_ (OpenTag (Text (heap (FragRun fragment)))) in
    match sliceBytes docBytes (s + Start (FragPosition fragment))
                              (s + End_ (FragPosition fragment)) with
    | None => None
    | Some t => textLoop rest (str ++ t)
    end
  end.

Definition Placeholder_Text (p : Placeholder) : option (list byte) :=
  textLoop (Fragments p) [].

(** The fragments of a placeholder closed in another run than the one it
    was opened in. *)
Definition crossRunFragments (fragment : PlaceholderFragment) (run : RunPtr)
    (i : nat) : list PlaceholderFragment :=
  let fragment := setEnd fragment (len (runText (FragRun fragment))) in
  [fragment]
  ++ map (fun srun =>
            NewPlaceholderFragment
              {| Start := 0; End_ := len (runText srun) |} srun)
         (SpanRun fragment)
  ++ [NewPlaceholderFragment {| Start := 0; End_ := Z.of_nat i + 1 |} run].

(** One round of the inner loop: the rune [c] at index [i] of [run]. *)
Definition scanRune (run : RunPtr) (i : nat) (c : rune)
    (s : ScanState * bool) : ScanState * bool :=
  let '(st, hasDelimiter) := s in
  if c =? OpenDelimiter cfg then
    ({| stack := stack st ++
                 [NewPlaceholderFragment
                    {| Start := Z.of_nat i; End_ := -1 |} run];
        found := found st;
        logged := logged st |}, true)
  else if c =? CloseDelimiter cfg then
    match pop (stack st) with
    | None =>
      ({| stack := stack st;
          found := found st;
          logged := logged st ++
                    [UnmatchedClose (ID (heap run)) (runText run) (Z.of_nat i)] |},
       hasDelimiter)
    | Some (stack', fragment) =>
      if Nat.eqb run (FragRun fragment) then
        ({| stack := stack';
            found := found st ++
                     [{| Fragments := [setEnd fragment (Z.of_nat i + 1)] |}];
            logged := logged st |}, true)
      else
        ({| stack := stack';
            found := found st ++
                     [{| Fragments := crossRunFragments fragment run i |}];
            logged := logged st |}, true)
    end
  else (st, hasDelimiter).

(** The inner loop from index [i] on. *)
Fixpoint scanRunes (run : RunPtr) (i : nat) (runRune : list rune)
    (s : ScanState * bool) : ScanState * bool :=
  match runRune with
  | [] => s
  | c :: rest => scanRunes run (S i) rest (scanRune run i c s)
  end.

(** The body of the outer loop. *)
Definition scanRun (st : ScanState) (run : RunPtr) : ScanState :=
  let '(st', hasDelimiter) :=
    scanRunes run 0 (runes (runText run)) (st, false) in
  if hasDelimiter then st'
  else {| stack := map (addSpanRun run) (stack st');
          found := found st';
          logged := logged st' |}.

Definition initialState : ScanState :=
  {| stack := []; found := []; logged := [] |}.

Definition scanRuns (runs : list RunPtr) : ScanState :=
  fold_left scanRun runs initialState.

Definition unmatchedOpen (fragment : PlaceholderFragment) : Diagnostic :=
  UnmatchedOpen (ID (heap (FragRun fragment))) (runText (FragRun fragment))
                (Start (FragPosition fragment)).

Definition ParsePlaceholders (runs : DocumentRuns) : ParseResult :=
  let st := scanRuns (WithText runs) in
  {| placeholders := found st;
     err := None;
     diagnostics := logged st ++ map unmatchedOpen (stack st) |}.

End Parser.

(** The offsets of a run lie inside the document. *)
Definition inDocument (r : Run) (docBytes : list byte) : Prop :=
  0 <= End_ (OpenTag (Text r)) /\
  End_ (OpenTag (Text r)) <= Start (CloseTag (Text r)) /\
  Start (CloseTag (Text r)) <= len docBytes.

(** The bytes of [t] from offset [lo] up to offset [hi]. *)
Definition subBytes (t : list byte) (lo hi : Z) : list byte :=
  firstn (Z.to_nat (hi - lo)) (skipn (Z.to_nat lo) t).

(** ** Delimiter occurrences and bracket matching

    The notions the properties are stated with: the delimiter occurrences
    of a run sequence, the bracket matching of a sequence of occurrences,
    and the sequences that are correctly nested. *)

Inductive DelimKind := DOpen | DClose.

(** An occurrence of a delimiter: its kind, the run and the rune index. *)
Record Token := {
  tkind : DelimKind;
  trun : RunPtr;
  tindex : nat
}.

Definition isClose (t : Token) : bool :=
  match tkind t with DOpen => false | DClose => true end.

(** Where an occurrence is: the run and the index as the code stores it. *)
Definition place (t : Token) : RunPtr * Z := (trun t, Z.of_nat (tindex t)).

(** The state of a bracket matcher: the open delimiters not closed yet
    (the innermost last), the pairs matched in the order they were closed,
    and the close delimiters that had no partner. *)
Record Matching := {
  opened : list Token;
  pairs : list (Token * Token);
  stray : list Token
}.

Definition noMatching : Matching :=
  {| opened := []; pairs := []; stray := [] |}.

Definition matchStep (m : Matching) (t : Token) : Matching :=
  match tkind t with
  | DOpen =>
    {| opened := opened m ++ [t]; pairs := pairs m; stray := stray m |}
  | DClose =>
    match pop (opened m) with
    | None =>
      {| opened := opened m; pairs := pairs m; stray := stray m ++ [t] |}
    | Some (rest, o) =>
      {| opened := rest; pairs := pairs m ++ [(o, t)]; stray := stray m |}
    end
  end.

Definition matchDelims (ts : list Token) : Matching :=
  fold_left matchStep ts noMatching.

(** [nested n ts]: the occurrences [ts] form [n] correctly nested pairs,
    none left dangling. *)
Inductive nested : nat -> list Token -> Prop :=
| nested_nil : nested 0 []
| nested_pair o c n w :
    tkind o = DOpen -> tkind c = DClose -> nested n w ->
    nested (S n) (o :: w ++ [c])
| nested_app n m u v :
    nested n u -> nested m v -> nested (n + m) (u ++ v).

(** The first and the last fragment of a placeholder tell where it was
    opened and where it was closed. *)
Definition openingOf (p : Placeholder) : option (RunPtr * Z) :=
  match Fragments p with
  | [] => None
  | f :: _ => Some (FragRun f, Start (FragPosition f))
  end.

Definition closingOf (p : Placeholder) : option (RunPtr * Z) :=
  match pop (Fragments p) with
  | None => None
  | Some (_, f) => Some (FragRun f, End_ (FragPosition f) - 1)
  end.

Section Occurrences.

Variable cfg : Delimiters.
Variable heap : Store.
Variable docBytes : list byte.

(** How the scan reads a rune: the test for the open delimiter comes
    first. *)
Definition classify (c : rune) : option DelimKind :=
  if c =? OpenDelimiter cfg then Some DOpen
  else if c =? CloseDelimiter cfg then Some DClose
  else None.

Fixpoint delimsFrom (run : RunPtr) (i : nat) (runRune : list rune)
    : list Token :=
  match runRune with
  | [] => []
  | c :: rest =>
    match classify c with
    | Some k => {| tkind := k; trun := run; tindex := i |}
                :: delimsFrom run (S i) rest
    | None => delimsFrom run (S i) rest
    end
  end.

Definition runDelims (run : RunPtr) : list Token :=
  delimsFrom run 0 (runes (runText heap docBytes run)).

(** The delimiter occurrences of a run sequence, in scan order. *)
Definition delimiterOccurrences (runs : DocumentRuns) : list Token :=
  flat_map runDelims (WithText heap runs).

Definition strayClose (t : Token) : Diagnostic :=
  UnmatchedClose (ID (heap (trun t))) (runText heap docBytes (trun t))
                 (Z.of_nat (tindex t)).

Definition danglingOpen (t : Token) : Diagnostic :=
  UnmatchedOpen (ID (heap (trun t))) (runText heap docBytes (trun t))
                (Z.of_nat (tindex t)).

(** The rune at index [i] of the text of [run] is read as a delimiter of
    kind [k]. *)
Definition delimiterAt (k : DelimKind) (run : RunPtr) (i : Z) : Prop :=
  0 <= i /\
  exists c, nth_error (runes (runText heap docBytes run)) (Z.to_nat i) = Some c
            /\ classify c = Some k.

(** The text of [run] holds no delimiter. *)
Definition delimiterFree (run : RunPtr) : Prop :=
  Forall (fun c => classify c = None) (runes (runText heap docBytes run)).

End Occurrences.

(** ** The scan as a bracket matcher

    The relation between the loop variables of [ParsePlaceholders] and the
    state of the bracket matcher run over the same delimiter
    occurrences. *)

Definition fragPlace (f : PlaceholderFragment) : RunPtr * Z :=
  (FragRun f, Start (FragPosition f)).

Definition placeholderPlaces (p : Placeholder)
    : option (RunPtr * Z) * option (RunPtr * Z) :=
  (openingOf p, closingOf p).

Definition pairPlaces (oc : Token * Token)
    : option (RunPtr * Z) * option (RunPtr * Z) :=
  (Some (place (fst oc)), Some (place (snd oc))).

Record simulates (heap : Store) (docBytes : list byte)
    (st : ScanState) (m : Matching) : Prop := {
  sim_stack : map fragPlace (stack st) = map place (opened m);
  sim_found : map placeholderPlaces (found st) = map pairPlaces (pairs m);
  sim_logged : logged st = map (strayClose heap docBytes) (stray m)
}.

(** ** The shape of a placeholder *)

Section Shapes.

Variable cfg : Delimiters.
Variable heap : Store.
Variable docBytes : list byte.

(** The fragment that covers the whole text of a spanned run. *)
Definition wholeRun (srun : RunPtr) : PlaceholderFragment :=
  NewPlaceholderFragment
    {| Start := 0; End_ := len (runText heap docBytes srun) |} srun.

(** An open fragment on the stack sits on an open delimiter of its run. *)
Definition onOpenDelimiter (f : PlaceholderFragment) : Prop :=
  delimiterAt cfg heap docBytes DOpen (FragRun f) (Start (FragPosition f)).

(** The structural invariant of a placeholder: it was opened at an open
    delimiter at index [io] of run [ro] and closed at a close delimiter at
    index [ic] of run [rc]; it has one fragment exactly when [ro] and [rc]
    are the same run; with more fragments, the first ends at the end of its
    run, the middle ones are one per span run recorded in the first and
    cover the text of their run, and the last one is [{0, ic + 1}] on
    [rc]. *)
Definition structuralInvariant (p : Placeholder) : Prop :=
  exists ro io rc ic,
    openingOf p = Some (ro, io) /\
    closingOf p = Some (rc, ic) /\
    delimiterAt cfg heap docBytes DOpen ro io /\
    delimiterAt cfg heap docBytes DClose rc ic /\
    (List.length (Fragments p) = 1%nat <-> ro = rc) /\
    ((1 < List.length (Fragments p))%nat ->
     exists first last,
       Fragments p = first :: map wholeRun (SpanRun first) ++ [last] /\
       End_ (FragPosition first)
         = len (runText heap docBytes (FragRun first)) /\
       Forall (fun f => FragPosition f =
                 {| Start := 0;
                    End_ := len (runText heap docBytes (FragRun f)) |})
              (map wholeRun (SpanRun first)) /\
       FragPosition last = {| Start := 0; End_ := ic + 1 |} /\
       FragRun last = rc).

End Shapes.

(** ** Span runs and fragment bounds *)

Section Bounds.

Variable cfg : Delimiters.
Variable heap : Store.
Variable docBytes : list byte.

(** The text of [run] holds no delimiter: no rune of it is read as one, so
    no index of it is the place of an open or a close delimiter. *)
Definition holdsNoDelimiter (run : RunPtr) : Prop :=
  delimiterFree cfg heap docBytes run /\
  forall k i, ~ delimiterAt cfg heap docBytes k run i.

(** The span runs recorded in a fragment hold no delimiter. *)
Definition spansDelimiterFree (f : PlaceholderFragment) : Prop :=
  Forall holdsNoDelimiter (SpanRun f).

(** A fragment with a start before its end. *)
Definition proper (f : PlaceholderFragment) : Prop :=
  0 <= Start (FragPosition f) /\
  Start (FragPosition f) < End_ (FragPosition f).

(** A fragment that covers the text of its run from offset 0. *)
Definition coversRun (f : PlaceholderFragment) : Prop :=
  Start (FragPosition f) = 0 /\
  End_ (FragPosition f) = len (runText heap docBytes (FragRun f)) /\
  (Start (FragPosition f) = End_ (FragPosition f) <->
   runText heap docBytes (FragRun f) = []).

(** The bounds of the fragments of a placeholder: no end is the sentinel
    [-1]; the only fragment, or the first and the last of several, is
    proper, and the middle fragments cover their runs. *)
Definition fragmentBounds (p : Placeholder) : Prop :=
  Forall (fun f => End_ (FragPosition f) <> -1) (Fragments p) /\
  ((exists f, Fragments p = [f] /\ proper f) \/
   (exists first mids last,
      Fragments p = first :: mids ++ [last] /\
      proper first /\ Forall coversRun mids /\ proper last)).

(** The bounds that do not depend on the run sequence: no end is the
    sentinel [-1] and no start is negative; the first and the last of
    several fragments are proper, and the middle fragments cover their
    runs. Of the only fragment of a placeholder, nothing more is said. *)
Definition boundsOfAnyScan (p : Placeholder) : Prop :=
  Forall (fun f => End_ (FragPosition f) <> -1 /\ 0 <= Start (FragPosition f))
         (Fragments p) /\
  ((exists f, Fragments p = [f]) \/
   (exists first mids last,
      Fragments p = first :: mids ++ [last] /\
      proper first /\ Forall coversRun mids /\ proper last)).

End Bounds.

(** The run of the only fragment of [p] occurs at most once in [scanned]:
    a placeholder opened and closed in the same run was opened and closed
    in the same visit of that run. *)
Definition visitedOnce (scanned : list RunPtr) (p : Placeholder) : Prop :=
  forall f, Fragments p = [f] ->
            (count_occ Nat.eq_dec scanned (FragRun f) <= 1)%nat.

(** ** What the loops keep *)

(** The open fragments sit on open delimiters and the placeholders emitted
    so far have the shape. *)
Definition shapesKept (cfg : Delimiters) (heap : Store) (docBytes : list byte)
    (st : ScanState) : Prop :=
  Forall (onOpenDelimiter cfg heap docBytes) (stack st) /\
  Forall (structuralInvariant cfg heap docBytes) (found st).

(** The span runs recorded in the open fragments and in the fragments of
    the placeholders hold no delimiter. *)
Definition spansKept (cfg : Delimiters) (heap : Store) (docBytes : list byte)
    (st : ScanState) : Prop :=
  Forall (spansDelimiterFree cfg heap docBytes) (stack st) /\
  Forall (fun p => Forall (spansDelimiterFree cfg heap docBytes) (Fragments p))
         (found st).

(** While the flag of the run is down, either no delimiter was met in the
    run or the stack is empty. *)
Definition flagDown (cfg : Delimiters) (pre : list rune)
    (s : ScanState * bool) : Prop :=
  snd s = false ->
  Forall (fun c => classify cfg c = None) pre \/ stack (fst s) = [].

(** An open fragment starts inside the text of its run. *)
Definition startsInside (heap : Store) (docBytes : list byte)
    (f : PlaceholderFragment) : Prop :=
  0 <= Start (FragPosition f) /\
  Start (FragPosition f) < len (runes (runText heap docBytes (FragRun f))).

(** During the scan of [run], after the runs [done]: an open fragment was
    pushed in a run consumed before, or in this run at an index already
    scanned. *)
Definition pushedBefore (done : list RunPtr) (run : RunPtr)
    (pre : list rune) (f : PlaceholderFragment) : Prop :=
  In (FragRun f) done \/
  (FragRun f = run /\ Start (FragPosition f) < len pre).

Definition boundsKept (heap : Store) (docBytes : list byte)
    (done : list RunPtr) (st : ScanState) : Prop :=
  Forall (fun f => startsInside heap docBytes f /\ In (FragRun f) done)
         (stack st) /\
  Forall (fragmentBounds heap docBytes) (found st).

(** The same for every run sequence: the placeholders emitted so far have
    the bounds of any scan, and all the bounds when the run of their only
    fragment was visited once. *)
Definition boundsOfScan (heap : Store) (docBytes : list byte)
    (done : list RunPtr) (st : ScanState) : Prop :=
  Forall (fun f => startsInside heap docBytes f /\ In (FragRun f) done)
         (stack st) /\
  Forall (fun p => boundsOfAnyScan heap docBytes p /\
                   (visitedOnce done p -> fragmentBounds heap docBytes p))
         (found st).

(** The open fragment [f] was pushed in a run of [scanned] and, when the
    runs scanned after that run hold no delimiter, has recorded exactly
    them. *)
Definition spansSince (cfg : Delimiters) (heap : Store) (docBytes : list byte)
    (scanned : list RunPtr) (f : PlaceholderFragment) : Prop :=
  exists pre post,
    scanned = pre ++ FragRun f :: post /\
    (Forall (delimiterFree cfg heap docBytes) post -> SpanRun f = post).

(** The placeholder [p], if it has several fragments, was opened in a run
    [a] and closed in a later run [c] of [scanned], and when the runs
    between them hold no delimiter its first fragment has recorded exactly
    them. *)
Definition spansBetween (cfg : Delimiters) (heap : Store)
    (docBytes : list byte) (scanned : list RunPtr) (p : Placeholder) : Prop :=
  forall first rest,
    Fragments p = first :: rest -> rest <> [] ->
    exists pre between suffix c ic,
      closingOf p = Some (c, ic) /\
      scanned = pre ++ FragRun first :: between ++ c :: suffix /\
      (Forall (delimiterFree cfg heap docBytes) between ->
       SpanRun first = between).

Definition spansTracked (cfg : Delimiters) (heap : Store)
    (docBytes : list byte) (scanned : list RunPtr) (st : ScanState) : Prop :=
  Forall (spansSince cfg heap docBytes scanned) (stack st) /\
  Forall (spansBetween cfg heap docBytes scanned) (found st).

(** During the scan of [run], after the runs [done]. *)
Definition spansTrackedIn (cfg : Delimiters) (heap : Store)
    (docBytes : list byte) (done : list RunPtr) (run : RunPtr)
    (pre : list rune) (s : ScanState * bool) : Prop :=
  Forall (fun f => spansSince cfg heap docBytes done f
                   \/ (FragRun f = run /\ SpanRun f = []))
         (stack (fst s)) /\
  (snd s = false -> Forall (spansSince cfg heap docBytes done) (stack (fst s)))
  /\
  (snd s = true -> Exists (fun c => classify cfg c <> None) pre) /\
  Forall (spansBetween cfg heap docBytes (done ++ [run])) (found (fst s)).

(** What [Text] gives for a placeholder of several fragments: opened at
    index [io] of run [a], closed at index [ic] of a later run [c]; when
    the runs between hold no delimiter, the first fragment has recorded
    them and the text is made of the bytes of [a] from offset [io], the
    texts of the runs between, and the first [ic + 1] bytes of [c]. *)
Definition crossRunText (cfg : Delimiters) (heap : Store)
    (docBytes : list byte) (scanned : list RunPtr) (p : Placeholder) : Prop :=
  (1 < List.length (Fragments p))%nat ->
  exists a io c ic pre between suffix,
    openingOf p = Some (a, io) /\
    closingOf p = Some (c, ic) /\
    delimiterAt cfg heap docBytes DOpen a io /\
    delimiterAt cfg heap docBytes DClose c ic /\
    scanned = pre ++ a :: between ++ c :: suffix /\
    (Forall (delimiterFree cfg heap docBytes) between ->
     (exists first rest,
        Fragments p = first :: rest /\ SpanRun first = between) /\
     Placeholder_Text heap docBytes p
     = Some (subBytes (runText heap docBytes a) io
                      (len (runText heap docBytes a))
             ++ List.concat (map (runText heap docBytes) between)
             ++ subBytes (runText heap docBytes c) 0 (ic + 1))).

(** ** Keys and delimiters *)

(** Both delimiters are below [RuneSelf], as the initial ones are. *)
Definition asciiDelimiters (cfg : Delimiters) : Prop :=
  (0 <= OpenDelimiter cfg < 128) /\ (0 <= CloseDelimiter cfg < 128).

Definition isDelimiterByte (cfg : Delimiters) (b : byte) : bool :=
  (byteZ b =? OpenDelimiter cfg) || (byteZ b =? CloseDelimiter cfg).

(** The string neither begins nor ends with a delimiter. *)
Definition edgesPlain (cfg : Delimiters) (s : list byte) : bool :=
  match s with
  | [] => true
  | first :: _ =>
    negb (isDelimiterByte cfg first)
    && negb (isDelimiterByte cfg (List.last s x00))
  end.

(** The first and the last character of a string, as code points. *)
Definition firstChar (s : list byte) : option rune := hd_error (runes s).

Definition lastChar (s : list byte) : option rune :=
  match pop (runes s) with
  | None => None
  | Some (_, r) => Some r
  end.

(** A delimited string in the words of the documentation: it is not empty,
    its first character is the open delimiter and its last character the
    close delimiter. *)
Definition delimitedAsDocumented (cfg : Delimiters) (s : list byte) : Prop :=
  s <> [] /\
  firstChar s = Some (OpenDelimiter cfg) /\
  lastChar s = Some (CloseDelimiter cfg).

(** ** A sample document

    Three runs with the texts [foo{bar], [abc] and [}baz{x}]: one
    placeholder across the three runs and one inside the last run. *)

Definition sampleDoc : list byte :=
  bytes "<w:t>foo{bar</w:t><w:t>abc</w:t><w:t>}baz{x}</w:t>".

Definition sampleRunA : Run :=
  {| ID := 1;
     Text := {| OpenTag := {| Start := 0; End_ := 5 |};
                CloseTag := {| Start := 12; End_ := 18 |} |};
     HasText := true |}.

Definition sampleRunB : Run :=
  {| ID := 2;
     Text := {| OpenTag := {| Start := 18; End_ := 23 |};
                CloseTag := {| Start := 26; End_ := 32 |} |};
     HasText := true |}.

Definition sampleRunC : Run :=
  {| ID := 3;
     Text := {| OpenTag := {| Start := 32; End_ := 37 |};
                CloseTag := {| Start := 44; End_ := 50 |} |};
     HasText := true |}.

Definition sampleHeap : Store :=
  fun p => nth p [sampleRunA; sampleRunB; sampleRunC] sampleRunA.

Definition sampleRuns : DocumentRuns := [0%nat; 1%nat; 2%nat].

(** A single run with the text [foo{bar{bc}d}baz]. *)
Definition nestingDoc : list byte := bytes "<w:t>foo{bar{bc}d}baz</w:t>".

Definition nestingRun : Run :=
  {| ID := 1;
     Text := {| OpenTag := {| Start := 0; End_ := 5 |};
                CloseTag := {| Start := 21; End_ := 27 |} |};
     HasText := true |}.

Definition nestingHeap : Store := fun _ => nestingRun.

(** Four runs with the texts [foo{bar], [{bc], [d}ef] and [}baz]: a
    placeholder nested in another, both across runs. *)
Definition nestedDoc : list byte :=
  bytes "<w:t>foo{bar</w:t><w:t>{bc</w:t><w:t>d}ef</w:t><w:t>}baz</w:t>".

Definition nestedHeap : Store :=
  fun p =>
    nth p
      [{| ID := 1;
     Text := {| OpenTag := {| Start := 0; End_ := 5 |};
                CloseTag := {| Start := 12; End_ := 18 |} |};
     HasText := true |};
       {| ID := 2;
     Text := {| OpenTag := {| Start := 18; End_ := 23 |};
                CloseTag := {| Start := 26; End_ := 32 |} |};
     HasText := true |};
       {| ID := 3;
     Text := {| OpenTag := {| Start := 32; End_ := 37 |};
                CloseTag := {| Start := 41; End_ := 47 |} |};
     HasText := true |};
       {| ID := 4;
     Text := {| OpenTag := {| Start := 47; End_ := 52 |};
                CloseTag := {| Start := 56; End_ := 62 |} |};
     HasText := true |}]
      {| ID := 1;
     Text := {| OpenTag := {| Start := 0; End_ := 5 |};
                CloseTag := {| Start := 12; End_ := 18 |} |};
     HasText := true |}.

Definition nestedRuns : DocumentRuns := [0%nat; 1%nat; 2%nat; 3%nat].

(** A run sequence that holds the same run twice: the text of the run is
    [}a{]. *)
Definition twiceRun : Run :=
  {| ID := 7;
     Text := {| OpenTag := {| Start := 0; End_ := 5 |};
                CloseTag := {| Start := 8; End_ := 14 |} |};
     HasText := true |}.
Definition twiceHeap : Store := fun _ => twiceRun.
Definition twiceDoc : list byte := bytes "<w:t>}a{</w:t>".
Definition twiceRuns : DocumentRuns := [0%nat; 0%nat].

(** ** A document with a character of two bytes

    Three runs with the texts [é{bar], [abc] and [}baz]; the first text
    begins with the two bytes of U+00E9. *)

Definition accentDoc : list byte :=
  bytes "<w:t>" ++ [xc3; xa9] ++
  bytes "{bar</w:t><w:t>abc</w:t><w:t>}baz</w:t>".

Definition accentRunA : Run :=
  {| ID := 1;
     Text := {| OpenTag := {| Start := 0; End_ := 5 |};
                CloseTag := {| Start := 11; End_ := 17 |} |};
     HasText := true |}.

Definition accentRunB : Run :=
  {| ID := 2;
     Text := {| OpenTag := {| Start := 17; End_ := 22 |};
                CloseTag := {| Start := 25; End_ := 31 |} |};
     HasText := true |}.

Definition accentRunC : Run :=
  {| ID := 3;
     Text := {| OpenTag := {| Start := 31; End_ := 36 |};
                CloseTag := {| Start := 40; End_ := 46 |} |};
     HasText := true |}.

Definition accentHeap : Store :=
  fun p => nth p [accentRunA; accentRunB; accentRunC] accentRunA.

Definition accentRuns : DocumentRuns := [0%nat; 1%nat; 2%nat].

(** The delimiters U+00AB and U+00BB, and the key [x] between them. *)
Definition guillemets : Delimiters :=
  ChangeOpenCloseDelimiter 171 187 defaultDelimiters.

Definition guillemetKey : list byte := [xc2; xab; x78; xc2; xbb].

(** ** Absolute positions *)

(** [Placeholder.StartPos]; [None] stands for the run-time panic of the
    index expression on a placeholder without fragments. *)
Definition StartPos (heap : Store) (p : Placeholder) : option Z :=
  match Fragments p with
  | [] => None
  | f :: _ =>
    Some (End_ (OpenTag (Text (heap (FragRun f)))) + Start (FragPosition f))
  end.

(** [Placeholder.EndPos]; [None] as for [StartPos]. *)
Definition EndPos (heap : Store) (p : Placeholder) : option Z :=
  match pop (Fragments p) with
  | None => None
  | Some (_, f) =>
    Some (End_ (OpenTag (Text (heap (FragRun f)))) + End_ (FragPosition f))
  end.

(** ** Segments of a scan

    A sequence of occurrences scanned without a stray close delimiter is
    made of correctly nested stretches, separated by the open delimiters
    that are still open. [segmented st pre n]: the occurrences [pre] leave
    the open delimiters [st] and hold [n] matched pairs. *)
Inductive segmented : list Token -> list Token -> nat -> Prop :=
| segmented_base n w : nested n w -> segmented [] w n
| segmented_open st pre n o m w :
    segmented st pre n -> tkind o = DOpen -> nested m w ->
    segmented (st ++ [o]) (pre ++ o :: w) (n + m).

(** The kind of a line of the log. *)
Definition isUnmatchedClose (d : Diagnostic) : bool :=
  match d with
  | UnmatchedClose _ _ _ => true
  | UnmatchedOpen _ _ _ => false
  end.

(** ** Which runs a placeholder spans *)

Section Records.

Variable cfg : Delimiters.
Variable heap : Store.
Variable docBytes : list byte.

(** The text of a run holds no delimiter, decided. *)
Definition plainRun (run : RunPtr) : bool :=
  forallb (fun c => match classify cfg c with None => true | Some _ => false end)
          (runes (runText heap docBytes run)).

(** The open fragment [f] was pushed in a run of [scanned] and has recorded,
    of the runs scanned after that run, those that hold no delimiter. *)
Definition recordsSince (scanned : list RunPtr) (f : PlaceholderFragment)
    : Prop :=
  exists pre post,
    scanned = pre ++ FragRun f :: post /\
    SpanRun f = filter plainRun post.

(** The placeholder [p], if it has several fragments, was opened in a run
    and closed in a later run [c] of [scanned], and its first fragment has
    recorded, of the runs between the two, those that hold no delimiter. *)
Definition recordsBetween (scanned : list RunPtr) (p : Placeholder) : Prop :=
  forall first rest,
    Fragments p = first :: rest -> rest <> [] ->
    exists pre between suffix c ic,
      closingOf p = Some (c, ic) /\
      scanned = pre ++ FragRun first :: between ++ c :: suffix /\
      SpanRun first = filter plainRun between.

Definition recordsKept (scanned : list RunPtr) (st : ScanState) : Prop :=
  Forall (recordsSince scanned) (stack st) /\
  Forall (recordsBetween scanned) (found st).

(** During the scan of [run], after the runs [done]. *)
Definition recordsKeptIn (done : list RunPtr) (run : RunPtr)
    (pre : list rune) (s : ScanState * bool) : Prop :=
  Forall (fun f => recordsSince done f \/ (FragRun f = run /\ SpanRun f = []))
         (stack (fst s)) /\
  (snd s = false ->
   (Forall (fun c => classify cfg c = None) pre \/ stack (fst s) = []) /\
   Forall (recordsSince done) (stack (fst s))) /\
  (snd s = true -> Exists (fun c => classify cfg c <> None) pre) /\
  Forall (recordsBetween (done ++ [run])) (found (fst s)).

(** The bytes of a fragment inside the text of its run. *)
Definition fragmentText (f : PlaceholderFragment) : list byte :=
  subBytes (runText heap docBytes (FragRun f))
           (Start (FragPosition f)) (End_ (FragPosition f)).

(** A fragment that [Text] can read: its run lies inside the document and
    its position inside the text of the run. *)
Definition readable (f : PlaceholderFragment) : Prop :=
  inDocument (heap (FragRun f)) docBytes /\
  0 <= Start (FragPosition f) /\
  Start (FragPosition f) <= End_ (FragPosition f) /\
  End_ (FragPosition f) <= len (runText heap docBytes (FragRun f)).

(** What [Text] gives for a placeholder of several fragments: opened at
    index [io] of run [a], closed at index [ic] of a later run [c]; of the
    runs between, those that hold no delimiter are the span runs of the
    first fragment, and the text is made of the bytes of [a] from offset
    [io], the texts of these runs, and the first [ic + 1] bytes of [c]. *)
Definition readsAcrossRuns (scanned : list RunPtr) (p : Placeholder) : Prop :=
  (1 < List.length (Fragments p))%nat ->
  exists a io c ic pre between suffix,
    openingOf p = Some (a, io) /\
    closingOf p = Some (c, ic) /\
    scanned = pre ++ a :: between ++ c :: suffix /\
    (exists first rest,
       Fragments p = first :: rest /\
       SpanRun first = filter plainRun between) /\
    Placeholder_Text heap docBytes p
    = Some (subBytes (runText heap docBytes a) io
                     (len (runText heap docBytes a))
            ++ List.concat (map (runText heap docBytes)
                                (filter plainRun between))
            ++ subBytes (runText heap docBytes c) 0 (ic + 1)).

End Records.

(** ** [Text] on a slice with spare capacity *)

(** The sum of two [int64] wraps around. *)
Definition wrap64 (z : Z) : Z := (z + 2 ^ 63) mod 2 ^ 64 - 2 ^ 63.

Definition add64 (a b : Z) : Z := wrap64 (a + b).

(** The slice expression [b[lo:hi]] on a slice [b] whose backing array
    holds the bytes [spare] after it. The bounds of a slice of a slice are
    checked against its capacity, here [len b + len spare], and the bytes
    are those of the backing array; [None] stands for the run-time panic
    of a slice out of range. *)
Definition sliceWithin (b spare : list byte) (lo hi : Z)
    : option (list byte) :=
  if (0 <=? lo) && (lo <=? hi) && (hi <=? len b + len spare)
  then Some (firstn (Z.to_nat (hi - lo)) (skipn (Z.to_nat lo) (b ++ spare)))
  else None.

Section Capacity.

Variable heap : Store.
Variable docBytes spare : list byte.

(** [Placeholder.Text] with the offsets added as [int64] and the slice
    taken within the capacity of [docBytes]. *)
Fixpoint textLoopWithin (fragments : list PlaceholderFragment)
    (str : list byte) : option (list byte) :=
  match fragments with
  | [] => Some str
  | fragment :: rest =>
    let s := End_ (OpenTag (Text (heap (FragRun fragment)))) in
    match sliceWithin docBytes spare
                      (add64 s (Start (FragPosition fragment)))
                      (add64 s (End_ (FragPosition fragment))) with
    | None => None
    | Some t => textLoopWithin rest (str ++ t)
    end
  end.

Definition Placeholder_TextWithin (p : Placeholder) : option (list byte) :=
  textLoopWithin (Fragments p) [].

(** The absolute range of a fragment, as [Text] computes it. *)
Definition absoluteRange (f : PlaceholderFragment) : Z * Z :=
  let s := End_ (OpenTag (Text (heap (FragRun f)))) in
  (add64 s (Start (FragPosition f)), add64 s (End_ (FragPosition f))).

(** The absolute range of a fragment is a slice within the capacity. *)
Definition withinCapacity (f : PlaceholderFragment) : bool :=
  (0 <=? fst (absoluteRange f))
  && (fst (absoluteRange f) <=? snd (absoluteRange f))
  && (snd (absoluteRange f) <=? len docBytes + len spare).

(** The sum of the lengths of the absolute ranges. *)
Fixpoint lengthOfRanges (l : list PlaceholderFragment) : Z :=
  match l with
  | [] => 0
  | f :: rest =>
    snd (absoluteRange f) - fst (absoluteRange f) + lengthOfRanges rest
  end.

End Capacity.

(** A document of one run, and a placeholder whose fragment ends two bytes
    after the end of the document. *)
Definition shortDoc : list byte := bytes "<w:t>ab</w:t>".

Definition shortRun : Run :=
  {| ID := 1;
     Text := {| OpenTag := {| Start := 0; End_ := 5 |};
                CloseTag := {| Start := 7; End_ := 13 |} |};
     HasText := true |}.

Definition shortHeap : Store := fun _ => shortRun.

Definition overlong : Placeholder :=
  {| Fragments :=
       [{| FragPosition := {| Start := 0; End_ := 10 |};
           FragRun := 0%nat; SpanRun := [] |}] |}.

(** The placeholder [{x}] of the sample document. *)
Definition sampleKey : Placeholder :=
  {| Fragments :=
       [{| FragPosition := {| Start := 4; End_ := 7 |};
           FragRun := 2%nat; SpanRun := [] |}] |}.

(** ** Stripping delimiters *)

(** [s] without its leading delimiter bytes. *)
Fixpoint stripLeading (cfg : Delimiters) (s : list byte) : list byte :=
  match s with
  | [] => []
  | b :: t => if isDelimiterByte cfg b then stripLeading cfg t else s
  end.

(** [s] without its trailing delimiter bytes. *)
Fixpoint stripTrailing (cfg : Delimiters) (s : list byte) : list byte :=
  match s with
  | [] => []
  | b :: t =>
    match stripTrailing cfg t with
    | [] => if isDelimiterByte cfg b then [] else [b]
    | t' => b :: t'
    end
  end.

(** A configuration with delimiters of three bytes, U+300A and U+300B. *)
Definition wideDelimiters : Delimiters :=
  ChangeOpenCloseDelimiter 12298 12299 defaultDelimiters.

(** * Properties *)

Ltac split_ifs :=
  repeat match goal with
         | H : context [if ?c then _ else _] |- _ => destruct c eqn:?
         | H : context [match ?t with [] => _ | _ :: _ => _ end] |- _ =>
             destruct t
         end.

(** ** The model at work *)

(** Decoding: bytes below [RuneSelf], a character of two bytes, invalid
    bytes (one [RuneError] each), and characters of three and four bytes. *)
Example runes_ascii_text : runes (bytes "a{b}") = [97; 123; 98; 125].
Proof. reflexivity. Qed.

Example runes_two_bytes : runes [xc3; xa9; x7b] = [233; 123].
Proof. reflexivity. Qed.

Example runes_invalid_bytes :
  runes [xa9; x7b; xe2; x82] = [65533; 123; 65533; 65533].
Proof. reflexivity. Qed.

Example runes_three_and_four_bytes :
  runes [xe2; x82; xac; xf0; x9f; x98; x80] = [8364; 128512].
Proof. reflexivity. Qed.

Example encodeRune_three_bytes : encodeRune 8364 = [xe2; x82; xac].
Proof. reflexivity. Qed.

Example DecodeLastRune_three_bytes :
  DecodeLastRune [x78; xe2; x82; xac] = (8364, 3%nat).
Proof. reflexivity. Qed.

Example DecodeLastRune_stray_continuation :
  DecodeLastRune [x78; xe2; x82; xac; x82] = (65533, 1%nat).
Proof. reflexivity. Qed.

(** Trimming removes whole code points of the cutset from both ends. *)
Example Trim_code_points :
  Trim [xc2; xab; x78; xc2; xbb; xc2; xbb] [xc2; xab; xc2; xbb] = [x78].
Proof. reflexivity. Qed.

Example Trim_keeps_broken_tail :
  Trim [xc2; xab; x78; xbb; xc2] [xc2; xab; xc2; xbb] = [x78; xbb; xc2].
Proof. reflexivity. Qed.

Example Remove_trims_repeated_delimiters :
  RemovePlaceholderDelimiter defaultDelimiters (bytes "{{x}") = bytes "x".
Proof. reflexivity. Qed.

(** The sample document: a placeholder across three runs and one inside
    the last run, nothing logged. *)
Example sample_document_parsed :
  let r := ParsePlaceholders defaultDelimiters sampleHeap sampleDoc sampleRuns in
  map (Placeholder_Text sampleHeap sampleDoc) (placeholders r)
  = [Some (bytes "{barabc}"); Some (bytes "{x}")]
  /\ diagnostics r = [].
Proof. vm_compute. split; reflexivity. Qed.

(** The last example of the comment in the cross-run branch,
    [foo{bar|{bc|d}ef|}baz]: the inner placeholder comes first and reads
    [{bcd}]; the two runs that hold its delimiters are no span runs, and
    the outer placeholder reads [{bar}]. *)
Example nested_across_runs_parsed :
  let r := ParsePlaceholders defaultDelimiters nestedHeap nestedDoc nestedRuns in
  map (Placeholder_Text nestedHeap nestedDoc) (placeholders r)
  = [Some (bytes "{bcd}"); Some (bytes "{bar}")]
  /\ diagnostics r = [].
Proof. vm_compute. split; reflexivity. Qed.

(** ** The stack operations *)

Lemma pop_snoc {A : Type} (l : list A) (x : A) : pop (l ++ [x]) = Some (l, x).
Proof.
  induction l as [|y l IH]; simpl; [reflexivity|].
  rewrite IH. reflexivity.
Qed.

Lemma pop_Some {A : Type} (l init : list A) (top : A) :
  pop l = Some (init, top) -> l = init ++ [top].
Proof.
  revert init top.
  induction l as [|y l IH]; simpl; intros init top H; [discriminate|].
  destruct (pop l) as [[i t]|] eqn:E.
  - inversion H; subst. rewrite (IH i top eq_refl). reflexivity.
  - destruct l as [|z l]; [inversion H; reflexivity|].
    simpl in E. destruct (pop l) as [[? ?]|]; discriminate.
Qed.

Lemma pop_None {A : Type} (l : list A) : pop l = None -> l = [].
Proof.
  destruct l as [|y l]; simpl; [reflexivity|].
  destruct (pop l) as [[? ?]|]; discriminate.
Qed.

(** ** UTF-8 decoding *)

Lemma byteZ_range (b : byte) : 0 <= byteZ b < 256.
Proof.
  unfold byteZ. pose proof (Byte.to_N_bounded b) as H. lia.
Qed.

Lemma byteZ_Zbyte (z : Z) : 0 <= z < 256 -> byteZ (Zbyte z) = z.
Proof.
  intros Hz. unfold Zbyte, byteZ.
  destruct (Byte.of_N (Z.to_N z)) as [b|] eqn:E.
  - apply Byte.to_of_N in E. rewrite E. lia.
  - apply Byte.of_N_None_iff in E. lia.
Qed.

Lemma lor_lower_l (a b : Z) : 0 <= b -> a <= Z.lor a b.
Proof.
  intros Hb. pose proof (Z.sub_lor_l_same_r b a) as H.
  assert (0 <= Z.land b (Z.lnot a)) by (apply Z.land_nonneg; left; exact Hb).
  rewrite Z.lor_comm in H. lia.
Qed.

Lemma lor_lower_r (a b : Z) : 0 <= a -> b <= Z.lor a b.
Proof.
  intros Ha. rewrite Z.lor_comm. apply lor_lower_l. exact Ha.
Qed.

Lemma land_low_bits (z : Z) (k : Z) :
  0 <= k -> Z.land z (Z.ones k) = z mod 2 ^ k.
Proof. intros Hk. apply Z.land_ones. exact Hk. Qed.

(** A byte below [RuneSelf] is a rune of its own. *)
Lemma DecodeRune_ascii (b : byte) (t : list byte) :
  byteZ b < 128 -> DecodeRune (b :: t) = (byteZ b, 1%nat).
Proof.
  intros Hb. unfold DecodeRune, RuneSelf.
  apply Z.ltb_lt in Hb. rewrite Hb. reflexivity.
Qed.

(** The sequence length and the range of the second byte fix the range of
    the leading byte. *)
Lemma leadInfo_cases (b : byte) (sz : nat) (lo hi : Z) :
  leadInfo b = Some (sz, lo, hi) ->
  128 <= lo /\ hi <= 191 /\
  ((sz = 2%nat /\ 194 <= byteZ b < 224) \/
   (sz = 3%nat /\ ((byteZ b = 224 /\ 160 <= lo) \/ 225 <= byteZ b < 240)) \/
   (sz = 4%nat /\ ((byteZ b = 240 /\ 144 <= lo) \/ 241 <= byteZ b < 245))).
Proof.
  unfold leadInfo. intros H. split_ifs; inversion H; subst; clear H;
    repeat match goal with
           | H : (_ <? _) = true |- _ => apply Z.ltb_lt in H
           | H : (_ <? _) = false |- _ => apply Z.ltb_ge in H
           | H : (_ =? _) = true |- _ => apply Z.eqb_eq in H
           | H : (_ =? _) = false |- _ => apply Z.eqb_neq in H
           end; repeat split; lia.
Qed.

Lemma inRange_bounds (lo hi : Z) (b : byte) :
  negb (inRange lo hi b) = false -> lo <= byteZ b <= hi.
Proof.
  unfold inRange. rewrite negb_false_iff, andb_true_iff, !Z.leb_le. tauto.
Qed.

Lemma shifted_bits_lower (z k n m : Z) :
  0 <= k -> 0 <= n -> m <= (z mod 2 ^ k) * 2 ^ n ->
  m <= Z.shiftl (Z.land z (Z.ones k)) n.
Proof.
  intros Hk Hn Hm. rewrite land_low_bits, Z.shiftl_mul_pow2 by assumption.
  exact Hm.
Qed.

Lemma shifted_bits_nonneg (z k n : Z) :
  0 <= k -> 0 <= n -> 0 <= Z.shiftl (Z.land z (Z.ones k)) n.
Proof.
  intros Hk Hn. apply Z.shiftl_nonneg. rewrite land_low_bits by assumption.
  apply Z.mod_pos_bound. apply Z.pow_pos_nonneg; lia.
Qed.

Lemma low_bits_nonneg (z k : Z) : 0 <= k -> 0 <= Z.land z (Z.ones k).
Proof.
  intros Hk. rewrite land_low_bits by assumption.
  apply Z.mod_pos_bound. apply Z.pow_pos_nonneg; lia.
Qed.

(** What [DecodeRune] yields on a non-empty input: at least one byte is
    consumed; a first byte from [RuneSelf] on never gives a rune below
    [RuneSelf]; and the bytes consumed after the first are continuation
    bytes. *)
Lemma DecodeRune_cases (b : byte) (t : list byte) (r : rune) (n : nat) :
  DecodeRune (b :: t) = (r, n) ->
  (1 <= n)%nat /\
  (128 <= byteZ b -> 128 <= r) /\
  (n - 1 <= List.length t)%nat /\
  Forall (fun x => 128 <= byteZ x) (firstn (n - 1) t).
Proof.
  unfold DecodeRune, RuneSelf, RuneError, isCont. intros H.
  destruct (byteZ b <? 128) eqn:Eb.
  { inversion H; subst. apply Z.ltb_lt in Eb. simpl.
    repeat split; try lia. constructor. }
  destruct (leadInfo b) as [[[sz lo] hi]|] eqn:El;
    [|inversion H; subst; simpl; repeat split; try lia; constructor].
  apply leadInfo_cases in El. destruct El as (Hlo & Hhi & Hsz).
  destruct t as [|b1 t1];
    [inversion H; subst; simpl; repeat split; try lia; constructor|].
  destruct (negb (inRange lo hi b1)) eqn:E1;
    [inversion H; subst; simpl; repeat split; try lia; constructor|].
  apply inRange_bounds in E1.
  destruct (sz <=? 2)%nat eqn:E2.
  { apply Nat.leb_le in E2. inversion H; subst; clear H. simpl.
    repeat split; try lia.
    - intros _. destruct Hsz as [[_ Hb]|[[? _]|[? _]]]; try lia.
      etransitivity; [|apply lor_lower_l; apply (low_bits_nonneg _ 6); lia].
      apply (shifted_bits_lower _ 5 6); try lia.
      change (2 ^ 5) with 32. change (2 ^ 6) with 64.
      Z.div_mod_to_equations. lia.
    - constructor; [lia | constructor]. }
  apply Nat.leb_gt in E2.
  destruct t1 as [|b2 t2];
    [inversion H; subst; simpl; repeat split; try lia; constructor|].
  destruct (negb (inRange 128 191 b2)) eqn:E3;
    [inversion H; subst; simpl; repeat split; try lia; constructor|].
  apply inRange_bounds in E3.
  destruct (sz <=? 3)%nat eqn:E4.
  { apply Nat.leb_le in E4. inversion H; subst; clear H. simpl.
    repeat split; try lia.
    - intros _.
      etransitivity; [|apply lor_lower_l; apply (low_bits_nonneg _ 6); lia].
      destruct Hsz as [[? _]|[[_ [[Hb Hl]|Hb]]|[? _]]]; try lia.
      + etransitivity;
          [|apply lor_lower_r; apply (shifted_bits_nonneg _ 4 12); lia].
        apply (shifted_bits_lower _ 6 6); try lia.
        change (2 ^ 6) with 64. Z.div_mod_to_equations. lia.
      + etransitivity;
          [|apply lor_lower_l; apply (shifted_bits_nonneg _ 6 6); lia].
        apply (shifted_bits_lower _ 4 12); try lia.
        change (2 ^ 4) with 16. change (2 ^ 12) with 4096.
        Z.div_mod_to_equations. lia.
    - constructor; [lia|]. constructor; [lia | constructor]. }
  apply Nat.leb_gt in E4.
  destruct t2 as [|b3 t3];
    [inversion H; subst; simpl; repeat split; try lia; constructor|].
  destruct (negb (inRange 128 191 b3)) eqn:E5;
    [inversion H; subst; simpl; repeat split; try lia; constructor|].
  apply inRange_bounds in E5.
  inversion H; subst; clear H. simpl.
  repeat split; try lia.
  - intros _.
    etransitivity; [|apply lor_lower_l; apply (low_bits_nonneg _ 6); lia].
    etransitivity;
      [|apply lor_lower_l; apply (shifted_bits_nonneg _ 6 6); lia].
    destruct Hsz as [[? _]|[[? _]|[_ [[Hb Hl]|Hb]]]]; try lia.
    + etransitivity;
        [|apply lor_lower_r; apply (shifted_bits_nonneg _ 3 18); lia].
      apply (shifted_bits_lower _ 6 12); try lia.
      change (2 ^ 6) with 64. change (2 ^ 12) with 4096.
      Z.div_mod_to_equations. lia.
    + etransitivity;
        [|apply lor_lower_l; apply (shifted_bits_nonneg _ 6 12); lia].
      apply (shifted_bits_lower _ 3 18); try lia.
      change (2 ^ 3) with 8. change (2 ^ 18) with 262144.
      Z.div_mod_to_equations. lia.
  - constructor; [lia|]. constructor; [lia|]. constructor; [lia | constructor].
Qed.

(** ** Induction over the two loops *)

Section Loops.

Variable cfg : Delimiters.
Variable heap : Store.
Variable docBytes : list byte.

Local Abbreviation scanRune' := (scanRune cfg heap docBytes).
Local Abbreviation scanRunes' := (scanRunes cfg heap docBytes).
Local Abbreviation scanRun' := (scanRun cfg heap docBytes).
Local Abbreviation scanRuns' := (scanRuns cfg heap docBytes).

(** A property of the runes scanned so far and of the loop variables that
    every round keeps holds when the inner loop ends; [full] is the text
    being scanned. *)
Lemma scanRunes_invariant (run : RunPtr) (full : list rune)
    (Q : list rune -> ScanState * bool -> Prop) :
  (forall pre c post s, full = pre ++ c :: post -> Q pre s ->
     Q (pre ++ [c]) (scanRune' run (List.length pre) c s)) ->
  forall rest pre s, full = pre ++ rest -> Q pre s ->
    Q full (scanRunes' run (List.length pre) rest s).
Proof.
  intros Hstep rest.
  induction rest as [|c rest IH]; intros pre s Hfull HQ; simpl.
  - rewrite app_nil_r in Hfull. subst full. exact HQ.
  - assert (Hfull' : full = (pre ++ [c]) ++ rest)
      by (rewrite <- app_assoc; exact Hfull).
    specialize (IH (pre ++ [c]) (scanRune' run (List.length pre) c s)
                   Hfull' (Hstep pre c rest s Hfull HQ)).
    rewrite length_app in IH. simpl in IH.
    rewrite Nat.add_1_r in IH. exact IH.
Qed.

(** The body of the outer loop keeps [I] when the inner loop keeps [Q],
    [Q] holds of [I] at the start of a run and gives [I] back at its end,
    also after the run was added as a span run. *)
Lemma scanRun_invariant (run : RunPtr) (I I' : ScanState -> Prop)
    (Q : list rune -> ScanState * bool -> Prop) :
  (forall st, I st -> Q [] (st, false)) ->
  (forall pre c post s,
     runes (runText heap docBytes run) = pre ++ c :: post -> Q pre s ->
     Q (pre ++ [c]) (scanRune' run (List.length pre) c s)) ->
  (forall st, Q (runes (runText heap docBytes run)) (st, true) -> I' st) ->
  (forall st, Q (runes (runText heap docBytes run)) (st, false) ->
     I' {| stack := map (addSpanRun run) (stack st);
           found := found st; logged := logged st |}) ->
  forall st, I st -> I' (scanRun' st run).
Proof.
  intros Hinit Hstep Htrue Hfalse st HI. unfold scanRun.
  pose proof (scanRunes_invariant run (runes (runText heap docBytes run)) Q
                Hstep (runes (runText heap docBytes run)) [] (st, false)
                eq_refl (Hinit st HI)) as H.
  simpl in H.
  destruct (scanRunes' run 0 (runes (runText heap docBytes run)) (st, false))
    as [st1 [|]]; [apply Htrue | apply Hfalse]; exact H.
Qed.

(** A property of the runs consumed so far and of the state that the body
    of the outer loop keeps holds when the loop ends. *)
Lemma scanRuns_invariant (I : list RunPtr -> ScanState -> Prop) :
  I [] initialState ->
  (forall done run st, I done st -> I (done ++ [run]) (scanRun' st run)) ->
  forall runs, I runs (scanRuns' runs).
Proof.
  intros H0 Hstep runs. unfold scanRuns.
  assert (G : forall rest done st, I done st ->
            I (done ++ rest) (fold_left scanRun' rest st)).
  { induction rest as [|r rest IH]; intros done st HI; simpl.
    - rewrite app_nil_r. exact HI.
    - specialize (IH (done ++ [r]) (scanRun' st r) (Hstep done r st HI)).
      rewrite <- app_assoc in IH. exact IH. }
  exact (G runs [] initialState H0).
Qed.

End Loops.

(** ** The scan refines the bracket matcher *)

Lemma pop_map {A B : Type} (f : A -> B) (l : list A) :
  pop (map f l) =
  match pop l with
  | None => None
  | Some (init, top) => Some (map f init, f top)
  end.
Proof.
  induction l as [|x l IH]; simpl; [reflexivity|].
  rewrite IH. destruct (pop l) as [[i t]|]; reflexivity.
Qed.

Section Refinement.

Variable cfg : Delimiters.
Variable heap : Store.
Variable docBytes : list byte.

Local Abbreviation scanRune' := (scanRune cfg heap docBytes).
Local Abbreviation scanRunes' := (scanRunes cfg heap docBytes).
Local Abbreviation scanRun' := (scanRun cfg heap docBytes).
Local Abbreviation scanRuns' := (scanRuns cfg heap docBytes).
Local Abbreviation classify' := (classify cfg).
Local Abbreviation simulates' := (simulates heap docBytes).

Lemma classify_open (c : rune) :
  classify' c = Some DOpen <-> c = OpenDelimiter cfg.
Proof.
  unfold classify. destruct (Z.eqb_spec c (OpenDelimiter cfg)).
  - tauto.
  - destruct (c =? CloseDelimiter cfg); split; congruence.
Qed.

Lemma classify_close (c : rune) :
  classify' c = Some DClose <->
  c <> OpenDelimiter cfg /\ c = CloseDelimiter cfg.
Proof.
  unfold classify. destruct (Z.eqb_spec c (OpenDelimiter cfg)).
  - split; [discriminate | tauto].
  - destruct (Z.eqb_spec c (CloseDelimiter cfg)); split;
      try tauto; try discriminate.
Qed.

Lemma classify_none (c : rune) :
  classify' c = None <->
  c <> OpenDelimiter cfg /\ c <> CloseDelimiter cfg.
Proof.
  unfold classify. destruct (Z.eqb_spec c (OpenDelimiter cfg)).
  - split; [discriminate | tauto].
  - destruct (Z.eqb_spec c (CloseDelimiter cfg)); split;
      try tauto; try discriminate.
Qed.

(** A rune that is no delimiter leaves the loop variables alone. *)
Lemma scanRune_plain (run : RunPtr) (i : nat) (c : rune) s :
  classify' c = None -> scanRune' run i c s = s.
Proof.
  intros H. apply classify_none in H. destruct H as [Ho Hc].
  destruct s as [st flag]. unfold scanRune.
  apply Z.eqb_neq in Ho, Hc. rewrite Ho, Hc. reflexivity.
Qed.

Lemma closingOf_single (f : PlaceholderFragment) :
  closingOf {| Fragments := [f] |} =
  Some (FragRun f, End_ (FragPosition f) - 1).
Proof. reflexivity. Qed.

(** The fragment list of the cross-run case ends with the fragment of the
    closing run. *)
Lemma crossRunFragments_snoc (f : PlaceholderFragment) (run : RunPtr)
    (i : nat) :
  crossRunFragments heap docBytes f run i =
  (setEnd f (len (runText heap docBytes (FragRun f)))
   :: map (fun srun =>
             NewPlaceholderFragment
               {| Start := 0; End_ := len (runText heap docBytes srun) |} srun)
          (SpanRun f))
  ++ [NewPlaceholderFragment {| Start := 0; End_ := Z.of_nat i + 1 |} run].
Proof. reflexivity. Qed.

Lemma closingOf_cross (f : PlaceholderFragment) (run : RunPtr) (i : nat) :
  closingOf {| Fragments := crossRunFragments heap docBytes f run i |} =
  Some (run, Z.of_nat i).
Proof.
  unfold closingOf. simpl Fragments.
  rewrite crossRunFragments_snoc, pop_snoc. simpl. f_equal. f_equal. lia.
Qed.

(** The five ways a round of the inner loop can go. *)
Lemma scanRune_cases (run : RunPtr) (i : nat) (c : rune) (st : ScanState)
    (flag : bool) (P : ScanState * bool -> Prop) :
  (classify' c = None -> P (st, flag)) ->
  (classify' c = Some DOpen ->
   P ({| stack := stack st ++
                  [NewPlaceholderFragment
                     {| Start := Z.of_nat i; End_ := -1 |} run];
         found := found st; logged := logged st |}, true)) ->
  (classify' c = Some DClose -> stack st = [] ->
   P ({| stack := [];
         found := found st;
         logged := logged st ++
                   [UnmatchedClose (ID (heap run)) (runText heap docBytes run)
                                   (Z.of_nat i)] |}, flag)) ->
  (forall stack' fragment,
   classify' c = Some DClose -> stack st = stack' ++ [fragment] ->
   run = FragRun fragment ->
   P ({| stack := stack';
         found := found st ++
                  [{| Fragments := [setEnd fragment (Z.of_nat i + 1)] |}];
         logged := logged st |}, true)) ->
  (forall stack' fragment,
   classify' c = Some DClose -> stack st = stack' ++ [fragment] ->
   run <> FragRun fragment ->
   P ({| stack := stack';
         found := found st ++
                  [{| Fragments :=
                        crossRunFragments heap docBytes fragment run i |}];
         logged := logged st |}, true)) ->
  P (scanRune' run i c (st, flag)).
Proof.
  intros Hplain Hopen Hstray Hsame Hcross.
  destruct (classify' c) as [[|]|] eqn:Ek.
  - specialize (Hopen eq_refl). apply classify_open in Ek.
    apply Z.eqb_eq in Ek. unfold scanRune. rewrite Ek. exact Hopen.
  - pose proof Ek as Ek'. apply classify_close in Ek'.
    destruct Ek' as [Ho Hc]. apply Z.eqb_neq in Ho. apply Z.eqb_eq in Hc.
    unfold scanRune. rewrite Ho, Hc.
    destruct (pop (stack st)) as [[stack' fragment]|] eqn:Ep.
    + apply pop_Some in Ep.
      destruct (Nat.eqb_spec run (FragRun fragment)) as [Hr|Hr].
      * apply Hsame; auto.
      * apply Hcross; auto.
    + apply pop_None in Ep. specialize (Hstray eq_refl Ep).
      rewrite Ep. exact Hstray.
  - rewrite scanRune_plain by exact Ek. apply Hplain. reflexivity.
Qed.

(** One round of the inner loop on a delimiter is one step of the
    matcher. *)
Lemma scanRune_matchStep (run : RunPtr) (i : nat) (c : rune) (k : DelimKind)
    (st : ScanState) (flag : bool) (m : Matching) :
  classify' c = Some k ->
  simulates' st m ->
  simulates' (fst (scanRune' run i c (st, flag)))
             (matchStep m {| tkind := k; trun := run; tindex := i |}).
Proof.
  intros Hk [Hs Hf Hl]. destruct k.
  - apply classify_open in Hk. unfold scanRune.
    apply Z.eqb_eq in Hk. rewrite Hk. unfold matchStep. simpl.
    constructor; simpl; try assumption.
    rewrite !map_app, Hs. reflexivity.
  - apply classify_close in Hk. destruct Hk as [Ho Hc]. unfold scanRune.
    apply Z.eqb_neq in Ho. apply Z.eqb_eq in Hc. rewrite Ho, Hc.
    unfold matchStep. simpl tkind.
    assert (Hp := f_equal pop Hs). rewrite !pop_map in Hp.
    destruct (pop (stack st)) as [[stack' fragment]|] eqn:Est;
      destruct (pop (opened m)) as [[rest o]|] eqn:Eop; try discriminate.
    + inversion Hp as [[Hrest Htop H]].
      destruct (Nat.eqb_spec run (FragRun fragment)) as [Hrun|Hrun]; simpl;
        constructor; simpl; try assumption;
        rewrite !map_app, Hf; simpl; f_equal; f_equal;
        unfold placeholderPlaces, pairPlaces; simpl fst; simpl snd.
      * rewrite closingOf_single. unfold openingOf, place. simpl.
        rewrite <- Hrun, <- Htop, <- H, <- Hrun. do 3 f_equal. lia.
      * rewrite closingOf_cross. unfold openingOf, place. simpl.
        rewrite <- Htop, <- H. reflexivity.
    + simpl. constructor; simpl; try assumption.
      rewrite map_app, Hl. reflexivity.
Qed.

(** The inner loop is the matcher run over the delimiters it meets. *)
Lemma scanRunes_matchDelims (run : RunPtr) (runRune : list rune) :
  forall (i : nat) (st : ScanState) (flag : bool) (m : Matching),
  simulates' st m ->
  simulates' (fst (scanRunes' run i runRune (st, flag)))
             (fold_left matchStep (delimsFrom cfg run i runRune) m).
Proof.
  induction runRune as [|c rest IH]; intros i st flag m Hsim.
  - exact Hsim.
  - cbn [scanRunes delimsFrom].
    destruct (classify' c) as [k|] eqn:Ek.
    + pose proof (scanRune_matchStep run i c k st flag m Ek Hsim) as H.
      destruct (scanRune' run i c (st, flag)) as [st1 flag1].
      cbn [fold_left]. apply IH. exact H.
    + rewrite (scanRune_plain run i c (st, flag) Ek). apply IH. exact Hsim.
Qed.

Lemma map_fragPlace_addSpanRun (run : RunPtr) (l : list PlaceholderFragment) :
  map fragPlace (map (addSpanRun run) l) = map fragPlace l.
Proof.
  rewrite map_map. apply map_ext. intros f. reflexivity.
Qed.

Lemma scanRun_matchDelims (run : RunPtr) (st : ScanState) (m : Matching) :
  simulates' st m ->
  simulates' (scanRun' st run)
             (fold_left matchStep (runDelims cfg heap docBytes run) m).
Proof.
  intros Hsim. unfold scanRun, runDelims.
  pose proof (scanRunes_matchDelims run
                (runes (runText heap docBytes run)) 0 st false m Hsim) as H.
  destruct (scanRunes' run 0 (runes (runText heap docBytes run)) (st, false))
    as [st1 flag1]. simpl in H.
  destruct flag1; [exact H|].
  destruct H as [Hs Hf Hl]. constructor; simpl; try assumption.
  rewrite map_fragPlace_addSpanRun. exact Hs.
Qed.

(** The whole scan is the matcher run over the delimiter occurrences of
    the runs. *)
Lemma scanRuns_matchDelims (runs : list RunPtr) :
  simulates' (scanRuns' runs)
             (matchDelims (flat_map (runDelims cfg heap docBytes) runs)).
Proof.
  unfold scanRuns, matchDelims.
  assert (G : forall st m, simulates' st m ->
            simulates' (fold_left scanRun' runs st)
              (fold_left matchStep
                 (flat_map (runDelims cfg heap docBytes) runs) m)).
  { induction runs as [|r rest IH]; intros st m Hsim; simpl.
    - exact Hsim.
    - rewrite fold_left_app. apply IH. apply scanRun_matchDelims. exact Hsim. }
  apply G. constructor; reflexivity.
Qed.

End Refinement.

(** ** The bracket matcher *)

Lemma matching_eta (m : Matching) :
  {| opened := opened m; pairs := pairs m ++ []; stray := stray m |} = m.
Proof. destruct m. simpl. rewrite app_nil_r. reflexivity. Qed.

(** Over a correctly nested sequence the matcher returns to the stack it
    started from, strays nothing and adds one pair per close delimiter, in
    the order of the close delimiters. *)
Lemma matchStep_nested (n : nat) (w : list Token) :
  nested n w ->
  exists pw,
    List.length pw = n /\
    map snd pw = filter isClose w /\
    forall m, fold_left matchStep w m =
              {| opened := opened m; pairs := pairs m ++ pw;
                 stray := stray m |}.
Proof.
  induction 1 as [|o c n w Ho Hc Hw IH|n k u v Hu IHu Hv IHv].
  - exists []. repeat split. intros m. simpl. symmetry. apply matching_eta.
  - destruct IH as (pw & Hlen & Hsnd & Hfold).
    exists (pw ++ [(o, c)]). repeat split.
    + rewrite length_app. simpl. lia.
    + assert (Eo : isClose o = false) by (unfold isClose; rewrite Ho; reflexivity).
      assert (Ec : isClose c = true) by (unfold isClose; rewrite Hc; reflexivity).
      rewrite map_app. cbn [filter map snd]. rewrite Eo, filter_app, Hsnd.
      cbn [filter]. rewrite Ec. reflexivity.
    + intros m. cbn [fold_left]. rewrite fold_left_app, Hfold.
      cbn [fold_left]. unfold matchStep. rewrite Ho, Hc.
      cbn [opened pairs stray]. rewrite pop_snoc, <- app_assoc.
      reflexivity.
  - destruct IHu as (pu & Hlu & Hsu & Hfu).
    destruct IHv as (pv & Hlv & Hsv & Hfv).
    exists (pu ++ pv). repeat split.
    + rewrite length_app. lia.
    + rewrite map_app, filter_app, Hsu, Hsv. reflexivity.
    + intros m. rewrite fold_left_app, Hfu, Hfv. simpl.
      rewrite app_assoc. reflexivity.
Qed.

(** Every occurrence ends up in a pair, among the strays or on the
    stack. *)
Lemma matchStep_accounts (ts : list Token) :
  forall m,
  let m' := fold_left matchStep ts m in
  (List.length ts + 2 * List.length (pairs m) + List.length (stray m)
   + List.length (opened m)
   = 2 * List.length (pairs m') + List.length (stray m')
     + List.length (opened m'))%nat.
Proof.
  induction ts as [|t ts IH]; intros m; simpl; [reflexivity|].
  specialize (IH (matchStep m t)). simpl in IH. rewrite <- IH.
  unfold matchStep. destruct (tkind t); simpl.
  - rewrite length_app. simpl. lia.
  - destruct (pop (opened m)) as [[rest o]|] eqn:E; simpl.
    + apply pop_Some in E. rewrite E, !length_app. simpl. lia.
    + rewrite length_app. simpl. lia.
Qed.

(** ** Count and order of the placeholders (C1) *)

(** C1. When the delimiter occurrences of a run sequence form [N]
    correctly nested pairs with none left dangling, [ParsePlaceholders]
    returns exactly [N] placeholders, and they come in the order in which
    their closing delimiters are met by the scan: the k-th placeholder ends
    at the k-th close delimiter. *)
Theorem nested_pairs_all_returned (cfg : Delimiters) (heap : Store)
    (docBytes : list byte) (runs : DocumentRuns) (N : nat) :
  nested N (delimiterOccurrences cfg heap docBytes runs) ->
  let ps := placeholders (ParsePlaceholders cfg heap docBytes runs) in
  List.length ps = N /\
  map closingOf ps =
  map (fun t => Some (place t))
      (filter isClose (delimiterOccurrences cfg heap docBytes runs)).
Proof.
  intros Hn ps.
  destruct (matchStep_nested N _ Hn) as (pw & Hlen & Hsnd & Hfold).
  pose proof (scanRuns_matchDelims cfg heap docBytes (WithText heap runs))
    as [_ Hf _].
  fold (delimiterOccurrences cfg heap docBytes runs) in Hf.
  unfold matchDelims in Hf. rewrite Hfold in Hf. simpl in Hf.
  assert (Hps : ps = found (scanRuns cfg heap docBytes (WithText heap runs)))
    by reflexivity.
  rewrite <- Hps in Hf. split.
  - rewrite <- Hlen, <- (length_map placeholderPlaces ps), Hf.
    apply length_map.
  - rewrite <- Hsnd.
    transitivity (map snd (map placeholderPlaces ps)).
    + rewrite map_map. reflexivity.
    + rewrite Hf, !map_map. reflexivity.
Qed.

(** ** Unmatched delimiters (C5) *)

(** C5. A close delimiter scanned while the stack is empty creates and
    consumes no fragment, adds no placeholder and logs exactly one
    diagnostic naming the run and the index; and when all runs are consumed
    the fragments left on the stack add nothing to the result and are
    logged once each with their run and start index. Over a whole parse:
    the placeholders are as many as the matched pairs, and the log is one
    line per close delimiter without partner followed by one line per open
    delimiter left dangling. *)
Theorem unmatched_delimiters_logged_once (cfg : Delimiters) (heap : Store)
    (docBytes : list byte) (runs : DocumentRuns) :
  (forall (run : RunPtr) (i : nat) (c : rune) (st : ScanState) (flag : bool),
     classify cfg c = Some DClose ->
     stack st = [] ->
     scanRune cfg heap docBytes run i c (st, flag) =
       ({| stack := [];
           found := found st;
           logged := logged st ++
                     [UnmatchedClose (ID (heap run))
                                     (runText heap docBytes run)
                                     (Z.of_nat i)] |}, flag))
  /\
  let final := scanRuns cfg heap docBytes (WithText heap runs) in
  let r := ParsePlaceholders cfg heap docBytes runs in
  let m := matchDelims (delimiterOccurrences cfg heap docBytes runs) in
  placeholders r = found final /\
  diagnostics r
    = logged final ++ map (unmatchedOpen heap docBytes) (stack final) /\
  List.length (placeholders r) = List.length (pairs m) /\
  diagnostics r = map (strayClose heap docBytes) (stray m)
                  ++ map (danglingOpen heap docBytes) (opened m).
Proof.
  split.
  - intros run i c st flag Hc Hst.
    apply classify_close in Hc. destruct Hc as [Ho Hc].
    apply Z.eqb_neq in Ho. apply Z.eqb_eq in Hc.
    unfold scanRune. rewrite Ho, Hc, Hst. reflexivity.
  - intros final r m.
    pose proof (scanRuns_matchDelims cfg heap docBytes (WithText heap runs))
      as [Hs Hf Hl].
    fold (delimiterOccurrences cfg heap docBytes runs) in Hs, Hf, Hl.
    fold final in Hs, Hf, Hl. fold m in Hs, Hf, Hl.
    repeat split.
    + unfold r, ParsePlaceholders. simpl. fold final.
      rewrite <- (length_map placeholderPlaces), Hf. apply length_map.
    + unfold r, ParsePlaceholders. simpl. fold final. rewrite Hl. f_equal.
      transitivity (map (fun p : RunPtr * Z =>
                           UnmatchedOpen (ID (heap (fst p)))
                             (runText heap docBytes (fst p)) (snd p))
                        (map fragPlace (stack final))).
      * rewrite map_map. reflexivity.
      * rewrite Hs, map_map. reflexivity.
Qed.

(** ** No hard failure (C6) *)

(** C6. [ParsePlaceholders] returns a nil error for every input. The scan
    is never cut short and the diagnostics take nothing else away: the
    placeholders returned are exactly the matched pairs of the bracket
    matching of all delimiter occurrences, in closing order, each opened and
    closed where its pair is, and every occurrence is either in a returned
    placeholder or named by one diagnostic. *)
Theorem parse_never_fails (cfg : Delimiters) (heap : Store)
    (docBytes : list byte) (runs : DocumentRuns) :
  let r := ParsePlaceholders cfg heap docBytes runs in
  let ts := delimiterOccurrences cfg heap docBytes runs in
  err r = None /\
  map placeholderPlaces (placeholders r) = map pairPlaces (pairs (matchDelims ts)) /\
  (List.length ts =
   2 * List.length (placeholders r) + List.length (diagnostics r))%nat.
Proof.
  intros r ts.
  pose proof (scanRuns_matchDelims cfg heap docBytes (WithText heap runs))
    as [Hs Hf Hl].
  fold (delimiterOccurrences cfg heap docBytes runs) in Hs, Hf, Hl.
  fold ts in Hs, Hf, Hl.
  split; [reflexivity|]. split; [exact Hf|].
  pose proof (matchStep_accounts ts noMatching) as Ha. simpl in Ha.
  fold (matchDelims ts) in Ha.
  unfold r, ParsePlaceholders. simpl.
  rewrite length_app, !length_map.
  rewrite <- (length_map placeholderPlaces), Hf, length_map.
  rewrite Hl, length_map.
  rewrite <- (length_map fragPlace), Hs, length_map. lia.
Qed.

(** ** The structural invariant (C3) *)

Section Structure.

Variable cfg : Delimiters.
Variable heap : Store.
Variable docBytes : list byte.

Local Abbreviation shapesKept' := (shapesKept cfg heap docBytes).

Local Abbreviation text' := (runText heap docBytes).
Local Abbreviation delimiterAt' := (delimiterAt cfg heap docBytes).
Local Abbreviation onOpenDelimiter' := (onOpenDelimiter cfg heap docBytes).
Local Abbreviation structuralInvariant' :=
  (structuralInvariant cfg heap docBytes).

(** The rune scanned in a round is the rune at the index of the round. *)
Lemma delimiterAt_scanned (k : DelimKind) (run : RunPtr)
    (pre post : list rune) (c : rune) :
  runes (text' run) = pre ++ c :: post ->
  classify cfg c = Some k ->
  delimiterAt' k run (Z.of_nat (List.length pre)).
Proof.
  intros Hfull Hk. split; [lia|]. exists c. split; [|exact Hk].
  rewrite Nat2Z.id, Hfull, nth_error_app2 by lia.
  rewrite Nat.sub_diag. reflexivity.
Qed.

Lemma wholeRun_positions (l : list RunPtr) :
  Forall (fun f => FragPosition f =
            {| Start := 0; End_ := len (text' (FragRun f)) |})
         (map (wholeRun heap docBytes) l).
Proof.
  apply Forall_forall. intros f Hin. apply in_map_iff in Hin.
  destruct Hin as (srun & <- & _). reflexivity.
Qed.

Lemma structuralInvariant_same (f : PlaceholderFragment) (i : nat) :
  onOpenDelimiter' f ->
  delimiterAt' DClose (FragRun f) (Z.of_nat i) ->
  structuralInvariant' {| Fragments := [setEnd f (Z.of_nat i + 1)] |}.
Proof.
  intros Ho Hc.
  exists (FragRun f), (Start (FragPosition f)), (FragRun f), (Z.of_nat i).
  split; [reflexivity|]. split.
  { rewrite closingOf_single. simpl. do 2 f_equal. lia. }
  split; [exact Ho|]. split; [exact Hc|]. split.
  - simpl. tauto.
  - simpl. lia.
Qed.

Lemma structuralInvariant_cross (f : PlaceholderFragment) (run : RunPtr)
    (i : nat) :
  onOpenDelimiter' f ->
  delimiterAt' DClose run (Z.of_nat i) ->
  run <> FragRun f ->
  structuralInvariant'
    {| Fragments := crossRunFragments heap docBytes f run i |}.
Proof.
  intros Ho Hc Hne.
  exists (FragRun f), (Start (FragPosition f)), run, (Z.of_nat i).
  split; [reflexivity|]. split; [apply closingOf_cross|].
  split; [exact Ho|]. split; [exact Hc|]. split.
  - simpl Fragments. rewrite crossRunFragments_snoc.
    rewrite length_app. simpl. split; [lia | congruence].
  - intros _. simpl Fragments.
    exists (setEnd f (len (text' (FragRun f)))),
           (NewPlaceholderFragment
              {| Start := 0; End_ := Z.of_nat i + 1 |} run).
    split; [reflexivity|]. split; [reflexivity|].
    split; [apply wholeRun_positions|]. split; reflexivity.
Qed.

Lemma shapesKept_scanRun (run : RunPtr) (st : ScanState) :
  shapesKept' st -> shapesKept' (scanRun cfg heap docBytes st run).
Proof.
  apply (scanRun_invariant cfg heap docBytes run shapesKept' shapesKept'
           (fun _ s => shapesKept' (fst s))).
  - intros st0 H. exact H.
  - intros pre c post [st0 flag] Hfull [Hst Hf]. simpl in Hst, Hf.
    apply scanRune_cases; intros; simpl; unfold shapesKept'; simpl.
    + split; assumption.
    + split; [|assumption]. apply Forall_app. split; [assumption|].
      constructor; [|constructor].
      apply (delimiterAt_scanned DOpen run pre post c); assumption.
    + split; [constructor | assumption].
    + match goal with H : stack st0 = _ |- _ => rewrite H in Hst end.
      apply Forall_app in Hst. destruct Hst as [Hst Htop].
      inversion Htop; subst. split; [assumption|].
      apply Forall_app. split; [assumption|]. constructor; [|constructor].
      apply structuralInvariant_same; [assumption|].
      apply (delimiterAt_scanned DClose _ pre post c); assumption.
    + match goal with H : stack st0 = _ |- _ => rewrite H in Hst end.
      apply Forall_app in Hst. destruct Hst as [Hst Htop].
      inversion Htop; subst. split; [assumption|].
      apply Forall_app. split; [assumption|]. constructor; [|constructor].
      apply structuralInvariant_cross; try assumption.
      apply (delimiterAt_scanned DClose _ pre post c); assumption.
  - intros st0 H. exact H.
  - intros st0 [Hst Hf]. split; simpl; [|assumption].
    apply Forall_forall. intros f Hin. apply in_map_iff in Hin.
    destruct Hin as (g & <- & Hg).
    rewrite Forall_forall in Hst. exact (Hst g Hg).
Qed.

Lemma shapesKept_scanRuns (runs : list RunPtr) :
  shapesKept' (scanRuns cfg heap docBytes runs).
Proof.
  apply (scanRuns_invariant cfg heap docBytes (fun _ st => shapesKept' st)).
  - split; constructor.
  - intros done run st H. apply shapesKept_scanRun. exact H.
Qed.

End Structure.

(** C3. Every placeholder returned by [ParsePlaceholders] satisfies the
    structural invariant: it has exactly one fragment if and only if its
    open and its close delimiter were found in the same run; when it has
    more than one fragment, the first fragment ends at the full length of
    the text of its run, there is one middle fragment per recorded span
    run, each with position [{0, length of the text of that run}], and the
    last fragment has position [{0, i + 1}], [i] being the index of the
    close delimiter in the closing run. *)
Theorem returned_placeholders_well_shaped (cfg : Delimiters) (heap : Store)
    (docBytes : list byte) (runs : DocumentRuns) :
  Forall (structuralInvariant cfg heap docBytes)
         (placeholders (ParsePlaceholders cfg heap docBytes runs)).
Proof.
  exact (proj2 (shapesKept_scanRuns cfg heap docBytes (WithText heap runs))).
Qed.

(** ** Span runs hold no delimiter (C9) *)

Section SpanRuns.

Variable cfg : Delimiters.
Variable heap : Store.
Variable docBytes : list byte.

Local Abbreviation spansKept' := (spansKept cfg heap docBytes).
Local Abbreviation flagDown' := (flagDown cfg).

Local Abbreviation text' := (runText heap docBytes).
Local Abbreviation holdsNoDelimiter' := (holdsNoDelimiter cfg heap docBytes).
Local Abbreviation spansDelimiterFree' :=
  (spansDelimiterFree cfg heap docBytes).

Lemma delimiterFree_holdsNoDelimiter (run : RunPtr) :
  delimiterFree cfg heap docBytes run -> holdsNoDelimiter' run.
Proof.
  intros Hfree. split; [exact Hfree|].
  intros k i (_ & c & Hnth & Hk).
  unfold delimiterFree in Hfree. rewrite Forall_forall in Hfree.
  apply nth_error_In in Hnth. rewrite (Hfree c Hnth) in Hk. discriminate.
Qed.

Lemma spansDelimiterFree_new (pos : Position) (run : RunPtr) :
  spansDelimiterFree' (NewPlaceholderFragment pos run).
Proof. constructor. Qed.

Lemma spansDelimiterFree_cross (f : PlaceholderFragment) (run : RunPtr)
    (i : nat) :
  spansDelimiterFree' f ->
  Forall spansDelimiterFree' (crossRunFragments heap docBytes f run i).
Proof.
  intros Hf. rewrite crossRunFragments_snoc.
  apply Forall_app. split.
  - constructor; [exact Hf|].
    apply Forall_forall. intros g Hin. apply in_map_iff in Hin.
    destruct Hin as (srun & <- & _). constructor.
  - constructor; [constructor | constructor].
Qed.

Lemma spansKept_scanRun (run : RunPtr) (st : ScanState) :
  spansKept' st -> spansKept' (scanRun cfg heap docBytes st run).
Proof.
  apply (scanRun_invariant cfg heap docBytes run spansKept' spansKept'
           (fun pre s => spansKept' (fst s) /\ flagDown' pre s)).
  - intros st0 H. split; [exact H|]. intros _. left. constructor.
  - intros pre c post [st0 flag] Hfull [[Hst Hf] Hflag].
    simpl in Hst, Hf. unfold flagDown' in Hflag. simpl in Hflag.
    apply scanRune_cases; intros; unfold spansKept', flagDown'; simpl.
    + split; [split; assumption|]. intros Hfl.
      destruct (Hflag Hfl) as [Hpre|Hemp]; [left | right; assumption].
      apply Forall_app. split; [assumption|]. constructor; [assumption|].
      constructor.
    + split; [|discriminate]. split; [|assumption].
      apply Forall_app. split; [assumption|].
      constructor; [apply spansDelimiterFree_new | constructor].
    + split; [split; [constructor | assumption]|]. intros _. right.
      reflexivity.
    + match goal with H : stack st0 = _ |- _ => rewrite H in Hst end.
      apply Forall_app in Hst. destruct Hst as [Hst Htop].
      inversion Htop; subst. split; [|discriminate]. split; [assumption|].
      apply Forall_app. split; [assumption|]. constructor; [|constructor].
      constructor; [assumption | constructor].
    + match goal with H : stack st0 = _ |- _ => rewrite H in Hst end.
      apply Forall_app in Hst. destruct Hst as [Hst Htop].
      inversion Htop; subst. split; [|discriminate]. split; [assumption|].
      apply Forall_app. split; [assumption|]. constructor; [|constructor].
      apply spansDelimiterFree_cross. assumption.
  - intros st0 [H _]. exact H.
  - intros st0 [[Hst Hf] Hflag]. simpl in Hst, Hf.
    split; simpl; [|assumption].
    destruct (Hflag eq_refl) as [Hfree|Hemp]; simpl in *.
    + apply Forall_forall. intros f Hin. apply in_map_iff in Hin.
      destruct Hin as (g & <- & Hg).
      rewrite Forall_forall in Hst. specialize (Hst g Hg).
      unfold spansDelimiterFree, addSpanRun. simpl.
      apply Forall_app. split; [exact Hst|].
      constructor; [|constructor].
      apply delimiterFree_holdsNoDelimiter. exact Hfree.
    + rewrite Hemp. constructor.
Qed.

Lemma spansKept_scanRuns (runs : list RunPtr) :
  spansKept' (scanRuns cfg heap docBytes runs).
Proof.
  apply (scanRuns_invariant cfg heap docBytes (fun _ st => spansKept' st)).
  - split; constructor.
  - intros done run st H. apply spansKept_scanRun. exact H.
Qed.

End SpanRuns.

(** C9. Span runs are always free of delimiters: every run recorded in the
    [SpanRun] list of a fragment, be the fragment still on the stack when
    the scan ends or part of a returned placeholder, has a text without any
    occurrence of the open or the close delimiter. So a run in which a close
    delimiter was met, matched or not, is never recorded as a span run. *)
Theorem span_runs_hold_no_delimiter (cfg : Delimiters) (heap : Store)
    (docBytes : list byte) (runs : DocumentRuns) :
  Forall (spansDelimiterFree cfg heap docBytes)
         (stack (scanRuns cfg heap docBytes (WithText heap runs))) /\
  Forall (fun p => Forall (spansDelimiterFree cfg heap docBytes) (Fragments p))
         (placeholders (ParsePlaceholders cfg heap docBytes runs)).
Proof.
  exact (spansKept_scanRuns cfg heap docBytes (WithText heap runs)).
Qed.

(** ** Bounds of the returned fragments (C10) *)

(** Decoding yields at most one rune per byte. *)
Lemma length_decodeFrom (s : list byte) :
  forall skip, (List.length (decodeFrom skip s) <= List.length s)%nat.
Proof.
  induction s as [|b t IH]; intros skip; cbn [decodeFrom List.length];
    [lia|].
  destruct skip as [|k].
  - destruct (DecodeRune (b :: t)) as [r n]. cbn [List.length].
    specialize (IH (n - 1)%nat). lia.
  - specialize (IH k). lia.
Qed.

Lemma length_runes (s : list byte) :
  (List.length (runes s) <= List.length s)%nat.
Proof. apply length_decodeFrom. Qed.

Section FragmentBounds.

Variable cfg : Delimiters.
Variable heap : Store.
Variable docBytes : list byte.

Local Abbreviation startsInside' := (startsInside heap docBytes).
Local Abbreviation boundsKept' := (boundsKept heap docBytes).

Local Abbreviation text' := (runText heap docBytes).
Local Abbreviation fragmentBounds' := (fragmentBounds heap docBytes).

Lemma fragmentBounds_same (f : PlaceholderFragment) (i : nat) :
  0 <= Start (FragPosition f) ->
  Start (FragPosition f) < Z.of_nat i ->
  fragmentBounds' {| Fragments := [setEnd f (Z.of_nat i + 1)] |}.
Proof.
  intros H0 Hlt. split.
  - constructor; [simpl; lia | constructor].
  - left. exists (setEnd f (Z.of_nat i + 1)). split; [reflexivity|].
    split; simpl; lia.
Qed.

Lemma coversRun_wholeRun (l : list RunPtr) :
  Forall (coversRun heap docBytes)
         (map (fun srun =>
                 NewPlaceholderFragment
                   {| Start := 0; End_ := len (text' srun) |} srun) l).
Proof.
  apply Forall_forall. intros g Hin. apply in_map_iff in Hin.
  destruct Hin as (srun & <- & _). split; [reflexivity|].
  split; [reflexivity|]. simpl. unfold len.
  destruct (text' srun) as [|b t]; simpl; split; intros H;
    try reflexivity; try discriminate; lia.
Qed.

Lemma fragmentBounds_cross (f : PlaceholderFragment) (run : RunPtr)
    (i : nat) :
  startsInside' f ->
  fragmentBounds' {| Fragments := crossRunFragments heap docBytes f run i |}.
Proof.
  intros [H0 Hlt].
  assert (Hlen : Start (FragPosition f) < len (text' (FragRun f))).
  { pose proof (length_runes (text' (FragRun f))) as Hr.
    unfold len in *. lia. }
  split.
  - simpl Fragments. rewrite crossRunFragments_snoc.
    apply Forall_app. split.
    + constructor; [simpl; unfold len in *; lia|].
      apply Forall_forall. intros g Hin. apply in_map_iff in Hin.
      destruct Hin as (srun & <- & _). simpl. unfold len. lia.
    + constructor; [simpl; lia | constructor].
  - right. simpl Fragments.
    exists (setEnd f (len (text' (FragRun f)))),
           (map (fun srun =>
                   NewPlaceholderFragment
                     {| Start := 0; End_ := len (text' srun) |} srun)
                (SpanRun f)),
           (NewPlaceholderFragment
              {| Start := 0; End_ := Z.of_nat i + 1 |} run).
    split; [reflexivity|]. split; [split; simpl; lia|].
    split; [apply coversRun_wholeRun|]. split; simpl; lia.
Qed.

Lemma boundsKept_scanRun (done : list RunPtr) (run : RunPtr)
    (st : ScanState) :
  ~ In run done ->
  boundsKept' done st ->
  boundsKept' (done ++ [run]) (scanRun cfg heap docBytes st run).
Proof.
  intros Hfresh.
  apply (scanRun_invariant cfg heap docBytes run
           (boundsKept' done) (boundsKept' (done ++ [run]))
           (fun pre s =>
              Forall (fun f => startsInside' f /\ pushedBefore done run pre f)
                     (stack (fst s)) /\
              Forall fragmentBounds' (found (fst s)))).
  - intros st0 [Hst Hf]. split; [|exact Hf]. simpl.
    eapply Forall_impl; [|exact Hst]. intros f [Hin Hd].
    split; [exact Hin | left; exact Hd].
  - intros pre c post [st0 flag] Hfull [Hst Hf]. simpl in Hst, Hf.
    assert (Hgrow : forall l,
              Forall (fun f => startsInside' f /\ pushedBefore done run pre f) l ->
              Forall (fun f => startsInside' f
                               /\ pushedBefore done run (pre ++ [c]) f) l).
    { intros l Hl. eapply Forall_impl; [|exact Hl].
      intros f [Hin [Hd|[Hr Hlt]]]; (split; [exact Hin|]);
        [left; exact Hd | right; split; [exact Hr|]].
      unfold len in *. rewrite length_app. simpl. lia. }
    apply scanRune_cases; intros; simpl.
    + split; [apply Hgrow; assumption | assumption].
    + split; [|assumption]. apply Forall_app. split.
      * apply Hgrow; assumption.
      * constructor; [|constructor]. simpl. split.
        -- split; simpl; [lia|]. rewrite Hfull. unfold len.
           rewrite length_app. simpl. lia.
        -- right. split; [reflexivity|]. simpl. unfold len.
           rewrite length_app. simpl. lia.
    + split; [constructor | assumption].
    + match goal with H : stack st0 = _ |- _ => rewrite H in Hst end.
      apply Forall_app in Hst. destruct Hst as [Hst Htop].
      inversion Htop as [|? ? [Hin Hpushed] _]; subst.
      split; [apply Hgrow; assumption|].
      apply Forall_app. split; [assumption|]. constructor; [|constructor].
      destruct Hpushed as [Hd|[_ Hlt]]; [contradiction|].
      destruct Hin as [Hpos _]. apply fragmentBounds_same;
        [exact Hpos | unfold len in Hlt; exact Hlt].
    + match goal with H : stack st0 = _ |- _ => rewrite H in Hst end.
      apply Forall_app in Hst. destruct Hst as [Hst Htop].
      inversion Htop as [|? ? [Hin Hpushed] _]; subst.
      split; [apply Hgrow; assumption|].
      apply Forall_app. split; [assumption|]. constructor; [|constructor].
      apply fragmentBounds_cross. exact Hin.
  - intros st0 [Hst Hf]. simpl in Hst, Hf. split; [|exact Hf].
    eapply Forall_impl; [|exact Hst]. intros f [Hin [Hd|[Hr _]]];
      (split; [exact Hin|]); apply in_or_app;
      [left; exact Hd | right; left; symmetry; exact Hr].
  - intros st0 [Hst Hf]. simpl in Hst, Hf. split; simpl; [|exact Hf].
    apply Forall_forall. intros f Hin. apply in_map_iff in Hin.
    destruct Hin as (g & <- & Hg).
    rewrite Forall_forall in Hst. destruct (Hst g Hg) as [Hin [Hd|[Hr _]]];
      (split; [exact Hin|]); simpl; apply in_or_app;
      [left; exact Hd | right; left; symmetry; exact Hr].
Qed.

Lemma boundsKept_scanRuns (runs : list RunPtr) :
  NoDup runs -> boundsKept' runs (scanRuns cfg heap docBytes runs).
Proof.
  apply (scanRuns_invariant cfg heap docBytes
           (fun done st => NoDup done -> boundsKept' done st)).
  - intros _. split; constructor.
  - intros done run st IH Hnd.
    apply NoDup_remove in Hnd. rewrite app_nil_r in Hnd.
    destruct Hnd as [Hnd Hfresh].
    apply boundsKept_scanRun; [exact Hfresh | exact (IH Hnd)].
Qed.

Local Abbreviation boundsOfAnyScan' := (boundsOfAnyScan heap docBytes).
Local Abbreviation boundsOfScan' := (boundsOfScan heap docBytes).

Lemma boundsOfAnyScan_of_fragmentBounds (p : Placeholder) :
  fragmentBounds' p -> boundsOfAnyScan' p.
Proof.
  intros [Hend Hshape]. split.
  - rewrite Forall_forall in *. intros f Hin. split; [exact (Hend f Hin)|].
    destruct Hshape as [(g & Hg & Hp)|(first & mids & last & Hg & Hf & Hm & Hl)];
      rewrite Hg in Hin.
    + destruct Hin as [<-|[]]. exact (proj1 Hp).
    + destruct Hin as [<-|Hin]; [exact (proj1 Hf)|].
      apply in_app_or in Hin. destruct Hin as [Hin|[<-|[]]].
      * rewrite Forall_forall in Hm. destruct (Hm f Hin) as [H0 _]. lia.
      * exact (proj1 Hl).
  - destruct Hshape as [(g & Hg & _)|Hmulti];
      [left; exists g; exact Hg | right; exact Hmulti].
Qed.

Lemma visitedOnce_app (done : list RunPtr) (run : RunPtr) (p : Placeholder) :
  visitedOnce (done ++ [run]) p -> visitedOnce done p.
Proof.
  intros H f Hf. specialize (H f Hf). rewrite count_occ_app in H.
  eapply Nat.le_trans; [apply Nat.le_add_r | exact H].
Qed.

Lemma visitedOnce_same (done : list RunPtr) (f : PlaceholderFragment) :
  visitedOnce (done ++ [FragRun f]) {| Fragments := [f] |} ->
  ~ In (FragRun f) done.
Proof.
  intros H. specialize (H f eq_refl). rewrite count_occ_app in H.
  cbn [count_occ] in H.
  destruct (Nat.eq_dec (FragRun f) (FragRun f)) as [_|Hne];
    [|exfalso; apply Hne; reflexivity].
  unfold RunPtr in *.
  destruct (count_occ Nat.eq_dec done (FragRun f)) eqn:E; [|lia].
  apply (count_occ_not_In Nat.eq_dec). exact E.
Qed.

Lemma boundsOfScan_scanRun (done : list RunPtr) (run : RunPtr)
    (st : ScanState) :
  boundsOfScan' done st ->
  boundsOfScan' (done ++ [run]) (scanRun cfg heap docBytes st run).
Proof.
  apply (scanRun_invariant cfg heap docBytes run
           (boundsOfScan' done) (boundsOfScan' (done ++ [run]))
           (fun pre s =>
              Forall (fun f => startsInside' f /\ pushedBefore done run pre f)
                     (stack (fst s)) /\
              Forall (fun p => boundsOfAnyScan' p /\
                               (visitedOnce (done ++ [run]) p ->
                                fragmentBounds' p))
                     (found (fst s)))).
  - intros st0 [Hst Hf]. split; simpl.
    + eapply Forall_impl; [|exact Hst]. intros f [Hin Hd].
      split; [exact Hin | left; exact Hd].
    + eapply Forall_impl; [|exact Hf]. intros p [Hany Hone].
      split; [exact Hany|]. intros Hv. apply Hone.
      exact (visitedOnce_app done run p Hv).
  - intros pre c post [st0 flag] Hfull [Hst Hf]. simpl in Hst, Hf.
    assert (Hgrow : forall l,
              Forall (fun f => startsInside' f /\ pushedBefore done run pre f) l ->
              Forall (fun f => startsInside' f
                               /\ pushedBefore done run (pre ++ [c]) f) l).
    { intros l Hl. eapply Forall_impl; [|exact Hl].
      intros f [Hin [Hd|[Hr Hlt]]]; (split; [exact Hin|]);
        [left; exact Hd | right; split; [exact Hr|]].
      unfold len in *. rewrite length_app. simpl. lia. }
    apply scanRune_cases; intros; simpl.
    + split; [apply Hgrow; assumption | assumption].
    + split; [|assumption]. apply Forall_app. split.
      * apply Hgrow; assumption.
      * constructor; [|constructor]. simpl. split.
        -- split; simpl; [lia|]. rewrite Hfull. unfold len.
           rewrite length_app. simpl. lia.
        -- right. split; [reflexivity|]. simpl. unfold len.
           rewrite length_app. simpl. lia.
    + split; [constructor | assumption].
    + match goal with H : stack st0 = _ |- _ => rewrite H in Hst end.
      apply Forall_app in Hst. destruct Hst as [Hst Htop].
      inversion Htop as [|? ? [Hin Hpushed] _]; subst.
      split; [apply Hgrow; assumption|].
      apply Forall_app. split; [assumption|]. constructor; [|constructor].
      destruct Hin as [Hpos Hlen]. split.
      * split; [|left; eexists; reflexivity].
        constructor; [|constructor]. simpl. lia.
      * intros Hv.
        pose proof (visitedOnce_same done (setEnd fragment
                                             (Z.of_nat (List.length pre) + 1)) Hv)
          as Hfresh.
        simpl in Hfresh.
        destruct Hpushed as [Hd|[_ Hlt]]; [contradiction|].
        apply fragmentBounds_same;
          [exact Hpos | unfold len in Hlt; exact Hlt].
    + match goal with H : stack st0 = _ |- _ => rewrite H in Hst end.
      apply Forall_app in Hst. destruct Hst as [Hst Htop].
      inversion Htop as [|? ? [Hin Hpushed] _]; subst.
      split; [apply Hgrow; assumption|].
      apply Forall_app. split; [assumption|]. constructor; [|constructor].
      pose proof (fragmentBounds_cross fragment run (List.length pre) Hin)
        as Hb.
      split; [apply boundsOfAnyScan_of_fragmentBounds; exact Hb|].
      intros _. exact Hb.
  - intros st0 [Hst Hf]. simpl in Hst, Hf. split; [|exact Hf].
    eapply Forall_impl; [|exact Hst]. intros f [Hin [Hd|[Hr _]]];
      (split; [exact Hin|]); apply in_or_app;
      [left; exact Hd | right; left; symmetry; exact Hr].
  - intros st0 [Hst Hf]. simpl in Hst, Hf. split; simpl; [|exact Hf].
    apply Forall_forall. intros f Hin. apply in_map_iff in Hin.
    destruct Hin as (g & <- & Hg).
    rewrite Forall_forall in Hst. destruct (Hst g Hg) as [Hin [Hd|[Hr _]]];
      (split; [exact Hin|]); simpl; apply in_or_app;
      [left; exact Hd | right; left; symmetry; exact Hr].
Qed.

Lemma boundsOfScan_scanRuns (runs : list RunPtr) :
  boundsOfScan' runs (scanRuns cfg heap docBytes runs).
Proof.
  apply (scanRuns_invariant cfg heap docBytes boundsOfScan').
  - split; constructor.
  - intros done run st IH. apply boundsOfScan_scanRun. exact IH.
Qed.

End FragmentBounds.

(** C10, as amended. For every run sequence, no unfinished fragment
    escapes: no fragment of a returned placeholder has the end [-1] given
    at its creation, and none has a negative start; in a placeholder of
    several fragments the first and the last satisfy [0 <= Start < End]
    and a middle fragment has [Start = 0] and [End] equal to the length of
    the text of its run, so that [Start = End] only when that text is
    empty. The only fragment of a placeholder satisfies
    [0 <= Start < End] as well when its run occurs at most once in the run
    sequence. *)
Theorem returned_fragments_bounded (cfg : Delimiters) (heap : Store)
    (docBytes : list byte) (runs : DocumentRuns) :
  Forall (fun p =>
            boundsOfAnyScan heap docBytes p /\
            (visitedOnce (WithText heap runs) p ->
             fragmentBounds heap docBytes p))
         (placeholders (ParsePlaceholders cfg heap docBytes runs)).
Proof.
  exact (proj2 (boundsOfScan_scanRuns cfg heap docBytes (WithText heap runs))).
Qed.

(** C10 as stated fails on a run sequence that holds the same run twice:
    the open delimiter left by the first scan of [}a{] is closed by the
    second scan at index 0 and taken for a delimiter of the same run, which
    gives the position [{2, 1}]. *)
Lemma repeated_run_inverts_fragment :
  placeholders (ParsePlaceholders defaultDelimiters twiceHeap twiceDoc twiceRuns)
  = [{| Fragments :=
          [{| FragPosition := {| Start := 2; End_ := 1 |};
              FragRun := 0%nat; SpanRun := [] |}] |}]
  /\ ~ Forall (fragmentBounds twiceHeap twiceDoc)
         (placeholders
            (ParsePlaceholders defaultDelimiters twiceHeap twiceDoc twiceRuns)).
Proof.
  assert (E : placeholders
                (ParsePlaceholders defaultDelimiters twiceHeap twiceDoc twiceRuns)
              = [{| Fragments :=
                      [{| FragPosition := {| Start := 2; End_ := 1 |};
                          FragRun := 0%nat; SpanRun := [] |}] |}])
    by (vm_compute; reflexivity).
  split; [exact E|]. rewrite E. intros H.
  inversion H as [|? ? [_ Hb] _]; subst. simpl in Hb.
  destruct Hb as [(f & Hf & Hp)|(first & mids & last & Hf & _)].
  - inversion Hf; subst. destruct Hp as [_ Hp]. simpl in Hp. lia.
  - inversion Hf as [[H1 H2]]. destruct mids; discriminate.
Qed.

(** ** Witnesses on the sample document *)

Lemma nested_pairs_all_returned_witness :
  nested 2 (delimiterOccurrences defaultDelimiters sampleHeap sampleDoc
                                 sampleRuns) /\
  let ps := placeholders
              (ParsePlaceholders defaultDelimiters sampleHeap sampleDoc
                                 sampleRuns) in
  List.length ps = 2%nat /\
  map closingOf ps =
  map (fun t => Some (place t))
      (filter isClose
         (delimiterOccurrences defaultDelimiters sampleHeap sampleDoc
                               sampleRuns)).
Proof.
  assert (Hn : nested 2 (delimiterOccurrences defaultDelimiters sampleHeap
                           sampleDoc sampleRuns)).
  { vm_compute.
    apply (nested_app 1 1
             [{| tkind := DOpen; trun := 0%nat; tindex := 3%nat |};
              {| tkind := DClose; trun := 2%nat; tindex := 0%nat |}]
             [{| tkind := DOpen; trun := 2%nat; tindex := 4%nat |};
              {| tkind := DClose; trun := 2%nat; tindex := 6%nat |}]);
      apply (nested_pair _ _ 0%nat []); try reflexivity; apply nested_nil. }
  split; [exact Hn|].
  exact (nested_pairs_all_returned defaultDelimiters sampleHeap sampleDoc
           sampleRuns 2 Hn).
Defined.

Lemma unmatched_delimiters_logged_once_witness :
  scanRune defaultDelimiters twiceHeap twiceDoc 0%nat 0%nat 125
           (initialState, false)
  = ({| stack := []; found := [];
        logged := [UnmatchedClose 7 (bytes "}a{") 0] |}, false)
  /\ diagnostics (ParsePlaceholders defaultDelimiters twiceHeap twiceDoc [0%nat])
     = [UnmatchedClose 7 (bytes "}a{") 0; UnmatchedOpen 7 (bytes "}a{") 2]
  /\ placeholders
       (ParsePlaceholders defaultDelimiters twiceHeap twiceDoc [0%nat]) = [].
Proof.
  destruct (unmatched_delimiters_logged_once defaultDelimiters twiceHeap
              twiceDoc [0%nat]) as (Hstep & Hfound & _ & _ & Hlog).
  split; [|split].
  - rewrite (Hstep 0%nat 0%nat 125 initialState false eq_refl eq_refl).
    vm_compute. reflexivity.
  - rewrite Hlog. vm_compute. reflexivity.
  - rewrite Hfound. vm_compute. reflexivity.
Defined.

Lemma returned_fragments_bounded_witness :
  Forall (visitedOnce (WithText sampleHeap sampleRuns))
         (placeholders
            (ParsePlaceholders defaultDelimiters sampleHeap sampleDoc
                               sampleRuns)) /\
  Forall (fragmentBounds sampleHeap sampleDoc)
         (placeholders
            (ParsePlaceholders defaultDelimiters sampleHeap sampleDoc
                               sampleRuns)).
Proof.
  assert (Hnd : NoDup (WithText sampleHeap sampleRuns)).
  { vm_compute. repeat constructor; simpl; intuition discriminate. }
  assert (Hone : forall p, visitedOnce (WithText sampleHeap sampleRuns) p).
  { intros p f _. apply (proj1 (NoDup_count_occ Nat.eq_dec _) Hnd). }
  split; [apply Forall_forall; intros p _; apply Hone|].
  pose proof (returned_fragments_bounded defaultDelimiters sampleHeap
                sampleDoc sampleRuns) as H.
  eapply Forall_impl; [|exact H].
  intros p [_ Hp]. apply Hp. apply Hone.
Defined.

(** ** Reading the text of a run back from the document *)

Lemma GetText_inDocument (r : Run) (docBytes : list byte) :
  inDocument r docBytes ->
  GetText r docBytes =
  subBytes docBytes (End_ (OpenTag (Text r))) (Start (CloseTag (Text r)))
  /\ len (GetText r docBytes)
     = Start (CloseTag (Text r)) - End_ (OpenTag (Text r)).
Proof.
  intros (H0 & H1 & H2). unfold GetText, subBytes.
  assert (E : (0 <=? End_ (OpenTag (Text r)))
              && (End_ (OpenTag (Text r)) <=? Start (CloseTag (Text r)))
              && (Start (CloseTag (Text r)) <=? len docBytes) = true).
  { rewrite !andb_true_iff, !Z.leb_le. auto. }
  rewrite E. split; [reflexivity|].
  unfold len in *. rewrite length_firstn, length_skipn. lia.
Qed.

Lemma GetText_nonempty (r : Run) (docBytes : list byte) :
  GetText r docBytes <> [] -> inDocument r docBytes.
Proof.
  unfold GetText, inDocument. intros H.
  destruct ((0 <=? End_ (OpenTag (Text r)))
            && (End_ (OpenTag (Text r)) <=? Start (CloseTag (Text r)))
            && (Start (CloseTag (Text r)) <=? len docBytes)) eqn:E;
    [|contradiction].
  rewrite !andb_true_iff, !Z.leb_le in E. tauto.
Qed.

(** A slice of the document inside the text of a run is the same slice of
    the text. *)
Lemma sliceBytes_GetText (r : Run) (docBytes : list byte) (lo hi : Z) :
  inDocument r docBytes ->
  0 <= lo -> lo <= hi -> hi <= len (GetText r docBytes) ->
  sliceBytes docBytes (End_ (OpenTag (Text r)) + lo)
                      (End_ (OpenTag (Text r)) + hi)
  = Some (subBytes (GetText r docBytes) lo hi).
Proof.
  intros Hin Hlo Hle Hhi.
  destruct (GetText_inDocument r docBytes Hin) as [Etext Elen].
  destruct Hin as (H0 & H1 & H2). rewrite Elen in Hhi.
  unfold sliceBytes.
  assert (E : (0 <=? End_ (OpenTag (Text r)) + lo)
              && (End_ (OpenTag (Text r)) + lo <=? End_ (OpenTag (Text r)) + hi)
              && (End_ (OpenTag (Text r)) + hi <=? len docBytes) = true).
  { rewrite !andb_true_iff, !Z.leb_le. lia. }
  rewrite E. f_equal. rewrite Etext. unfold subBytes.
  rewrite skipn_firstn_comm, skipn_skipn, firstn_firstn.
  f_equal; [|f_equal]; lia.
Qed.

(** ** Nesting within one run (C4) *)

(** C4. A single run whose text is [foo{bar{bc}d}baz], under the default
    delimiters, yields exactly two placeholders, the inner one first: their
    texts are [{bc}] and [{bar{bc}d}], the text of the outer one holding the
    delimiters of the inner one as they are. *)
Theorem nesting_within_one_run (heap : Store) (docBytes : list byte)
    (run : RunPtr) :
  HasText (heap run) = true ->
  runText heap docBytes run = bytes "foo{bar{bc}d}baz" ->
  exists inner outer,
    placeholders (ParsePlaceholders defaultDelimiters heap docBytes [run])
      = [inner; outer] /\
    Placeholder_Text heap docBytes inner = Some (bytes "{bc}") /\
    Placeholder_Text heap docBytes outer = Some (bytes "{bar{bc}d}").
Proof.
  intros Hhas Htext.
  assert (Hin : inDocument (heap run) docBytes).
  { apply GetText_nonempty. unfold runText in Htext. rewrite Htext.
    discriminate. }
  assert (Hslice : forall lo hi, 0 <= lo -> lo <= hi -> hi <= 16 ->
            sliceBytes docBytes (End_ (OpenTag (Text (heap run))) + lo)
                                (End_ (OpenTag (Text (heap run))) + hi)
            = Some (subBytes (bytes "foo{bar{bc}d}baz") lo hi)).
  { intros lo hi H0 H1 H2. unfold runText in Htext. rewrite <- Htext.
    apply sliceBytes_GetText; try assumption. rewrite Htext. exact H2. }
  exists {| Fragments :=
              [{| FragPosition := {| Start := 7; End_ := 11 |};
                  FragRun := run; SpanRun := [] |}] |},
         {| Fragments :=
              [{| FragPosition := {| Start := 3; End_ := 13 |};
                  FragRun := run; SpanRun := [] |}] |}.
  split; [|split].
  - unfold ParsePlaceholders, WithText, scanRuns. simpl filter.
    rewrite Hhas. simpl fold_left. unfold scanRun. rewrite Htext.
    replace (runes (bytes "foo{bar{bc}d}baz"))
      with [102; 111; 111; 123; 98; 97; 114; 123; 98; 99; 125; 100; 125;
            98; 97; 122] by (vm_compute; reflexivity).
    cbn. rewrite !Nat.eqb_refl. cbn. rewrite ?Nat.eqb_refl. reflexivity.
  - unfold Placeholder_Text. simpl.
    rewrite Hslice by lia. reflexivity.
  - unfold Placeholder_Text. simpl.
    rewrite Hslice by lia. reflexivity.
Qed.

Lemma nesting_within_one_run_witness :
  HasText (nestingHeap 0%nat) = true /\
  runText nestingHeap nestingDoc 0%nat = bytes "foo{bar{bc}d}baz" /\
  exists inner outer,
    placeholders
      (ParsePlaceholders defaultDelimiters nestingHeap nestingDoc [0%nat])
      = [inner; outer] /\
    Placeholder_Text nestingHeap nestingDoc inner = Some (bytes "{bc}") /\
    Placeholder_Text nestingHeap nestingDoc outer = Some (bytes "{bar{bc}d}").
Proof.
  split; [reflexivity|]. split; [vm_compute; reflexivity|].
  apply (nesting_within_one_run nestingHeap nestingDoc 0%nat).
  - reflexivity.
  - vm_compute. reflexivity.
Defined.

(** ** Reconstruction across runs (C2) *)

Section Reconstruction.

Variable cfg : Delimiters.
Variable heap : Store.
Variable docBytes : list byte.

Local Abbreviation text' := (runText heap docBytes).

Lemma scanRunes_plain (run : RunPtr) (runRune : list rune) :
  Forall (fun c => classify cfg c = None) runRune ->
  forall i s, scanRunes cfg heap docBytes run i runRune s = s.
Proof.
  induction 1 as [|c rest Hc _ IH]; intros i s; [reflexivity|].
  cbn [scanRunes]. rewrite (scanRune_plain cfg heap docBytes run i c s Hc).
  apply IH.
Qed.

(** A run without delimiter is appended to the span runs of every fragment
    that is on the stack when its scan ends, and changes nothing else. *)
Lemma span_run_absorbed (run : RunPtr) (st : ScanState) :
  delimiterFree cfg heap docBytes run ->
  scanRun cfg heap docBytes st run =
  {| stack := map (addSpanRun run) (stack st);
     found := found st;
     logged := logged st |}.
Proof.
  intros Hfree. unfold scanRun. rewrite scanRunes_plain by exact Hfree.
  reflexivity.
Qed.

Lemma textLoop_app (l1 l2 : list PlaceholderFragment) (str : list byte) :
  textLoop heap docBytes (l1 ++ l2) str =
  match textLoop heap docBytes l1 str with
  | None => None
  | Some str' => textLoop heap docBytes l2 str'
  end.
Proof.
  revert str. induction l1 as [|f l1 IH]; intros str; [reflexivity|].
  cbn [app textLoop].
  destruct (sliceBytes docBytes _ _); [apply IH | reflexivity].
Qed.

Lemma subBytes_all (t : list byte) : subBytes t 0 (len t) = t.
Proof.
  unfold subBytes, len. simpl. rewrite Z.sub_0_r, Nat2Z.id.
  apply firstn_all.
Qed.

Lemma textLoop_wholeRuns (l : list RunPtr) (str : list byte) :
  Forall (fun srun => inDocument (heap srun) docBytes) l ->
  textLoop heap docBytes
    (map (fun srun =>
            NewPlaceholderFragment
              {| Start := 0; End_ := len (text' srun) |} srun) l) str
  = Some (str ++ List.concat (map text' l)).
Proof.
  intros Hl. revert str.
  induction Hl as [|srun l Hin _ IH]; intros str; simpl.
  - rewrite app_nil_r. reflexivity.
  - unfold runText at 1.
    rewrite (sliceBytes_GetText (heap srun) docBytes 0
               (len (GetText (heap srun) docBytes)) Hin)
      by (unfold len; lia).
    rewrite subBytes_all, IH, <- app_assoc. reflexivity.
Qed.

End Reconstruction.

(** In a text of bytes below [RuneSelf] the index of a rune is the offset
    of its byte. *)
Lemma runes_ascii (s : list byte) :
  Forall (fun b => byteZ b < 128) s -> runes s = map byteZ s.
Proof.
  unfold runes. induction 1 as [|b t Hb _ IH]; [reflexivity|].
  cbn [decodeFrom]. rewrite DecodeRune_ascii by exact Hb.
  cbn [Nat.sub map]. rewrite IH. reflexivity.
Qed.

Section SpanTracking.

Variable cfg : Delimiters.
Variable heap : Store.
Variable docBytes : list byte.

Local Abbreviation text' := (runText heap docBytes).
Local Abbreviation delimiterFree' := (delimiterFree cfg heap docBytes).
Local Abbreviation spansSince' := (spansSince cfg heap docBytes).
Local Abbreviation spansBetween' := (spansBetween cfg heap docBytes).
Local Abbreviation spansTracked' := (spansTracked cfg heap docBytes).
Local Abbreviation spansTrackedIn' := (spansTrackedIn cfg heap docBytes).

Lemma spansBetween_later (scanned : list RunPtr) (run : RunPtr)
    (p : Placeholder) :
  spansBetween' scanned p -> spansBetween' (scanned ++ [run]) p.
Proof.
  intros H first rest Hf Hrest.
  destruct (H first rest Hf Hrest)
    as (pre & between & suffix & c & ic & Hc & Hs & Hspan).
  exists pre, between, (suffix ++ [run]), c, ic.
  split; [exact Hc|]. split; [|exact Hspan].
  rewrite Hs. rewrite <- !app_assoc. simpl. rewrite <- app_assoc.
  reflexivity.
Qed.

Lemma spansBetween_single (scanned : list RunPtr) (f : PlaceholderFragment) :
  spansBetween' scanned {| Fragments := [f] |}.
Proof.
  intros first rest Hf Hrest. simpl in Hf. inversion Hf; subst.
  contradiction.
Qed.

Lemma spansBetween_cross (done : list RunPtr) (run : RunPtr)
    (f : PlaceholderFragment) (i : nat) :
  spansSince' done f ->
  spansBetween' (done ++ [run])
    {| Fragments := crossRunFragments heap docBytes f run i |}.
Proof.
  intros (pre & post & Hdone & Hspan) first rest Hf _.
  exists pre, post, [], run, (Z.of_nat i).
  split; [apply closingOf_cross|].
  simpl in Hf. inversion Hf; subst first rest. simpl.
  split; [|exact Hspan].
  rewrite Hdone, <- app_assoc. reflexivity.
Qed.

Lemma spansSince_absorbs (done : list RunPtr) (run : RunPtr)
    (f : PlaceholderFragment) :
  spansSince' done f -> spansSince' (done ++ [run]) (addSpanRun run f).
Proof.
  intros (pre & post & Hdone & Hspan).
  exists pre, (post ++ [run]). simpl. split.
  - rewrite Hdone, <- app_assoc. reflexivity.
  - intros Hfree. apply Forall_app in Hfree. destruct Hfree as [Hfree _].
    rewrite (Hspan Hfree). reflexivity.
Qed.

Lemma spansSince_skips (done : list RunPtr) (run : RunPtr)
    (f : PlaceholderFragment) :
  ~ delimiterFree' run ->
  spansSince' done f -> spansSince' (done ++ [run]) f.
Proof.
  intros Hnot (pre & post & Hdone & Hspan).
  exists pre, (post ++ [run]). split.
  - rewrite Hdone, <- app_assoc. reflexivity.
  - intros Hfree. apply Forall_app in Hfree. destruct Hfree as [_ Hfree].
    inversion Hfree; subst. contradiction.
Qed.

Lemma spansSince_new (done : list RunPtr) (f : PlaceholderFragment) :
  SpanRun f = [] -> spansSince' (done ++ [FragRun f]) f.
Proof.
  intros Hspan. exists done, []. split; [reflexivity|].
  intros _. exact Hspan.
Qed.

Lemma spansTracked_scanRun (done : list RunPtr) (run : RunPtr)
    (st : ScanState) :
  spansTracked' done st ->
  spansTracked' (done ++ [run]) (scanRun cfg heap docBytes st run).
Proof.
  apply (scanRun_invariant cfg heap docBytes run
           (spansTracked' done) (spansTracked' (done ++ [run]))
           (spansTrackedIn' done run)).
  - intros st0 [Hst Hf]. split; [|split; [|split]]; simpl.
    + eapply Forall_impl; [|exact Hst]. intros f Hf0. left. exact Hf0.
    + intros _. exact Hst.
    + discriminate.
    + eapply Forall_impl; [|exact Hf]. intros p. apply spansBetween_later.
  - intros pre c post [st0 flag] Hfull (Hst & Hdown & Hup & Hf).
    simpl in Hst, Hdown, Hup, Hf.
    assert (Hmet : classify cfg c <> None ->
              Exists (fun c0 => classify cfg c0 <> None) (pre ++ [c])).
    { intros Hc. apply Exists_app. right. constructor. exact Hc. }
    apply scanRune_cases; intros; unfold spansTrackedIn; simpl.
    + split; [exact Hst|]. split; [exact Hdown|]. split; [|exact Hf].
      intros Hfl. apply Exists_app. left. exact (Hup Hfl).
    + split; [|split; [discriminate|split]].
      * apply Forall_app. split; [exact Hst|].
        constructor; [|constructor]. right. split; reflexivity.
      * intros _. apply Hmet. congruence.
      * exact Hf.
    + split; [constructor|]. split; [constructor|]. split; [|exact Hf].
      intros _. apply Hmet. congruence.
    + match goal with H : stack st0 = _ |- _ => rewrite H in Hst end.
      apply Forall_app in Hst. destruct Hst as [Hst _].
      split; [exact Hst|]. split; [discriminate|]. split.
      * intros _. apply Hmet. congruence.
      * apply Forall_app. split; [exact Hf|].
        constructor; [|constructor]. apply spansBetween_single.
    + match goal with H : stack st0 = _ |- _ => rewrite H in Hst end.
      apply Forall_app in Hst. destruct Hst as [Hst Htop].
      inversion Htop as [|? ? Hfrag _]; subst.
      split; [exact Hst|]. split; [discriminate|]. split.
      * intros _. apply Hmet. congruence.
      * apply Forall_app. split; [exact Hf|].
        constructor; [|constructor].
        destruct Hfrag as [Hold|[Hrun _]];
          [apply spansBetween_cross; exact Hold | congruence].
  - intros st0 (Hst & _ & Hup & Hf). simpl in Hst, Hup, Hf.
    split; [|exact Hf].
    assert (Hnot : ~ delimiterFree' run).
    { intros Hfree. specialize (Hup eq_refl).
      apply Exists_exists in Hup. destruct Hup as (c & Hin & Hc).
      unfold delimiterFree in Hfree. rewrite Forall_forall in Hfree.
      exact (Hc (Hfree c Hin)). }
    eapply Forall_impl; [|exact Hst].
    intros f [Hold|[Hrun Hspan]].
    + apply spansSince_skips; assumption.
    + rewrite <- Hrun. apply spansSince_new. exact Hspan.
  - intros st0 (_ & Hdown & _ & Hf). simpl in Hdown, Hf.
    specialize (Hdown eq_refl). split; simpl; [|exact Hf].
    apply Forall_forall. intros f Hin. apply in_map_iff in Hin.
    destruct Hin as (g & <- & Hg). rewrite Forall_forall in Hdown.
    apply spansSince_absorbs. exact (Hdown g Hg).
Qed.

Lemma spansTracked_scanRuns (runs : list RunPtr) :
  spansTracked' runs (scanRuns cfg heap docBytes runs).
Proof.
  apply (scanRuns_invariant cfg heap docBytes spansTracked').
  - split; constructor.
  - intros done run st H. apply spansTracked_scanRun. exact H.
Qed.

End SpanTracking.

Section CrossRunText.

Variable cfg : Delimiters.
Variable heap : Store.
Variable docBytes : list byte.

Local Abbreviation text' := (runText heap docBytes).

(** A delimiter sits inside the text of its run: the index of a rune is
    below the number of bytes. *)
Lemma delimiterAt_inside (k : DelimKind) (run : RunPtr) (i : Z) :
  delimiterAt cfg heap docBytes k run i ->
  0 <= i < len (text' run) /\ inDocument (heap run) docBytes.
Proof.
  intros (Hi & c & Hnth & _).
  assert (Hlt : (Z.to_nat i < List.length (runes (text' run)))%nat)
    by (apply nth_error_Some; congruence).
  pose proof (length_runes (text' run)) as Hle.
  split; [unfold len; lia|].
  apply GetText_nonempty. unfold runText in *.
  destruct (GetText (heap run) docBytes); [simpl in Hlt; lia | discriminate].
Qed.

(** What [Text] reads for a first fragment that ends with its run, middle
    fragments that cover their runs and a last fragment from offset 0. *)
Lemma Text_of_fragments (first last : PlaceholderFragment)
    (spans : list RunPtr) (e : Z) :
  inDocument (heap (FragRun first)) docBytes ->
  Forall (fun srun => inDocument (heap srun) docBytes) spans ->
  inDocument (heap (FragRun last)) docBytes ->
  0 <= Start (FragPosition first) <= len (text' (FragRun first)) ->
  End_ (FragPosition first) = len (text' (FragRun first)) ->
  FragPosition last = {| Start := 0; End_ := e |} ->
  0 <= e <= len (text' (FragRun last)) ->
  Placeholder_Text heap docBytes
    {| Fragments := first :: map (wholeRun heap docBytes) spans ++ [last] |}
  = Some (subBytes (text' (FragRun first)) (Start (FragPosition first))
                   (len (text' (FragRun first)))
          ++ List.concat (map text' spans)
          ++ subBytes (text' (FragRun last)) 0 e).
Proof.
  intros HA HB HC Hstart Hend Hlast He.
  unfold Placeholder_Text. cbn [Fragments textLoop].
  rewrite Hend. unfold runText in *.
  rewrite (sliceBytes_GetText _ _ _ _ HA) by lia.
  rewrite textLoop_app.
  unfold wholeRun, runText.
  rewrite (textLoop_wholeRuns heap docBytes _ _ HB).
  cbn [textLoop]. rewrite Hlast. cbn [Start End_].
  rewrite (sliceBytes_GetText _ _ 0 e HC) by lia.
  rewrite <- app_assoc. reflexivity.
Qed.

Lemma crossRunText_of_invariants (scanned : list RunPtr) (p : Placeholder) :
  Forall (fun run => inDocument (heap run) docBytes) scanned ->
  structuralInvariant cfg heap docBytes p ->
  spansBetween cfg heap docBytes scanned p ->
  crossRunText cfg heap docBytes scanned p.
Proof.
  intros Hdoc (ro & io & rc & ic & Hopen & Hclose & Hdo & Hdc & _ & Hshape)
         Hbetween Hlen.
  destruct (Hshape Hlen) as (first & last & Hfrags & Hend & _ & Hlast & Hrun).
  destruct (Hbetween first _ Hfrags)
    as (pre & between & suffix & c & ic' & Hclose' & Hscanned & Hspans).
  { intros H. apply app_eq_nil in H. destruct H as [_ H]. discriminate. }
  rewrite Hclose in Hclose'. inversion Hclose'; subst c ic'. clear Hclose'.
  assert (Hro : ro = FragRun first /\ io = Start (FragPosition first)).
  { unfold openingOf in Hopen. rewrite Hfrags in Hopen.
    inversion Hopen. split; reflexivity. }
  destruct Hro as [Hro Hio].
  exists ro, io, rc, ic, pre, between, suffix.
  split; [exact Hopen|]. split; [exact Hclose|].
  split; [exact Hdo|]. split; [exact Hdc|].
  split; [rewrite Hro; exact Hscanned|].
  intros Hfree. specialize (Hspans Hfree).
  split; [exists first, (map (wholeRun heap docBytes) (SpanRun first) ++ [last]);
          split; [exact Hfrags | exact Hspans]|].
  destruct (delimiterAt_inside _ _ _ Hdo) as [Hio_in HdocA].
  destruct (delimiterAt_inside _ _ _ Hdc) as [Hic_in HdocC].
  assert (Hp : p = {| Fragments :=
                        first :: map (wholeRun heap docBytes) (SpanRun first)
                                 ++ [last] |})
    by (destruct p; simpl in Hfrags; rewrite Hfrags; reflexivity).
  rewrite Hp.
  rewrite (Text_of_fragments first last (SpanRun first) (ic + 1)).
  - rewrite Hspans, Hrun, <- Hro, <- Hio. reflexivity.
  - rewrite <- Hro. exact HdocA.
  - rewrite Hspans. rewrite Hscanned in Hdoc.
    apply Forall_app in Hdoc. destruct Hdoc as [_ Hdoc].
    inversion Hdoc as [|? ? _ Hdoc']; subst.
    apply Forall_app in Hdoc'. destruct Hdoc' as [Hdoc' _]. exact Hdoc'.
  - rewrite Hrun. exact HdocC.
  - rewrite <- Hro, <- Hio. lia.
  - exact Hend.
  - exact Hlast.
  - rewrite Hrun. lia.
Qed.

End CrossRunText.

(** Reconstruction as the code performs it. For runs whose offsets lie
    inside the document, every returned placeholder of several fragments was opened
    at an index [io] of a run [a] and closed at an index [ic] of a later
    run [c]; when the runs between [a] and [c] hold no delimiter, they are
    exactly the span runs recorded in the first fragment, and [Text] is the
    bytes of [a] from offset [io] to its end, the whole text of every run
    between, and the first [ic + 1] bytes of [c]. The indices are rune
    indices: the text goes from the open delimiter through the close
    delimiter when they are also the byte offsets of the delimiters. *)
Theorem cross_run_text_read (cfg : Delimiters) (heap : Store)
    (docBytes : list byte) (runs : DocumentRuns) :
  Forall (fun run => inDocument (heap run) docBytes) (WithText heap runs) ->
  Forall (crossRunText cfg heap docBytes (WithText heap runs))
         (placeholders (ParsePlaceholders cfg heap docBytes runs)).
Proof.
  intros Hdoc.
  pose proof (shapesKept_scanRuns cfg heap docBytes (WithText heap runs))
    as [_ Hshape].
  pose proof (spansTracked_scanRuns cfg heap docBytes (WithText heap runs))
    as [_ Hspans].
  apply Forall_forall. intros p Hin.
  rewrite Forall_forall in Hshape, Hspans.
  apply crossRunText_of_invariants;
    [exact Hdoc | exact (Hshape p Hin) | exact (Hspans p Hin)].
Qed.

(** In a text of bytes below [RuneSelf] a delimiter found at an index is
    the byte at that offset. *)
Lemma delimiterAt_ascii (cfg : Delimiters) (heap : Store)
    (docBytes : list byte) (k : DelimKind) (run : RunPtr) (i : Z) :
  Forall (fun b => byteZ b < 128) (runText heap docBytes run) ->
  delimiterAt cfg heap docBytes k run i ->
  exists b, nth_error (runText heap docBytes run) (Z.to_nat i) = Some b /\
            classify cfg (byteZ b) = Some k.
Proof.
  intros Hascii (_ & c & Hnth & Hk).
  rewrite (runes_ascii _ Hascii) in Hnth.
  rewrite nth_error_map in Hnth.
  destruct (nth_error (runText heap docBytes run) (Z.to_nat i)) as [b|];
    [|discriminate].
  exists b. split; [reflexivity|]. simpl in Hnth. inversion Hnth; subst.
  exact Hk.
Qed.

(** C2, where the code departs from it. The runs [é{bar], [abc] and [}baz]
    hold one placeholder, opened in the first run and closed in the third,
    the run between them holding no delimiter and being recorded as the
    span run of the open fragment. The text of the first run from the open
    delimiter to its end is [{bar], so C2 gives the placeholder the text
    [{barabc}]. The scan records the open delimiter at its rune index 1,
    and [Text] reads the index as a byte offset: the text returned begins
    with the second byte of [é]. *)
Theorem text_starts_inside_character :
  let r := ParsePlaceholders defaultDelimiters accentHeap accentDoc accentRuns in
  let textA := runText accentHeap accentDoc 0%nat in
  let textB := runText accentHeap accentDoc 1%nat in
  let textC := runText accentHeap accentDoc 2%nat in
  textA = [xc3; xa9] ++ bytes "{bar" /\
  textB = bytes "abc" /\
  textC = bytes "}baz" /\
  delimiterFree defaultDelimiters accentHeap accentDoc 1%nat /\
  placeholders r =
    [{| Fragments :=
          [{| FragPosition := {| Start := 1; End_ := 6 |};
              FragRun := 0%nat; SpanRun := [1%nat] |};
           {| FragPosition := {| Start := 0; End_ := 3 |};
              FragRun := 1%nat; SpanRun := [] |};
           {| FragPosition := {| Start := 0; End_ := 1 |};
              FragRun := 2%nat; SpanRun := [] |}] |}] /\
  map (Placeholder_Text accentHeap accentDoc) (placeholders r)
    = [Some (xa9 :: bytes "{barabc}")] /\
  subBytes textA 2 (len textA) ++ textB ++ subBytes textC 0 1
    = bytes "{barabc}" /\
  map (Placeholder_Text accentHeap accentDoc) (placeholders r)
    <> [Some (bytes "{barabc}")].
Proof.
  repeat split; try (vm_compute; reflexivity).
  - vm_compute. repeat constructor.
  - vm_compute. discriminate.
Qed.

(** ** Trimming with delimiters below [RuneSelf] *)

Lemma DecodeLastRune_snoc_ascii (init : list byte) (b : byte) :
  byteZ b < 128 -> DecodeLastRune (init ++ [b]) = (byteZ b, 1%nat).
Proof.
  intros Hb. unfold DecodeLastRune, len, RuneSelf.
  rewrite length_app. simpl List.length.
  replace (Z.of_nat (List.length init + 1) =? 0) with false
    by (symmetry; apply Z.eqb_neq; lia).
  replace (Z.to_nat (Z.of_nat (List.length init + 1) - 1))
    with (List.length init) by lia.
  rewrite nth_middle. apply Z.ltb_lt in Hb. rewrite Hb. reflexivity.
Qed.

Lemma DecodeLastRune_snoc_high (init : list byte) (b : byte) :
  128 <= byteZ b -> 128 <= fst (DecodeLastRune (init ++ [b])).
Proof.
  intros Hb. unfold DecodeLastRune, len, RuneSelf.
  rewrite length_app. simpl List.length.
  replace (Z.of_nat (List.length init + 1) =? 0) with false
    by (symmetry; apply Z.eqb_neq; lia).
  replace (Z.to_nat (Z.of_nat (List.length init + 1) - 1))
    with (List.length init) by lia.
  rewrite nth_middle.
  replace (byteZ b <? 128) with false by (symmetry; apply Z.ltb_ge; lia).
  set (start := Z.max 0 _).
  destruct (DecodeRune (skipn (Z.to_nat start) (init ++ [b])))
    as [r size] eqn:Ed.
  destruct (Z.eqb_spec (start + Z.of_nat size)
                       (Z.of_nat (List.length init + 1))) as [Hend|Hend];
    simpl; [|unfold RuneError; lia].
  destruct (skipn (Z.to_nat start) (init ++ [b])) as [|p0 t] eqn:Es.
  - simpl in Ed. inversion Ed. unfold RuneError. lia.
  - destruct (Z.lt_ge_cases (byteZ p0) 128) as [Hp|Hp].
    + rewrite DecodeRune_ascii in Ed by exact Hp. inversion Ed; subst.
      assert (Hs : Z.to_nat start = List.length init) by lia.
      rewrite Hs, skipn_app, skipn_all, Nat.sub_diag in Es.
      simpl in Es. inversion Es; subst. lia.
    + apply DecodeRune_cases in Ed. destruct Ed as (_ & Hr & _).
      exact (Hr Hp).
Qed.

Lemma trimRightLoop_step (k : nat) (cutset s : list byte) :
  s <> [] ->
  trimRightLoop (S k) cutset s =
  let '(r, n) := DecodeLastRune s in
  if ContainsRune cutset r
  then trimRightLoop k cutset (firstn (List.length s - n) s)
  else s.
Proof.
  intros Hs. destruct s as [|b t]; [contradiction | reflexivity].
Qed.

Lemma firstn_snoc_init {A : Type} (init : list A) (b : A) :
  firstn (List.length (init ++ [b]) - 1) (init ++ [b]) = init.
Proof.
  rewrite length_app. simpl. rewrite Nat.add_sub.
  rewrite firstn_app, Nat.sub_diag, firstn_all. simpl.
  apply app_nil_r.
Qed.

Section AsciiTrim.

Variable cfg : Delimiters.
Hypothesis Hascii : asciiDelimiters cfg.

Local Abbreviation cutset' :=
  (encodeRune (OpenDelimiter cfg) ++ encodeRune (CloseDelimiter cfg)).

Lemma encodeRune_ascii (r : rune) :
  0 <= r < 128 -> encodeRune r = [Zbyte r].
Proof.
  intros Hr. unfold encodeRune, ValidRune.
  replace (0 <=? r) with true by (symmetry; apply Z.leb_le; lia).
  replace (r <? 55296) with true by (symmetry; apply Z.ltb_lt; lia).
  simpl. replace (r <? 128) with true by (symmetry; apply Z.ltb_lt; lia).
  reflexivity.
Qed.

Lemma cutset_ascii :
  cutset' = [Zbyte (OpenDelimiter cfg); Zbyte (CloseDelimiter cfg)].
Proof.
  destruct Hascii as [Ho Hc]. rewrite !encodeRune_ascii by assumption.
  reflexivity.
Qed.

Lemma ContainsRune_cutset (r : rune) :
  ContainsRune cutset' r =
  (r =? OpenDelimiter cfg) || (r =? CloseDelimiter cfg).
Proof.
  destruct Hascii as [Ho Hc]. rewrite cutset_ascii.
  unfold ContainsRune, runes. cbn [decodeFrom].
  rewrite DecodeRune_ascii by (rewrite byteZ_Zbyte; lia).
  cbn [Nat.sub decodeFrom].
  rewrite DecodeRune_ascii by (rewrite byteZ_Zbyte; lia).
  rewrite !byteZ_Zbyte by lia. simpl. rewrite orb_false_r. reflexivity.
Qed.

Lemma ContainsRune_delimiter_byte (b : byte) :
  isDelimiterByte cfg b = true -> ContainsRune cutset' (byteZ b) = true.
Proof. rewrite ContainsRune_cutset. trivial. Qed.

Lemma ContainsRune_high (r : rune) :
  128 <= r -> ContainsRune cutset' r = false.
Proof.
  intros Hr. destruct Hascii as [Ho Hc]. rewrite ContainsRune_cutset.
  apply orb_false_iff. split; apply Z.eqb_neq; lia.
Qed.

(** The last rune of a string that does not end with a delimiter is not in
    the cutset. *)
Lemma last_rune_kept (init : list byte) (b : byte) :
  isDelimiterByte cfg b = false ->
  ContainsRune cutset' (fst (DecodeLastRune (init ++ [b]))) = false.
Proof.
  intros Hb. destruct (Z.lt_ge_cases (byteZ b) 128) as [Hlow|Hhigh].
  - rewrite DecodeLastRune_snoc_ascii by exact Hlow. simpl.
    rewrite ContainsRune_cutset. exact Hb.
  - apply ContainsRune_high. apply DecodeLastRune_snoc_high. exact Hhigh.
Qed.

(** The first rune of a string that does not begin with a delimiter is not
    in the cutset. *)
Lemma first_rune_kept (b : byte) (t : list byte) :
  isDelimiterByte cfg b = false ->
  trimLeftFrom 0 cutset' (b :: t) = b :: t.
Proof.
  intros Hb. cbn [trimLeftFrom]. unfold RuneSelf.
  destruct (Z.ltb_spec (byteZ b) 128) as [Hlow|Hhigh].
  - rewrite ContainsRune_cutset.
    unfold isDelimiterByte in Hb. rewrite Hb. reflexivity.
  - destruct (DecodeRune (b :: t)) as [r n] eqn:Ed.
    apply DecodeRune_cases in Ed. destruct Ed as (_ & Hr & _).
    rewrite ContainsRune_high by (apply Hr; exact Hhigh). reflexivity.
Qed.

Lemma byteZ_open : byteZ (Zbyte (OpenDelimiter cfg)) = OpenDelimiter cfg.
Proof. destruct Hascii as [Ho _]. apply byteZ_Zbyte. lia. Qed.

Lemma byteZ_close : byteZ (Zbyte (CloseDelimiter cfg)) = CloseDelimiter cfg.
Proof. destruct Hascii as [_ Hc]. apply byteZ_Zbyte. lia. Qed.

Lemma open_is_delimiter_byte :
  isDelimiterByte cfg (Zbyte (OpenDelimiter cfg)) = true.
Proof.
  unfold isDelimiterByte. rewrite byteZ_open, Z.eqb_refl. reflexivity.
Qed.

Lemma close_is_delimiter_byte :
  isDelimiterByte cfg (Zbyte (CloseDelimiter cfg)) = true.
Proof.
  unfold isDelimiterByte. rewrite byteZ_close, Z.eqb_refl.
  apply orb_true_r.
Qed.

(** Trimming a wrapped key whose edges are plain gives the key back. *)
Lemma Trim_wrapped (s : list byte) :
  edgesPlain cfg s = true ->
  Trim (Zbyte (OpenDelimiter cfg) :: s ++ [Zbyte (CloseDelimiter cfg)])
       cutset' = s.
Proof.
  intros Hs.
  assert (Hcut : cutset' <> []) by (rewrite cutset_ascii; discriminate).
  unfold Trim. destruct cutset' as [|c0 crest] eqn:Ecut; [contradiction|].
  rewrite <- Ecut. clear Hcut.
  assert (Hlow_o : byteZ (Zbyte (OpenDelimiter cfg)) < 128)
    by (rewrite byteZ_open; destruct Hascii; lia).
  assert (Hlow_c : byteZ (Zbyte (CloseDelimiter cfg)) < 128)
    by (rewrite byteZ_close; destruct Hascii; lia).
  assert (Hright :
            TrimRight (Zbyte (OpenDelimiter cfg)
                       :: s ++ [Zbyte (CloseDelimiter cfg)]) cutset'
            = match s with
              | [] => []
              | _ :: _ => Zbyte (OpenDelimiter cfg) :: s
              end).
  { unfold TrimRight. cbn [List.length]. rewrite app_comm_cons.
    rewrite trimRightLoop_step by (apply not_eq_sym, app_cons_not_nil).
    rewrite DecodeLastRune_snoc_ascii by exact Hlow_c.
    rewrite ContainsRune_delimiter_byte by apply close_is_delimiter_byte.
    rewrite firstn_snoc_init, length_app. cbn [List.length].
    rewrite Nat.add_1_r.
    destruct s as [|first t].
    - change [Zbyte (OpenDelimiter cfg)]
        with ([] ++ [Zbyte (OpenDelimiter cfg)]).
      rewrite trimRightLoop_step by discriminate.
      rewrite DecodeLastRune_snoc_ascii by exact Hlow_o.
      rewrite ContainsRune_delimiter_byte by apply open_is_delimiter_byte.
      reflexivity.
    - destruct (exists_last (l := first :: t)) as (init & b & Elast);
        [discriminate|].
      assert (Hb : isDelimiterByte cfg b = false).
      { unfold edgesPlain in Hs. rewrite Elast, last_last in Hs.
        apply andb_true_iff in Hs. destruct Hs as [_ Hs].
        apply negb_true_iff in Hs. exact Hs. }
      rewrite Elast, app_comm_cons.
      rewrite trimRightLoop_step by (apply not_eq_sym, app_cons_not_nil).
      pose proof (last_rune_kept (Zbyte (OpenDelimiter cfg) :: init) b Hb)
        as Hkeep.
      destruct (DecodeLastRune ((Zbyte (OpenDelimiter cfg) :: init) ++ [b]))
        as [r n]. simpl in Hkeep. rewrite Hkeep. reflexivity. }
  rewrite Hright. destruct s as [|first t]; [reflexivity|].
  unfold TrimLeft. cbn [trimLeftFrom]. unfold RuneSelf.
  replace (byteZ (Zbyte (OpenDelimiter cfg)) <? 128) with true
    by (symmetry; apply Z.ltb_lt; exact Hlow_o).
  rewrite ContainsRune_delimiter_byte by apply open_is_delimiter_byte.
  cbn [Nat.sub]. apply first_rune_kept.
  unfold edgesPlain in Hs. apply andb_true_iff in Hs. destruct Hs as [Hs _].
  apply negb_true_iff in Hs. exact Hs.
Qed.

End AsciiTrim.

(** ** Round trip of the delimiter helpers (C7) *)

(** C7, as amended. With both delimiters below U+0080, for every string
    [s] that neither begins nor ends with a delimiter character,
    [RemovePlaceholderDelimiter (AddPlaceholderDelimiter s)] is [s]. *)
Theorem remove_add_round_trip (cfg : Delimiters) (s : list byte) :
  asciiDelimiters cfg ->
  edgesPlain cfg s = true ->
  RemovePlaceholderDelimiter cfg (AddPlaceholderDelimiter cfg s) = s.
Proof.
  intros Hascii Hs.
  assert (Hnot : IsDelimitedPlaceholder cfg s = false).
  { destruct s as [|first t]; [reflexivity|].
    unfold edgesPlain in Hs. apply andb_true_iff in Hs. destruct Hs as [Hs _].
    apply negb_true_iff in Hs. unfold isDelimiterByte in Hs.
    apply orb_false_iff in Hs. destruct Hs as [Hs _].
    unfold IsDelimitedPlaceholder. rewrite Hs. reflexivity. }
  unfold AddPlaceholderDelimiter. rewrite Hnot.
  destruct Hascii as [Ho Hc].
  rewrite !encodeRune_ascii by assumption.
  assert (Hwrapped : IsDelimitedPlaceholder cfg
            ([Zbyte (OpenDelimiter cfg)] ++ s ++ [Zbyte (CloseDelimiter cfg)])
          = true).
  { cbn [app]. unfold IsDelimitedPlaceholder.
    rewrite app_comm_cons, last_last.
    rewrite (byteZ_open cfg (conj Ho Hc)), (byteZ_close cfg (conj Ho Hc)).
    rewrite !Z.eqb_refl. reflexivity. }
  unfold RemovePlaceholderDelimiter. rewrite Hwrapped. cbn [negb app].
  apply (Trim_wrapped cfg (conj Ho Hc)). exact Hs.
Qed.

Lemma remove_add_round_trip_witness :
  asciiDelimiters defaultDelimiters /\
  edgesPlain defaultDelimiters (bytes "foo_bar") = true /\
  RemovePlaceholderDelimiter defaultDelimiters
    (AddPlaceholderDelimiter defaultDelimiters (bytes "foo_bar"))
  = bytes "foo_bar".
Proof.
  assert (Ha : asciiDelimiters defaultDelimiters)
    by (unfold asciiDelimiters; simpl; lia).
  split; [exact Ha|]. split; [reflexivity|].
  apply (remove_add_round_trip defaultDelimiters (bytes "foo_bar") Ha).
  reflexivity.
Defined.

(** C7 as stated fails: [{x] is not delimited, yet removing the delimiters
    added to it also trims its own leading delimiter. *)
Lemma round_trip_fails_on_leading_delimiter :
  IsDelimitedPlaceholder defaultDelimiters (bytes "{x") = false /\
  RemovePlaceholderDelimiter defaultDelimiters
    (AddPlaceholderDelimiter defaultDelimiters (bytes "{x"))
  = bytes "x" /\
  RemovePlaceholderDelimiter defaultDelimiters
    (AddPlaceholderDelimiter defaultDelimiters (bytes "{x"))
  <> bytes "{x".
Proof.
  split; [reflexivity|]. split; [vm_compute; reflexivity|].
  vm_compute. discriminate.
Qed.

(** ** Detecting a delimited string (C8) *)

(** What [IsDelimitedPlaceholder] tests: the first and the last byte. *)
Lemma IsDelimitedPlaceholder_bytes (cfg : Delimiters) (s : list byte) :
  IsDelimitedPlaceholder cfg s = true <->
  s <> [] /\
  byteZ (hd x00 s) = OpenDelimiter cfg /\
  byteZ (List.last s x00) = CloseDelimiter cfg.
Proof.
  destruct s as [|first t].
  - simpl. split; [discriminate | intros [H _]; contradiction].
  - unfold IsDelimitedPlaceholder. cbn [hd].
    rewrite andb_true_iff, !Z.eqb_eq. split.
    + intros [Ho Hc]. repeat split; try assumption. discriminate.
    + intros (_ & Ho & Hc). split; assumption.
Qed.

Lemma last_cons_default {A : Type} (x d : A) (l : list A) :
  List.last (x :: l) d = List.last l x.
Proof.
  revert x d. induction l as [|y l IH]; intros x d; [reflexivity|].
  change (List.last (x :: y :: l) d) with (List.last (y :: l) d).
  rewrite (IH y d), (IH y x). reflexivity.
Qed.

Lemma pop_last {A : Type} (l init : list A) (x d : A) :
  pop l = Some (init, x) -> List.last l d = x.
Proof.
  intros H. apply pop_Some in H. subst l. apply last_last.
Qed.

(** The last rune of a string is a given rune below [RuneSelf] exactly
    when its last byte is. *)
Lemma last_decodeFrom (d : Z) (s : list byte) :
  0 <= d < 128 ->
  forall (skip : nat) (prev : rune),
  s <> [] ->
  Forall (fun x => 128 <= byteZ x) (firstn skip s) ->
  (skip <> 0%nat -> 128 <= prev) ->
  (List.last (decodeFrom skip s) prev = d <-> byteZ (List.last s x00) = d).
Proof.
  intros Hd. induction s as [|b t IH]; intros skip prev Hne Hskip Hprev;
    [contradiction|].
  destruct skip as [|k].
  - cbn [decodeFrom]. destruct (DecodeRune (b :: t)) as [r n] eqn:Ed.
    rewrite last_cons_default.
    assert (Hcases := Ed). apply DecodeRune_cases in Hcases.
    destruct Hcases as (Hn & Hr & Hlen & Hcont).
    destruct t as [|b1 t1].
    + cbn [decodeFrom List.last].
      destruct (Z.lt_ge_cases (byteZ b) 128) as [Hb|Hb].
      * rewrite DecodeRune_ascii in Ed by exact Hb. inversion Ed. tauto.
      * specialize (Hr Hb). lia.
    + rewrite (IH (n - 1)%nat r); [|discriminate | exact Hcont |].
      * reflexivity.
      * intros Hn1. apply Hr.
        destruct (Z.lt_ge_cases (byteZ b) 128) as [Hb|Hb]; [|exact Hb].
        rewrite DecodeRune_ascii in Ed by exact Hb. inversion Ed. lia.
  - cbn [decodeFrom]. cbn [firstn] in Hskip.
    inversion Hskip as [|? ? Hb Hrest]; subst.
    destruct t as [|b1 t1].
    + cbn [decodeFrom List.last]. specialize (Hprev ltac:(discriminate)).
      lia.
    + rewrite (IH k prev); [|discriminate | exact Hrest |].
      * reflexivity.
      * intros _. apply Hprev. discriminate.
Qed.

Lemma lastChar_ascii (d : Z) (s : list byte) :
  0 <= d < 128 -> s <> [] ->
  (lastChar s = Some d <-> byteZ (List.last s x00) = d).
Proof.
  intros Hd Hs.
  rewrite <- (last_decodeFrom d s Hd 0%nat RuneError Hs);
    [|constructor | intros H; contradiction].
  unfold lastChar. fold (runes s).
  destruct (pop (runes s)) as [[init r]|] eqn:Ep.
  - rewrite (pop_last _ _ _ RuneError Ep).
    split; [intros H; inversion H; reflexivity | intros ->; reflexivity].
  - apply pop_None in Ep. destruct s as [|b t]; [contradiction|].
    unfold runes in Ep. cbn [decodeFrom] in Ep.
    destruct (DecodeRune (b :: t)); discriminate.
Qed.

Lemma firstChar_ascii (d : Z) (b : byte) (t : list byte) :
  0 <= d < 128 ->
  (firstChar (b :: t) = Some d <-> byteZ b = d).
Proof.
  intros Hd. unfold firstChar, runes. cbn [decodeFrom].
  destruct (DecodeRune (b :: t)) as [r n] eqn:Ed. cbn [hd_error].
  destruct (Z.lt_ge_cases (byteZ b) 128) as [Hb|Hb].
  - rewrite DecodeRune_ascii in Ed by exact Hb. inversion Ed; subst.
    split; [intros H; inversion H; reflexivity | intros ->; reflexivity].
  - apply DecodeRune_cases in Ed. destruct Ed as (_ & Hr & _).
    specialize (Hr Hb). split; [intros H; inversion H; lia | lia].
Qed.

(** With both delimiters below U+0080 the test on bytes is the test on
    characters that the documentation describes. *)
Lemma IsDelimitedPlaceholder_ascii (cfg : Delimiters) (s : list byte) :
  asciiDelimiters cfg ->
  (IsDelimitedPlaceholder cfg s = true <-> delimitedAsDocumented cfg s).
Proof.
  intros [Ho Hc]. rewrite IsDelimitedPlaceholder_bytes.
  unfold delimitedAsDocumented.
  destruct s as [|b t]; [split; intros [H _]; contradiction|].
  rewrite (firstChar_ascii _ b t Ho).
  rewrite (lastChar_ascii _ (b :: t) Hc) by discriminate.
  reflexivity.
Qed.

(** C8, where the code departs from it. With the delimiters U+00AB and
    U+00BB the string made of U+00AB, [x] and U+00BB is not empty, begins
    with the open delimiter and ends with the close delimiter, and it is
    what [AddPlaceholderDelimiter] makes of [x]; yet
    [IsDelimitedPlaceholder] is false on it, because it compares the first
    and the last byte with the delimiters, and [AddPlaceholderDelimiter]
    wraps it a second time. *)
Theorem is_delimited_compares_bytes :
  delimitedAsDocumented guillemets guillemetKey /\
  IsDelimitedPlaceholder guillemets guillemetKey = false /\
  AddPlaceholderDelimiter guillemets (bytes "x") = guillemetKey /\
  AddPlaceholderDelimiter guillemets guillemetKey <> guillemetKey.
Proof.
  split; [|split; [|split]].
  - split; [discriminate|]. split; reflexivity.
  - reflexivity.
  - reflexivity.
  - vm_compute. discriminate.
Qed.

(** The instances named by C8: the empty string is not delimited, [{x}] is
    under the initial delimiters, [x] is not, and a string of one character
    that is both the open and the close delimiter is. *)
Lemma is_delimited_instances :
  IsDelimitedPlaceholder defaultDelimiters [] = false /\
  IsDelimitedPlaceholder defaultDelimiters (bytes "{x}") = true /\
  IsDelimitedPlaceholder defaultDelimiters (bytes "x") = false /\
  forall b : byte,
    IsDelimitedPlaceholder
      (ChangeOpenCloseDelimiter (byteZ b) (byteZ b) defaultDelimiters) [b]
    = true.
Proof.
  repeat split. intros b. unfold IsDelimitedPlaceholder. simpl.
  rewrite Z.eqb_refl. reflexivity.
Qed.

(** * Further properties of the code *)

(** ** Placeholders are never revised *)

Section AppendOnly.

Variable cfg : Delimiters.
Variable heap : Store.
Variable docBytes : list byte.

Lemma found_grows_scanRune (run : RunPtr) (i : nat) (c : rune)
    (s : ScanState * bool) :
  exists later,
    found (fst (scanRune cfg heap docBytes run i c s)) = found (fst s) ++ later.
Proof.
  destruct s as [st flag].
  apply scanRune_cases; intros; simpl;
    try (exists []; rewrite app_nil_r; reflexivity);
    eexists; reflexivity.
Qed.

Lemma found_grows_scanRunes (run : RunPtr) (runRune : list rune) :
  forall (i : nat) (s : ScanState * bool),
  exists later,
    found (fst (scanRunes cfg heap docBytes run i runRune s))
    = found (fst s) ++ later.
Proof.
  induction runRune as [|c rest IH]; intros i s; cbn [scanRunes].
  - exists []. rewrite app_nil_r. reflexivity.
  - destruct (IH (S i) (scanRune cfg heap docBytes run i c s)) as [l2 H2].
    destruct (found_grows_scanRune run i c s) as [l1 H1].
    exists (l1 ++ l2). rewrite H2, H1, app_assoc. reflexivity.
Qed.

Lemma found_grows_scanRun (st : ScanState) (run : RunPtr) :
  exists later, found (scanRun cfg heap docBytes st run) = found st ++ later.
Proof.
  unfold scanRun.
  destruct (found_grows_scanRunes run (runes (runText heap docBytes run))
              0%nat (st, false)) as [later H].
  destruct (scanRunes cfg heap docBytes run 0
              (runes (runText heap docBytes run)) (st, false)) as [st1 [|]];
    exists later; exact H.
Qed.

Lemma found_grows_fold (runs : list RunPtr) :
  forall st,
  exists later,
    found (fold_left (scanRun cfg heap docBytes) runs st) = found st ++ later.
Proof.
  induction runs as [|run rest IH]; intros st; cbn [fold_left].
  - exists []. rewrite app_nil_r. reflexivity.
  - destruct (IH (scanRun cfg heap docBytes st run)) as [l2 H2].
    destruct (found_grows_scanRun st run) as [l1 H1].
    exists (l1 ++ l2). rewrite H2, H1, app_assoc. reflexivity.
Qed.

End AppendOnly.

(** X1. The placeholders found in a run sequence stay as they are when
    more runs follow: the result for [runs ++ more] begins with the result
    for [runs]. No later run revises or removes a placeholder. *)
Theorem placeholders_of_prefix_kept (cfg : Delimiters) (heap : Store)
    (docBytes : list byte) (runs more : DocumentRuns) :
  exists later,
    placeholders (ParsePlaceholders cfg heap docBytes (runs ++ more))
    = placeholders (ParsePlaceholders cfg heap docBytes runs) ++ later.
Proof.
  unfold ParsePlaceholders, scanRuns, WithText. cbn [placeholders].
  rewrite filter_app, fold_left_app.
  apply found_grows_fold.
Qed.

(** ** The log and the result in terms of the bracket matching *)

Section LogAndResult.

Variable cfg : Delimiters.
Variable heap : Store.
Variable docBytes : list byte.

(** The log of a parse: the close delimiters without partner in scan
    order, then the open delimiters left open, the outermost first. *)
Lemma diagnostics_matchDelims (runs : DocumentRuns) :
  diagnostics (ParsePlaceholders cfg heap docBytes runs)
  = map (strayClose heap docBytes)
        (stray (matchDelims (delimiterOccurrences cfg heap docBytes runs)))
    ++ map (danglingOpen heap docBytes)
        (opened (matchDelims (delimiterOccurrences cfg heap docBytes runs))).
Proof.
  pose proof (scanRuns_matchDelims cfg heap docBytes (WithText heap runs))
    as [Hs _ Hl].
  fold (delimiterOccurrences cfg heap docBytes runs) in Hs, Hl.
  unfold ParsePlaceholders. cbn [diagnostics]. rewrite Hl. f_equal.
  transitivity (map (fun p : RunPtr * Z =>
                       UnmatchedOpen (ID (heap (fst p)))
                         (runText heap docBytes (fst p)) (snd p))
                    (map fragPlace
                       (stack (scanRuns cfg heap docBytes
                                 (WithText heap runs))))).
  - rewrite map_map. reflexivity.
  - rewrite Hs, map_map. reflexivity.
Qed.

Lemma placeholders_matchDelims (runs : DocumentRuns) :
  List.length (placeholders (ParsePlaceholders cfg heap docBytes runs))
  = List.length
      (pairs (matchDelims (delimiterOccurrences cfg heap docBytes runs))).
Proof.
  pose proof (scanRuns_matchDelims cfg heap docBytes (WithText heap runs))
    as [_ Hf _].
  fold (delimiterOccurrences cfg heap docBytes runs) in Hf.
  unfold ParsePlaceholders. cbn [placeholders].
  rewrite <- (length_map placeholderPlaces), Hf. apply length_map.
Qed.

(** With the same rune for both delimiters no occurrence is read as a
    close delimiter. *)
Lemma delimsFrom_all_open (run : RunPtr) (runRune : list rune) :
  OpenDelimiter cfg = CloseDelimiter cfg ->
  forall i, Forall (fun t => tkind t = DOpen) (delimsFrom cfg run i runRune).
Proof.
  intros Hsame. induction runRune as [|c rest IH]; intros i;
    cbn [delimsFrom]; [constructor|].
  destruct (classify cfg c) as [[|]|] eqn:Ek.
  - constructor; [reflexivity | apply IH].
  - apply classify_close in Ek. destruct Ek as [Ho Hc]. congruence.
  - apply IH.
Qed.

Lemma occurrences_all_open (runs : DocumentRuns) :
  OpenDelimiter cfg = CloseDelimiter cfg ->
  Forall (fun t => tkind t = DOpen)
         (delimiterOccurrences cfg heap docBytes runs).
Proof.
  intros Hsame. unfold delimiterOccurrences.
  induction (WithText heap runs) as [|run rest IH]; simpl; [constructor|].
  apply Forall_app. split; [apply delimsFrom_all_open; exact Hsame | exact IH].
Qed.

End LogAndResult.

(** Open delimiters alone only pile up. *)
Lemma matchStep_all_open (ts : list Token) :
  Forall (fun t => tkind t = DOpen) ts ->
  forall m, fold_left matchStep ts m =
            {| opened := opened m ++ ts; pairs := pairs m; stray := stray m |}.
Proof.
  induction 1 as [|t ts Ht _ IH]; intros m; cbn [fold_left].
  - rewrite app_nil_r. destruct m; reflexivity.
  - rewrite IH. unfold matchStep. rewrite Ht. cbn [opened pairs stray].
    rewrite <- app_assoc. reflexivity.
Qed.

(** X2. When the open and the close delimiter are the same rune, every
    occurrence is taken for an open delimiter, the test for it coming
    first: no placeholder is ever returned, and every occurrence is logged
    as an unmatched open delimiter, in scan order. *)
Theorem same_delimiters_match_nothing (cfg : Delimiters) (heap : Store)
    (docBytes : list byte) (runs : DocumentRuns) :
  OpenDelimiter cfg = CloseDelimiter cfg ->
  placeholders (ParsePlaceholders cfg heap docBytes runs) = [] /\
  diagnostics (ParsePlaceholders cfg heap docBytes runs)
  = map (danglingOpen heap docBytes)
        (delimiterOccurrences cfg heap docBytes runs).
Proof.
  intros Hsame.
  pose proof (occurrences_all_open cfg heap docBytes runs Hsame) as Hopen.
  pose proof (matchStep_all_open _ Hopen noMatching) as Hm.
  fold (matchDelims (delimiterOccurrences cfg heap docBytes runs)) in Hm.
  split.
  - apply length_zero_iff_nil.
    rewrite placeholders_matchDelims, Hm. reflexivity.
  - rewrite diagnostics_matchDelims, Hm. reflexivity.
Qed.

Lemma same_delimiters_match_nothing_witness :
  placeholders
    (ParsePlaceholders (ChangeOpenCloseDelimiter 123 123 defaultDelimiters)
       sampleHeap sampleDoc sampleRuns) = [] /\
  diagnostics
    (ParsePlaceholders (ChangeOpenCloseDelimiter 123 123 defaultDelimiters)
       sampleHeap sampleDoc sampleRuns)
  = [UnmatchedOpen 1 (bytes "foo{bar") 3; UnmatchedOpen 3 (bytes "}baz{x}") 4].
Proof.
  destruct (same_delimiters_match_nothing
              (ChangeOpenCloseDelimiter 123 123 defaultDelimiters)
              sampleHeap sampleDoc sampleRuns eq_refl) as [Hp Hd].
  split; [exact Hp|]. rewrite Hd. vm_compute. reflexivity.
Defined.

(** ** Accounting by kind *)

Lemma matchStep_counts (ts : list Token) :
  forall m,
  let m' := fold_left matchStep ts m in
  (List.length (filter isClose ts) + List.length (pairs m)
   + List.length (stray m)
   = List.length (pairs m') + List.length (stray m'))%nat /\
  (List.length (filter (fun t => negb (isClose t)) ts)
   + List.length (pairs m) + List.length (opened m)
   = List.length (pairs m') + List.length (opened m'))%nat.
Proof.
  induction ts as [|t ts IH]; intros m; cbn [fold_left filter];
    [split; reflexivity|].
  destruct (IH (matchStep m t)) as [IHc IHo]. cbn zeta in IHc, IHo.
  cbn zeta. rewrite <- IHc, <- IHo. clear IHc IHo.
  unfold matchStep, isClose. destruct (tkind t); cbn [negb].
  - cbn [opened pairs stray List.length]. rewrite length_app. simpl. lia.
  - destruct (pop (opened m)) as [[rest o]|] eqn:E;
      cbn [opened pairs stray List.length].
    + apply pop_Some in E. rewrite E, !length_app. simpl. lia.
    + rewrite length_app. simpl. lia.
Qed.

Lemma filter_unmatched_close (heap : Store) (docBytes : list byte)
    (cs os : list Token) :
  filter isUnmatchedClose
    (map (strayClose heap docBytes) cs ++ map (danglingOpen heap docBytes) os)
  = map (strayClose heap docBytes) cs.
Proof.
  rewrite filter_app.
  replace (filter isUnmatchedClose (map (danglingOpen heap docBytes) os))
    with (@nil Diagnostic).
  - rewrite app_nil_r. induction cs as [|c cs IH]; simpl; [reflexivity|].
    rewrite IH. reflexivity.
  - induction os as [|o os IH]; simpl; [reflexivity | exact IH].
Qed.

Lemma filter_unmatched_open (heap : Store) (docBytes : list byte)
    (cs os : list Token) :
  filter (fun d => negb (isUnmatchedClose d))
    (map (strayClose heap docBytes) cs ++ map (danglingOpen heap docBytes) os)
  = map (danglingOpen heap docBytes) os.
Proof.
  rewrite filter_app.
  replace (filter (fun d => negb (isUnmatchedClose d))
             (map (strayClose heap docBytes) cs))
    with (@nil Diagnostic).
  - simpl. induction os as [|o os IH]; simpl; [reflexivity|].
    rewrite IH. reflexivity.
  - induction cs as [|c cs IH]; simpl; [reflexivity | exact IH].
Qed.

(** X3. Every close delimiter met by the scan is either the end of one
    returned placeholder or named by one unmatched-close line of the log,
    and every open delimiter is either the start of one returned
    placeholder or named by one unmatched-open line: the close delimiters
    are as many as the placeholders and the unmatched-close lines together,
    and likewise the open delimiters. *)
Theorem occurrences_accounted_by_kind (cfg : Delimiters) (heap : Store)
    (docBytes : list byte) (runs : DocumentRuns) :
  let r := ParsePlaceholders cfg heap docBytes runs in
  let ts := delimiterOccurrences cfg heap docBytes runs in
  (List.length (filter isClose ts)
   = List.length (placeholders r)
     + List.length (filter isUnmatchedClose (diagnostics r)))%nat /\
  (List.length (filter (fun t => negb (isClose t)) ts)
   = List.length (placeholders r)
     + List.length (filter (fun d => negb (isUnmatchedClose d))
                           (diagnostics r)))%nat.
Proof.
  intros r ts. unfold r.
  rewrite placeholders_matchDelims, diagnostics_matchDelims.
  rewrite filter_unmatched_close, filter_unmatched_open, !length_map.
  fold ts. destruct (matchStep_counts ts noMatching) as [Hc Ho].
  cbn in Hc, Ho. fold (matchDelims ts) in Hc, Ho. lia.
Qed.

(** ** A clean parse *)

Lemma segmented_extend (st pre : list Token) (n : nat) :
  segmented st pre n ->
  forall k v, nested k v -> segmented st (pre ++ v) (n + k).
Proof.
  induction 1 as [n w Hw|st pre n o m w Hseg _ Ho Hw]; intros k v Hv.
  - constructor. apply nested_app; assumption.
  - rewrite <- app_assoc. cbn [app]. rewrite <- Nat.add_assoc.
    apply segmented_open; [exact Hseg | exact Ho|].
    apply nested_app; assumption.
Qed.

Lemma segmented_snoc_inv (rest pre : list Token) (o : Token) (n : nat) :
  segmented (rest ++ [o]) pre n ->
  exists pre0 w n0 m0,
    pre = pre0 ++ o :: w /\ segmented rest pre0 n0 /\ nested m0 w /\
    n = (n0 + m0)%nat /\ tkind o = DOpen.
Proof.
  intros H. inversion H as [n' w Hw Hst|st pre0 n0 o' m0 w Hseg Ho Hw Hst];
    subst.
  - destruct rest; discriminate.
  - apply app_inj_tail in Hst. destruct Hst as [-> ->].
    exists pre0, w, n0, m0. repeat split; assumption.
Qed.

Lemma stray_grows_matchStep (m : Matching) (t : Token) :
  exists later, stray (matchStep m t) = stray m ++ later.
Proof.
  unfold matchStep. destruct (tkind t).
  - exists []. simpl. rewrite app_nil_r. reflexivity.
  - destruct (pop (opened m)) as [[rest o]|]; simpl.
    + exists []. rewrite app_nil_r. reflexivity.
    + exists [t]. reflexivity.
Qed.

Lemma stray_grows (ts : list Token) :
  forall m, exists later, stray (fold_left matchStep ts m) = stray m ++ later.
Proof.
  induction ts as [|t ts IH]; intros m; cbn [fold_left].
  - exists []. rewrite app_nil_r. reflexivity.
  - destruct (IH (matchStep m t)) as [l2 H2].
    destruct (stray_grows_matchStep m t) as [l1 H1].
    exists (l1 ++ l2). rewrite H2, H1, app_assoc. reflexivity.
Qed.

Lemma segmented_matchStep (m : Matching) (t : Token) (pre : list Token) :
  segmented (opened m) pre (List.length (pairs m)) ->
  stray (matchStep m t) = stray m ->
  segmented (opened (matchStep m t)) (pre ++ [t])
            (List.length (pairs (matchStep m t))).
Proof.
  intros Hseg Hstray. unfold matchStep in *.
  destruct (tkind t) eqn:Ek.
  - cbn [opened pairs]. rewrite <- (Nat.add_0_r (List.length (pairs m))).
    apply segmented_open; [exact Hseg | exact Ek | constructor].
  - destruct (pop (opened m)) as [[rest o]|] eqn:Ep; cbn [opened pairs stray] in *.
    + apply pop_Some in Ep. rewrite Ep in Hseg.
      apply segmented_snoc_inv in Hseg.
      destruct Hseg as (pre0 & w & n0 & m0 & -> & Hseg & Hw & Hn & Ho).
      rewrite length_app, Hn. cbn [List.length].
      rewrite <- app_assoc. cbn [app].
      replace (n0 + m0 + 1)%nat with (n0 + S m0)%nat by lia.
      apply segmented_extend; [exact Hseg|].
      apply nested_pair; assumption.
    + exfalso. apply (f_equal (@List.length Token)) in Hstray.
      rewrite length_app in Hstray. simpl in Hstray. lia.
Qed.

Lemma segmented_fold (ts : list Token) :
  forall m pre,
  segmented (opened m) pre (List.length (pairs m)) ->
  stray (fold_left matchStep ts m) = stray m ->
  segmented (opened (fold_left matchStep ts m)) (pre ++ ts)
            (List.length (pairs (fold_left matchStep ts m))).
Proof.
  induction ts as [|t ts IH]; intros m pre Hseg Hstray; cbn [fold_left] in *.
  - rewrite app_nil_r. exact Hseg.
  - destruct (stray_grows ts (matchStep m t)) as [l2 H2].
    destruct (stray_grows_matchStep m t) as [l1 H1].
    assert (Hl : l1 = [] /\ l2 = []).
    { rewrite H2, H1, <- app_assoc in Hstray.
      rewrite <- (app_nil_r (stray m)) in Hstray at 2.
      apply app_inv_head in Hstray. apply app_eq_nil in Hstray. exact Hstray. }
    destruct Hl as [-> ->]. rewrite app_nil_r in H1, H2.
    replace (pre ++ t :: ts) with ((pre ++ [t]) ++ ts)
      by (rewrite <- app_assoc; reflexivity).
    apply IH; [apply segmented_matchStep; assumption | exact H2].
Qed.

(** Occurrences that the matcher takes without stray and without any open
    delimiter left are correctly nested. *)
Lemma matchDelims_clean_nested (ts : list Token) :
  stray (matchDelims ts) = [] -> opened (matchDelims ts) = [] ->
  nested (List.length (pairs (matchDelims ts))) ts.
Proof.
  intros Hstray Hopened.
  pose proof (segmented_fold ts noMatching [] (segmented_base 0 [] nested_nil)
                Hstray) as H.
  fold (matchDelims ts) in H. rewrite Hopened in H. cbn [app] in H.
  inversion H as [n w Hw|st pre n o m w _ _ _ Hst]; subst.
  - exact Hw.
  - destruct st; discriminate.
Qed.

(** X4. A parse logs nothing exactly when the delimiter occurrences of the
    runs are correctly nested with none left dangling, the pairs being as
    many as the placeholders returned. *)
Theorem clean_parse_iff_nested (cfg : Delimiters) (heap : Store)
    (docBytes : list byte) (runs : DocumentRuns) :
  diagnostics (ParsePlaceholders cfg heap docBytes runs) = [] <->
  nested (List.length (placeholders (ParsePlaceholders cfg heap docBytes runs)))
         (delimiterOccurrences cfg heap docBytes runs).
Proof.
  rewrite diagnostics_matchDelims, placeholders_matchDelims. split.
  - intros H. apply app_eq_nil in H. destruct H as [Hs Ho].
    apply map_eq_nil in Hs, Ho.
    apply matchDelims_clean_nested; assumption.
  - intros H. apply matchStep_nested in H.
    destruct H as (pw & _ & _ & Hfold).
    unfold matchDelims. rewrite Hfold. reflexivity.
Qed.

Lemma clean_parse_iff_nested_witness :
  nested 2 (delimiterOccurrences defaultDelimiters sampleHeap sampleDoc
                                 sampleRuns).
Proof.
  apply (proj1 (clean_parse_iff_nested defaultDelimiters sampleHeap sampleDoc
                  sampleRuns)).
  vm_compute. reflexivity.
Defined.

(** ** The runs a placeholder spans *)

Section RecordedRuns.

Variable cfg : Delimiters.
Variable heap : Store.
Variable docBytes : list byte.

Local Abbreviation plainRun' := (plainRun cfg heap docBytes).
Local Abbreviation recordsSince' := (recordsSince cfg heap docBytes).
Local Abbreviation recordsBetween' := (recordsBetween cfg heap docBytes).
Local Abbreviation recordsKept' := (recordsKept cfg heap docBytes).
Local Abbreviation recordsKeptIn' := (recordsKeptIn cfg heap docBytes).

Lemma plainRun_true (run : RunPtr) :
  Forall (fun c => classify cfg c = None) (runes (runText heap docBytes run)) ->
  plainRun' run = true.
Proof.
  intros H. unfold plainRun. apply forallb_forall. intros c Hin.
  rewrite Forall_forall in H. rewrite (H c Hin). reflexivity.
Qed.

Lemma plainRun_false (run : RunPtr) :
  Exists (fun c => classify cfg c <> None) (runes (runText heap docBytes run)) ->
  plainRun' run = false.
Proof.
  intros H. apply Exists_exists in H. destruct H as (c & Hin & Hc).
  destruct (plainRun' run) eqn:E; [|reflexivity].
  unfold plainRun in E. rewrite forallb_forall in E. specialize (E c Hin).
  destruct (classify cfg c); [discriminate | contradiction].
Qed.

Lemma recordsBetween_later (scanned : list RunPtr) (run : RunPtr)
    (p : Placeholder) :
  recordsBetween' scanned p -> recordsBetween' (scanned ++ [run]) p.
Proof.
  intros H first rest Hf Hrest.
  destruct (H first rest Hf Hrest)
    as (pre & between & suffix & c & ic & Hc & Hs & Hspan).
  exists pre, between, (suffix ++ [run]), c, ic.
  split; [exact Hc|]. split; [|exact Hspan].
  rewrite Hs. rewrite <- !app_assoc. simpl. rewrite <- app_assoc.
  reflexivity.
Qed.

Lemma recordsBetween_single (scanned : list RunPtr) (f : PlaceholderFragment) :
  recordsBetween' scanned {| Fragments := [f] |}.
Proof.
  intros first rest Hf Hrest. simpl in Hf. inversion Hf; subst.
  contradiction.
Qed.

Lemma recordsBetween_cross (done : list RunPtr) (run : RunPtr)
    (f : PlaceholderFragment) (i : nat) :
  recordsSince' done f ->
  recordsBetween' (done ++ [run])
    {| Fragments := crossRunFragments heap docBytes f run i |}.
Proof.
  intros (pre & post & Hdone & Hspan) first rest Hf _.
  exists pre, post, [], run, (Z.of_nat i).
  split; [apply closingOf_cross|].
  simpl in Hf. inversion Hf; subst first rest. simpl.
  split; [|exact Hspan].
  rewrite Hdone, <- app_assoc. reflexivity.
Qed.

Lemma recordsSince_absorbs (done : list RunPtr) (run : RunPtr)
    (f : PlaceholderFragment) :
  plainRun' run = true ->
  recordsSince' done f -> recordsSince' (done ++ [run]) (addSpanRun run f).
Proof.
  intros Hplain (pre & post & Hdone & Hspan).
  exists pre, (post ++ [run]). simpl. split.
  - rewrite Hdone, <- app_assoc. reflexivity.
  - rewrite filter_app, Hspan. simpl. rewrite Hplain. reflexivity.
Qed.

Lemma recordsSince_skips (done : list RunPtr) (run : RunPtr)
    (f : PlaceholderFragment) :
  plainRun' run = false ->
  recordsSince' done f -> recordsSince' (done ++ [run]) f.
Proof.
  intros Hnot (pre & post & Hdone & Hspan).
  exists pre, (post ++ [run]). split.
  - rewrite Hdone, <- app_assoc. reflexivity.
  - rewrite filter_app, Hspan. simpl. rewrite Hnot, app_nil_r. reflexivity.
Qed.

Lemma recordsSince_new (done : list RunPtr) (f : PlaceholderFragment) :
  SpanRun f = [] -> recordsSince' (done ++ [FragRun f]) f.
Proof.
  intros Hspan. exists done, []. split; [reflexivity | exact Hspan].
Qed.

Lemma recordsKept_scanRun (done : list RunPtr) (run : RunPtr)
    (st : ScanState) :
  recordsKept' done st ->
  recordsKept' (done ++ [run]) (scanRun cfg heap docBytes st run).
Proof.
  apply (scanRun_invariant cfg heap docBytes run
           (recordsKept' done) (recordsKept' (done ++ [run]))
           (recordsKeptIn' done run)).
  - intros st0 [Hst Hf]. split; [|split; [|split]]; simpl.
    + eapply Forall_impl; [|exact Hst]. intros f Hf0. left. exact Hf0.
    + intros _. split; [left; constructor | exact Hst].
    + discriminate.
    + eapply Forall_impl; [|exact Hf]. intros p. apply recordsBetween_later.
  - intros pre c post [st0 flag] Hfull (Hst & Hdown & Hup & Hf).
    simpl in Hst, Hdown, Hup, Hf.
    assert (Hmet : classify cfg c <> None ->
              Exists (fun c0 => classify cfg c0 <> None) (pre ++ [c])).
    { intros Hc. apply Exists_app. right. constructor. exact Hc. }
    apply scanRune_cases; intros; unfold recordsKeptIn; simpl.
    + split; [exact Hst|]. split; [|split; [|exact Hf]].
      * intros Hfl. destruct (Hdown Hfl) as [[Hplain|Hemp] Hold];
          (split; [|exact Hold]); [left | right; exact Hemp].
        apply Forall_app. split; [exact Hplain|].
        constructor; [assumption | constructor].
      * intros Hfl. apply Exists_app. left. exact (Hup Hfl).
    + split; [|split; [discriminate|split]].
      * apply Forall_app. split; [exact Hst|].
        constructor; [|constructor]. right. split; reflexivity.
      * intros _. apply Hmet. congruence.
      * exact Hf.
    + split; [constructor|]. split; [|split; [|exact Hf]].
      * intros _. split; [right; reflexivity | constructor].
      * intros Hfl. apply Exists_app. left. exact (Hup Hfl).
    + match goal with H : stack st0 = _ |- _ => rewrite H in Hst end.
      apply Forall_app in Hst. destruct Hst as [Hst _].
      split; [exact Hst|]. split; [discriminate|]. split.
      * intros _. apply Hmet. congruence.
      * apply Forall_app. split; [exact Hf|].
        constructor; [|constructor]. apply recordsBetween_single.
    + match goal with H : stack st0 = _ |- _ => rewrite H in Hst end.
      apply Forall_app in Hst. destruct Hst as [Hst Htop].
      inversion Htop as [|? ? Hfrag _]; subst.
      split; [exact Hst|]. split; [discriminate|]. split.
      * intros _. apply Hmet. congruence.
      * apply Forall_app. split; [exact Hf|].
        constructor; [|constructor].
        destruct Hfrag as [Hold|[Hrun _]];
          [apply recordsBetween_cross; exact Hold | congruence].
  - intros st0 (Hst & _ & Hup & Hf). simpl in Hst, Hup, Hf.
    split; [|exact Hf].
    pose proof (plainRun_false run (Hup eq_refl)) as Hnot.
    eapply Forall_impl; [|exact Hst].
    intros f [Hold|[Hrun Hspan]].
    + apply recordsSince_skips; assumption.
    + rewrite <- Hrun. apply recordsSince_new. exact Hspan.
  - intros st0 (_ & Hdown & _ & Hf). simpl in Hdown, Hf.
    destruct (Hdown eq_refl) as [[Hplain|Hemp] Hold].
    + split; simpl; [|exact Hf].
      apply Forall_forall. intros f Hin. apply in_map_iff in Hin.
      destruct Hin as (g & <- & Hg). rewrite Forall_forall in Hold.
      apply recordsSince_absorbs; [apply plainRun_true; exact Hplain|].
      exact (Hold g Hg).
    + split; simpl; [rewrite Hemp; constructor | exact Hf].
Qed.

Lemma recordsKept_scanRuns (runs : list RunPtr) :
  recordsKept' runs (scanRuns cfg heap docBytes runs).
Proof.
  apply (scanRuns_invariant cfg heap docBytes recordsKept').
  - split; constructor.
  - intros done run st H. apply recordsKept_scanRun. exact H.
Qed.

End RecordedRuns.

(** ** What [Text] reads across runs *)

Lemma readsAcrossRuns_of_invariants (cfg : Delimiters) (heap : Store)
    (docBytes : list byte) (scanned : list RunPtr) (p : Placeholder) :
  Forall (fun run => inDocument (heap run) docBytes) scanned ->
  structuralInvariant cfg heap docBytes p ->
  recordsBetween cfg heap docBytes scanned p ->
  readsAcrossRuns cfg heap docBytes scanned p.
Proof.
  intros Hdoc (ro & io & rc & ic & Hopen & Hclose & Hdo & Hdc & _ & Hshape)
         Hbetween Hlen.
  destruct (Hshape Hlen) as (first & last & Hfrags & Hend & _ & Hlast & Hrun).
  destruct (Hbetween first _ Hfrags)
    as (pre & between & suffix & c & ic' & Hclose' & Hscanned & Hspans).
  { intros H. apply app_eq_nil in H. destruct H as [_ H]. discriminate. }
  rewrite Hclose in Hclose'. inversion Hclose'; subst c ic'. clear Hclose'.
  assert (Hro : ro = FragRun first /\ io = Start (FragPosition first)).
  { unfold openingOf in Hopen. rewrite Hfrags in Hopen.
    inversion Hopen. split; reflexivity. }
  destruct Hro as [Hro Hio].
  exists ro, io, rc, ic, pre, between, suffix.
  split; [exact Hopen|]. split; [exact Hclose|].
  split; [rewrite Hro; exact Hscanned|].
  split; [exists first, (map (wholeRun heap docBytes) (SpanRun first) ++ [last]);
          split; [exact Hfrags | exact Hspans]|].
  destruct (delimiterAt_inside cfg heap docBytes _ _ _ Hdo) as [Hio_in HdocA].
  destruct (delimiterAt_inside cfg heap docBytes _ _ _ Hdc) as [Hic_in HdocC].
  assert (Hp : p = {| Fragments :=
                        first :: map (wholeRun heap docBytes) (SpanRun first)
                                 ++ [last] |})
    by (destruct p; simpl in Hfrags; rewrite Hfrags; reflexivity).
  rewrite Hp.
  rewrite (Text_of_fragments heap docBytes first last (SpanRun first) (ic + 1)).
  - rewrite Hspans, Hrun, <- Hro, <- Hio. reflexivity.
  - rewrite <- Hro. exact HdocA.
  - rewrite Hspans. rewrite Hscanned in Hdoc.
    apply Forall_app in Hdoc. destruct Hdoc as [_ Hdoc].
    inversion Hdoc as [|? ? _ Hdoc']; subst.
    apply Forall_app in Hdoc'. destruct Hdoc' as [Hdoc' _].
    rewrite Forall_forall in Hdoc'. apply Forall_forall.
    intros srun Hin. apply filter_In in Hin. destruct Hin as [Hin _].
    exact (Hdoc' srun Hin).
  - rewrite Hrun. exact HdocC.
  - rewrite <- Hro, <- Hio. lia.
  - exact Hend.
  - exact Hlast.
  - rewrite Hrun. lia.
Qed.

(** X5. For runs whose offsets lie inside the document, every returned
    placeholder of several fragments was opened in a run [a] and closed in
    a later run [c] of the sequence. Of the runs between the two, its
    first fragment has recorded those that hold no delimiter, and [Text]
    is the bytes of [a] from the recorded start to the end of its text, the
    texts of the recorded runs, and the bytes of [c] up to the recorded
    end: a run between that holds a delimiter, as the runs of a nested
    placeholder do, is left out of the text. *)
Theorem text_leaves_out_runs_with_delimiters (cfg : Delimiters)
    (heap : Store) (docBytes : list byte) (runs : DocumentRuns) :
  Forall (fun run => inDocument (heap run) docBytes) (WithText heap runs) ->
  Forall (readsAcrossRuns cfg heap docBytes (WithText heap runs))
         (placeholders (ParsePlaceholders cfg heap docBytes runs)).
Proof.
  intros Hdoc.
  pose proof (shapesKept_scanRuns cfg heap docBytes (WithText heap runs))
    as [_ Hshape].
  pose proof (recordsKept_scanRuns cfg heap docBytes (WithText heap runs))
    as [_ Hrec].
  apply Forall_forall. intros p Hin.
  rewrite Forall_forall in Hshape, Hrec.
  apply readsAcrossRuns_of_invariants;
    [exact Hdoc | exact (Hshape p Hin) | exact (Hrec p Hin)].
Qed.

Lemma text_leaves_out_runs_with_delimiters_witness :
  Forall (fun run => inDocument (nestedHeap run) nestedDoc)
         (WithText nestedHeap nestedRuns) /\
  Forall (readsAcrossRuns defaultDelimiters nestedHeap nestedDoc
            (WithText nestedHeap nestedRuns))
         (placeholders
            (ParsePlaceholders defaultDelimiters nestedHeap nestedDoc
               nestedRuns)).
Proof.
  assert (Hdoc : Forall (fun run => inDocument (nestedHeap run) nestedDoc)
                        (WithText nestedHeap nestedRuns)).
  { vm_compute. repeat constructor; discriminate. }
  split; [exact Hdoc|].
  exact (text_leaves_out_runs_with_delimiters defaultDelimiters nestedHeap
           nestedDoc nestedRuns Hdoc).
Defined.

(** ** Absolute positions of the returned placeholders *)

(** X6. [StartPos] and [EndPos] are defined on every returned placeholder,
    which has at least one fragment. With [(ro, io)] the run and start of
    its first fragment and [(rc, ic)] the run of its last fragment and the
    index before its end, [io] is the index of an open delimiter in the
    text of [ro] and [ic] the index of a close delimiter in the text of
    [rc]; [StartPos] is the start of the text of [ro] plus [io], [EndPos]
    the start of the text of [rc] plus [ic + 1]. *)
Theorem positions_of_returned_placeholders (cfg : Delimiters) (heap : Store)
    (docBytes : list byte) (runs : DocumentRuns) :
  Forall (fun p =>
            exists ro io rc ic,
              openingOf p = Some (ro, io) /\
              closingOf p = Some (rc, ic) /\
              delimiterAt cfg heap docBytes DOpen ro io /\
              delimiterAt cfg heap docBytes DClose rc ic /\
              StartPos heap p
                = Some (End_ (OpenTag (Text (heap ro))) + io) /\
              EndPos heap p
                = Some (End_ (OpenTag (Text (heap rc))) + ic + 1))
         (placeholders (ParsePlaceholders cfg heap docBytes runs)).
Proof.
  pose proof (shapesKept_scanRuns cfg heap docBytes (WithText heap runs))
    as [_ Hshape].
  eapply Forall_impl; [|exact Hshape].
  intros p (ro & io & rc & ic & Hopen & Hclose & Hdo & Hdc & _).
  exists ro, io, rc, ic.
  split; [exact Hopen|]. split; [exact Hclose|].
  split; [exact Hdo|]. split; [exact Hdc|].
  unfold StartPos, EndPos, openingOf, closingOf in *.
  destruct (Fragments p) as [|f rest]; [discriminate|].
  inversion Hopen; subst. split; [reflexivity|].
  destruct (pop (f :: rest)) as [[init l]|]; [|discriminate].
  inversion Hclose; subst. f_equal. lia.
Qed.

(** ** [Text] on the returned placeholders *)

Section ReadableFragments.

Variable cfg : Delimiters.
Variable heap : Store.
Variable docBytes : list byte.

Local Abbreviation text' := (runText heap docBytes).
Local Abbreviation readable' := (readable heap docBytes).
Local Abbreviation fragmentText' := (fragmentText heap docBytes).

Lemma textLoop_readable (l : list PlaceholderFragment) :
  Forall readable' l ->
  forall str,
  textLoop heap docBytes l str
  = Some (str ++ List.concat (map fragmentText' l)).
Proof.
  induction 1 as [|f l (Hdoc & H0 & Hle & Hlen) _ IH]; intros str;
    cbn [textLoop map List.concat].
  - rewrite app_nil_r. reflexivity.
  - unfold runText in Hlen.
    rewrite (sliceBytes_GetText _ _ _ _ Hdoc H0 Hle Hlen).
    rewrite IH, <- app_assoc. reflexivity.
Qed.

Lemma readable_wholeRuns (spans : list RunPtr) :
  Forall (fun srun => inDocument (heap srun) docBytes) spans ->
  Forall readable' (map (wholeRun heap docBytes) spans).
Proof.
  intros H. apply Forall_forall. intros f Hin. apply in_map_iff in Hin.
  destruct Hin as (srun & <- & Hs). rewrite Forall_forall in H.
  split; [exact (H srun Hs)|]. simpl. unfold len. lia.
Qed.

Lemma readable_of_invariants (scanned : list RunPtr) (p : Placeholder) :
  Forall (fun run => inDocument (heap run) docBytes) scanned ->
  structuralInvariant cfg heap docBytes p ->
  fragmentBounds heap docBytes p ->
  recordsBetween cfg heap docBytes scanned p ->
  Forall readable' (Fragments p).
Proof.
  intros Hdoc (ro & io & rc & ic & Hopen & Hclose & Hdo & Hdc & _ & Hshape)
         [_ Hbounds] Hbetween.
  destruct (delimiterAt_inside cfg heap docBytes _ _ _ Hdo) as [Hio HdocA].
  destruct (delimiterAt_inside cfg heap docBytes _ _ _ Hdc) as [Hic HdocC].
  destruct Hbounds as [(f & Hf & Hproper)|(first0 & mids & last0 & Hf & _)].
  - rewrite Hf. constructor; [|constructor].
    unfold openingOf, closingOf in Hopen, Hclose. rewrite Hf in Hopen, Hclose.
    simpl in Hopen, Hclose. inversion Hopen; subst ro io.
    inversion Hclose; subst rc ic. destruct Hproper as [H0 Hlt].
    split; [exact HdocA|]. repeat split; lia.
  - assert (Hlen : (1 < List.length (Fragments p))%nat)
      by (rewrite Hf; simpl; rewrite length_app; simpl; lia).
    destruct (Hshape Hlen) as (first & last & Hfrags & Hend & _ & Hlast & Hrun).
    destruct (Hbetween first _ Hfrags)
      as (pre & between & suffix & c & ic' & _ & Hscanned & Hspans).
    { intros H. apply app_eq_nil in H. destruct H as [_ H]. discriminate. }
    unfold openingOf in Hopen. rewrite Hfrags in Hopen.
    inversion Hopen; subst ro io.
    rewrite Hfrags. constructor; [|apply Forall_app; split].
    + split; [exact HdocA|]. rewrite Hend. repeat split; lia.
    + apply readable_wholeRuns. rewrite Hspans, Hscanned in *.
      apply Forall_app in Hdoc. destruct Hdoc as [_ Hdoc].
      inversion Hdoc as [|? ? _ Hdoc']; subst.
      apply Forall_app in Hdoc'. destruct Hdoc' as [Hdoc' _].
      rewrite Forall_forall in Hdoc'. apply Forall_forall.
      intros srun Hin. apply filter_In in Hin. destruct Hin as [Hin _].
      exact (Hdoc' srun Hin).
    + constructor; [|constructor].
      split; [rewrite Hrun; exact HdocC|]. rewrite Hlast, Hrun. simpl.
      repeat split; lia.
Qed.

End ReadableFragments.

(** X7. When no run occurs twice and the offsets of the runs lie inside the
    document, [Text] does not fail on any returned placeholder: every
    fragment lies inside the text of its run, with
    [0 <= Start <= End <= len(text)], and the text is the concatenation of
    the bytes of the fragments, each taken from the text of its own run. *)
Theorem text_defined_on_returned_placeholders (cfg : Delimiters)
    (heap : Store) (docBytes : list byte) (runs : DocumentRuns) :
  NoDup (WithText heap runs) ->
  Forall (fun run => inDocument (heap run) docBytes) (WithText heap runs) ->
  Forall (fun p =>
            Forall (readable heap docBytes) (Fragments p) /\
            Placeholder_Text heap docBytes p
            = Some (List.concat (map (fragmentText heap docBytes)
                                     (Fragments p))))
         (placeholders (ParsePlaceholders cfg heap docBytes runs)).
Proof.
  intros Hnd Hdoc.
  pose proof (shapesKept_scanRuns cfg heap docBytes (WithText heap runs))
    as [_ Hshape].
  pose proof (recordsKept_scanRuns cfg heap docBytes (WithText heap runs))
    as [_ Hrec].
  pose proof (boundsKept_scanRuns cfg heap docBytes (WithText heap runs) Hnd)
    as [_ Hbounds].
  apply Forall_forall. intros p Hin.
  rewrite Forall_forall in Hshape, Hrec, Hbounds.
  assert (Hread : Forall (readable heap docBytes) (Fragments p)).
  { apply (readable_of_invariants cfg heap docBytes (WithText heap runs));
      [exact Hdoc | exact (Hshape p Hin) | exact (Hbounds p Hin)
       | exact (Hrec p Hin)]. }
  split; [exact Hread|].
  unfold Placeholder_Text.
  rewrite (textLoop_readable heap docBytes _ Hread). reflexivity.
Qed.

Lemma text_defined_on_returned_placeholders_witness :
  map (Placeholder_Text sampleHeap sampleDoc)
      (placeholders
         (ParsePlaceholders defaultDelimiters sampleHeap sampleDoc sampleRuns))
  = [Some (bytes "{barabc}"); Some (bytes "{x}")].
Proof.
  assert (Hnd : NoDup (WithText sampleHeap sampleRuns)).
  { vm_compute. repeat constructor; simpl; intuition discriminate. }
  assert (Hdoc : Forall (fun run => inDocument (sampleHeap run) sampleDoc)
                        (WithText sampleHeap sampleRuns)).
  { vm_compute. repeat constructor; discriminate. }
  pose proof (text_defined_on_returned_placeholders defaultDelimiters
                sampleHeap sampleDoc sampleRuns Hnd Hdoc) as H.
  assert (Hmap : forall l,
            Forall (fun p =>
                      Forall (readable sampleHeap sampleDoc) (Fragments p) /\
                      Placeholder_Text sampleHeap sampleDoc p
                      = Some (List.concat
                                (map (fragmentText sampleHeap sampleDoc)
                                     (Fragments p)))) l ->
            map (Placeholder_Text sampleHeap sampleDoc) l
            = map (fun p => Some (List.concat
                                    (map (fragmentText sampleHeap sampleDoc)
                                         (Fragments p)))) l).
  { induction 1 as [|p l [_ Hp] _ IH]; simpl; [reflexivity|].
    rewrite Hp, IH. reflexivity. }
  rewrite (Hmap _ H). vm_compute. reflexivity.
Defined.

(** ** [Text] and the capacity of the document *)

Lemma wrap64_small (z : Z) : - 2 ^ 63 <= z < 2 ^ 63 -> wrap64 z = z.
Proof.
  intros H. unfold wrap64. rewrite Z.mod_small; lia.
Qed.

Section TextWithin.

Variable heap : Store.
Variable docBytes spare : list byte.

Lemma sliceWithin_cases (lo hi : Z) :
  match sliceWithin docBytes spare lo hi with
  | None =>
    (0 <=? lo) && (lo <=? hi) && (hi <=? len docBytes + len spare) = false
  | Some t =>
    (0 <=? lo) && (lo <=? hi) && (hi <=? len docBytes + len spare) = true
    /\ len t = hi - lo
  end.
Proof.
  unfold sliceWithin.
  destruct ((0 <=? lo) && (lo <=? hi) && (hi <=? len docBytes + len spare))
    eqn:E; [|reflexivity].
  split; [reflexivity|].
  rewrite !andb_true_iff, !Z.leb_le in E. unfold len in *.
  rewrite length_firstn, length_skipn, length_app. lia.
Qed.

Lemma textLoopWithin_cases (l : list PlaceholderFragment) :
  forall str,
  match textLoopWithin heap docBytes spare l str with
  | None => Exists (fun f => withinCapacity heap docBytes spare f = false) l
  | Some t =>
    Forall (fun f => withinCapacity heap docBytes spare f = true) l /\
    len t = len str + lengthOfRanges heap l
  end.
Proof.
  induction l as [|f l IH]; intros str;
    cbn [textLoopWithin lengthOfRanges].
  - split; [constructor | lia].
  - pose proof (sliceWithin_cases
                  (add64 (End_ (OpenTag (Text (heap (FragRun f)))))
                         (Start (FragPosition f)))
                  (add64 (End_ (OpenTag (Text (heap (FragRun f)))))
                         (End_ (FragPosition f)))) as Hs.
    destruct (sliceWithin docBytes spare _ _) as [t|].
    + destruct Hs as [Hin Hlen]. specialize (IH (str ++ t)).
      destruct (textLoopWithin heap docBytes spare l (str ++ t)) as [t'|].
      * destruct IH as [Hall Ht]. split; [constructor; assumption|].
        rewrite Ht. unfold absoluteRange. cbn [fst snd].
        unfold len in *. rewrite length_app. lia.
      * apply Exists_cons_tl. exact IH.
    + apply Exists_cons_hd. exact Hs.
Qed.

(** A slice within the length is read the same whatever the backing array
    holds after it. *)
Lemma sliceBytes_within (lo hi : Z) (t : list byte) :
  len docBytes < 2 ^ 63 ->
  sliceBytes docBytes lo hi = Some t ->
  wrap64 lo = lo /\ wrap64 hi = hi /\
  sliceWithin docBytes spare lo hi = Some t.
Proof.
  intros Hcap. unfold sliceBytes, sliceWithin.
  destruct ((0 <=? lo) && (lo <=? hi) && (hi <=? len docBytes)) eqn:E;
    [|discriminate].
  intros Ht. inversion Ht as [Et]. clear Ht.
  rewrite !andb_true_iff, !Z.leb_le in E. destruct E as [[H0 Hle] Hlen].
  split; [apply wrap64_small; lia|]. split; [apply wrap64_small; lia|].
  assert (E' : (0 <=? lo) && (lo <=? hi)
               && (hi <=? len docBytes + len spare) = true).
  { rewrite !andb_true_iff, !Z.leb_le. unfold len in *. lia. }
  rewrite E'. f_equal.
  rewrite skipn_app, firstn_app.
  replace (Z.to_nat (hi - lo)
           - List.length (skipn (Z.to_nat lo) docBytes))%nat with 0%nat
    by (rewrite length_skipn; unfold len in *; lia).
  rewrite firstn_O, app_nil_r. reflexivity.
Qed.

Lemma textLoop_within (l : list PlaceholderFragment) :
  len docBytes < 2 ^ 63 ->
  forall str t,
  textLoop heap docBytes l str = Some t ->
  textLoopWithin heap docBytes spare l str = Some t.
Proof.
  intros Hcap. induction l as [|f l IH]; intros str t;
    cbn [textLoop textLoopWithin]; [intros H; exact H|].
  destruct (sliceBytes docBytes _ _) as [u|] eqn:E; [|discriminate].
  destruct (sliceBytes_within _ _ u Hcap E) as (Hlo & Hhi & Hw).
  unfold add64. rewrite Hlo, Hhi, Hw. apply IH.
Qed.

End TextWithin.

(** The bytes after the end of the document are read when they lie within
    its capacity, where the check against the length gives no result. *)
Example text_reads_spare_capacity :
  Placeholder_Text shortHeap shortDoc overlong = None /\
  Placeholder_TextWithin shortHeap shortDoc (bytes "XY") overlong
  = Some (bytes "ab</w:t>XY") /\
  Placeholder_TextWithin shortHeap shortDoc (bytes "X") overlong = None.
Proof. vm_compute. repeat split. Qed.

(** X8. On a document with spare capacity and with the offsets added as
    [int64], [Text] panics, with a slice out of range, exactly when the
    absolute range of some fragment is not a slice within the capacity of
    the document; when it does not panic, every fragment is within the
    capacity and the length of the text is the sum of the lengths of the
    absolute ranges. Where every range lies within the length of the
    document, which is below [2^63], the text does not depend on what the
    backing array holds after the document: it is the text read with the
    bounds checked against the length. *)
Theorem text_panics_only_beyond_capacity (heap : Store)
    (docBytes spare : list byte) (p : Placeholder) :
  match Placeholder_TextWithin heap docBytes spare p with
  | None =>
    Exists (fun f => withinCapacity heap docBytes spare f = false)
           (Fragments p)
  | Some t =>
    Forall (fun f => withinCapacity heap docBytes spare f = true)
           (Fragments p) /\
    len t = lengthOfRanges heap (Fragments p)
  end /\
  (len docBytes < 2 ^ 63 ->
   forall t, Placeholder_Text heap docBytes p = Some t ->
             Placeholder_TextWithin heap docBytes spare p = Some t).
Proof.
  split.
  - unfold Placeholder_TextWithin.
    pose proof (textLoopWithin_cases heap docBytes spare (Fragments p) [])
      as H.
    destruct (textLoopWithin heap docBytes spare (Fragments p) []) as [t|];
      exact H.
  - intros Hcap t. apply textLoop_within. exact Hcap.
Qed.

Lemma text_panics_only_beyond_capacity_witness :
  len sampleDoc < 2 ^ 63 /\
  Placeholder_Text sampleHeap sampleDoc sampleKey = Some (bytes "{x}") /\
  Placeholder_TextWithin sampleHeap sampleDoc (bytes "XY") sampleKey
  = Some (bytes "{x}").
Proof.
  assert (Hcap : len sampleDoc < 2 ^ 63) by (vm_compute; reflexivity).
  assert (Ht : Placeholder_Text sampleHeap sampleDoc sampleKey
               = Some (bytes "{x}")) by (vm_compute; reflexivity).
  split; [exact Hcap|]. split; [exact Ht|].
  exact (proj2 (text_panics_only_beyond_capacity sampleHeap sampleDoc
                  (bytes "XY") sampleKey) Hcap _ Ht).
Defined.

(** ** The delimiter helpers with delimiters below [RuneSelf] *)

Lemma stripTrailing_snoc (cfg : Delimiters) (init : list byte) (b : byte) :
  stripTrailing cfg (init ++ [b])
  = if isDelimiterByte cfg b then stripTrailing cfg init else init ++ [b].
Proof.
  induction init as [|x init IH]; cbn [app stripTrailing].
  - destruct (isDelimiterByte cfg b); reflexivity.
  - rewrite IH. destruct (isDelimiterByte cfg b); [reflexivity|].
    destruct (init ++ [b]) eqn:E; [|reflexivity].
    apply app_eq_nil in E. destruct E as [_ E]. discriminate.
Qed.

Lemma stripLeading_head (cfg : Delimiters) (s : list byte) (b : byte)
    (t : list byte) :
  stripLeading cfg s = b :: t -> isDelimiterByte cfg b = false.
Proof.
  induction s as [|x s IH]; cbn [stripLeading]; [discriminate|].
  destruct (isDelimiterByte cfg x) eqn:E; [exact IH|].
  intros H. inversion H; subst. exact E.
Qed.

Lemma stripLeading_last (cfg : Delimiters) (s : list byte) :
  stripLeading cfg s <> [] ->
  List.last (stripLeading cfg s) x00 = List.last s x00.
Proof.
  induction s as [|x s IH]; cbn [stripLeading]; [contradiction|].
  destruct (isDelimiterByte cfg x); [|reflexivity].
  intros H. rewrite (IH H).
  destruct s as [|y s]; [contradiction | reflexivity].
Qed.

Lemma stripTrailing_last (cfg : Delimiters) (s : list byte) :
  stripTrailing cfg s <> [] ->
  isDelimiterByte cfg (List.last (stripTrailing cfg s) x00) = false.
Proof.
  induction s as [|b init IH] using rev_ind; [contradiction|].
  rewrite stripTrailing_snoc.
  destruct (isDelimiterByte cfg b) eqn:E; [exact IH|].
  intros _. rewrite last_last. exact E.
Qed.

Section AsciiHelpers.

Variable cfg : Delimiters.
Hypothesis Hascii : asciiDelimiters cfg.

Local Abbreviation cutset' :=
  (encodeRune (OpenDelimiter cfg) ++ encodeRune (CloseDelimiter cfg)).

Lemma delimiter_byte_low (b : byte) :
  isDelimiterByte cfg b = true -> byteZ b < 128.
Proof.
  unfold isDelimiterByte. rewrite orb_true_iff, !Z.eqb_eq.
  destruct Hascii as [Ho Hc]. lia.
Qed.

(** [strings.TrimLeft] with the two delimiters strips the leading
    delimiter bytes. *)
Lemma trimLeft_strips (s : list byte) :
  trimLeftFrom 0 cutset' s = stripLeading cfg s.
Proof.
  induction s as [|b t IH]; [reflexivity|].
  destruct (isDelimiterByte cfg b) eqn:E.
  - cbn [trimLeftFrom stripLeading]. rewrite E. unfold RuneSelf.
    replace (byteZ b <? 128) with true
      by (symmetry; apply Z.ltb_lt; apply delimiter_byte_low; exact E).
    rewrite (ContainsRune_delimiter_byte cfg Hascii b E).
    cbn [Nat.sub]. exact IH.
  - rewrite (first_rune_kept cfg Hascii b t E).
    cbn [stripLeading]. rewrite E. reflexivity.
Qed.

(** [strings.TrimRight] with the two delimiters strips the trailing
    delimiter bytes. *)
Lemma trimRight_strips (k : nat) :
  forall s, (List.length s <= k)%nat ->
  trimRightLoop k cutset' s = stripTrailing cfg s.
Proof.
  induction k as [|k IH]; intros s Hlen.
  - destruct s; [reflexivity | simpl in Hlen; lia].
  - destruct s as [|x s'] using rev_ind; [reflexivity|]. clear IHs'.
    rewrite trimRightLoop_step by (apply not_eq_sym, app_cons_not_nil).
    rewrite stripTrailing_snoc.
    destruct (isDelimiterByte cfg x) eqn:E.
    + rewrite DecodeLastRune_snoc_ascii
        by (apply delimiter_byte_low; exact E).
      rewrite (ContainsRune_delimiter_byte cfg Hascii x E).
      rewrite firstn_snoc_init. apply IH.
      rewrite length_app in Hlen. simpl in Hlen. lia.
    + pose proof (last_rune_kept cfg Hascii s' x E) as Hkeep.
      destruct (DecodeLastRune (s' ++ [x])) as [r n]. simpl in Hkeep.
      rewrite Hkeep. reflexivity.
Qed.

Lemma Trim_strips (s : list byte) :
  Trim s cutset' = stripLeading cfg (stripTrailing cfg s).
Proof.
  assert (Hcut : cutset' <> [])
    by (rewrite (cutset_ascii cfg Hascii); discriminate).
  unfold Trim. destruct s as [|b t]; [reflexivity|].
  destruct cutset' as [|c0 crest] eqn:Ecut; [contradiction|].
  rewrite <- Ecut. unfold TrimLeft, TrimRight.
  rewrite trimRight_strips by lia. apply trimLeft_strips.
Qed.

Lemma not_delimited_after_strip (s : list byte) :
  IsDelimitedPlaceholder cfg (stripLeading cfg s) = false.
Proof.
  destruct (stripLeading cfg s) as [|b t] eqn:E; [reflexivity|].
  apply stripLeading_head in E. unfold isDelimiterByte in E.
  apply orb_false_iff in E. destruct E as [E _].
  unfold IsDelimitedPlaceholder. rewrite E. reflexivity.
Qed.

Lemma edgesPlain_after_strip (s : list byte) :
  edgesPlain cfg (stripLeading cfg (stripTrailing cfg s)) = true.
Proof.
  destruct (stripLeading cfg (stripTrailing cfg s)) as [|b t] eqn:E;
    [reflexivity|].
  unfold edgesPlain. rewrite <- E.
  rewrite (stripLeading_head cfg _ b t E).
  rewrite stripLeading_last by (rewrite E; discriminate).
  rewrite stripTrailing_last; [reflexivity|].
  intros Hnil. rewrite Hnil in E. discriminate.
Qed.

Lemma wrapped_is_delimited (s : list byte) :
  IsDelimitedPlaceholder cfg
    (Zbyte (OpenDelimiter cfg) :: s ++ [Zbyte (CloseDelimiter cfg)]) = true.
Proof.
  unfold IsDelimitedPlaceholder.
  rewrite app_comm_cons, last_last.
  rewrite (byteZ_open cfg Hascii), (byteZ_close cfg Hascii).
  rewrite !Z.eqb_refl. reflexivity.
Qed.

Lemma Add_cases (s : list byte) :
  AddPlaceholderDelimiter cfg s
  = if IsDelimitedPlaceholder cfg s then s
    else Zbyte (OpenDelimiter cfg) :: s ++ [Zbyte (CloseDelimiter cfg)].
Proof.
  unfold AddPlaceholderDelimiter. destruct Hascii as [Ho Hc].
  rewrite !(encodeRune_ascii _) by assumption. reflexivity.
Qed.

End AsciiHelpers.

(** X9. After [ChangeOpenCloseDelimiter(o, c)] with [o] and [c] below
    U+0080, whatever the delimiters were before: a string that is not
    delimited is wrapped into the byte [o], the string and the byte [c];
    what [AddPlaceholderDelimiter] returns is always delimited; and adding
    the delimiters twice is adding them once. *)
Theorem add_delimiter_once (old : Delimiters) (o c : rune) (s : list byte) :
  0 <= o < 128 -> 0 <= c < 128 ->
  let cfg := ChangeOpenCloseDelimiter o c old in
  (IsDelimitedPlaceholder cfg s = false ->
   AddPlaceholderDelimiter cfg s = Zbyte o :: s ++ [Zbyte c]) /\
  IsDelimitedPlaceholder cfg (AddPlaceholderDelimiter cfg s) = true /\
  AddPlaceholderDelimiter cfg (AddPlaceholderDelimiter cfg s)
  = AddPlaceholderDelimiter cfg s.
Proof.
  intros Ho Hc cfg.
  assert (Hascii : asciiDelimiters cfg) by (split; assumption).
  assert (Hdel : IsDelimitedPlaceholder cfg (AddPlaceholderDelimiter cfg s)
                 = true).
  { rewrite (Add_cases cfg Hascii).
    destruct (IsDelimitedPlaceholder cfg s) eqn:E; [exact E|].
    apply (wrapped_is_delimited cfg Hascii). }
  split; [|split].
  - intros Hnot. rewrite (Add_cases cfg Hascii), Hnot. reflexivity.
  - exact Hdel.
  - rewrite (Add_cases cfg Hascii (AddPlaceholderDelimiter cfg s)), Hdel.
    reflexivity.
Qed.

Lemma add_delimiter_once_witness :
  AddPlaceholderDelimiter
    (ChangeOpenCloseDelimiter 91 93 defaultDelimiters) (bytes "name")
  = bytes "[name]" /\
  AddPlaceholderDelimiter
    (ChangeOpenCloseDelimiter 91 93 defaultDelimiters) (bytes "[name]")
  = bytes "[name]".
Proof.
  destruct (add_delimiter_once defaultDelimiters 91 93 (bytes "name")
              ltac:(lia) ltac:(lia)) as (Hwrap & _ & Hidem).
  split.
  - rewrite (Hwrap eq_refl). reflexivity.
  - rewrite (Hwrap eq_refl) in Hidem. exact Hidem.
Defined.

(** X10. With both delimiters below U+0080,
    [RemovePlaceholderDelimiter] leaves a string that is not delimited as
    it is, and from a delimited string it strips every leading and every
    trailing delimiter byte, of either kind, not only the outer pair. *)
Theorem remove_strips_all_edge_delimiters (cfg : Delimiters)
    (s : list byte) :
  asciiDelimiters cfg ->
  RemovePlaceholderDelimiter cfg s
  = if IsDelimitedPlaceholder cfg s
    then stripLeading cfg (stripTrailing cfg s)
    else s.
Proof.
  intros Hascii. unfold RemovePlaceholderDelimiter.
  destruct (IsDelimitedPlaceholder cfg s); cbn [negb]; [|reflexivity].
  apply (Trim_strips cfg Hascii).
Qed.

Lemma remove_strips_all_edge_delimiters_witness :
  RemovePlaceholderDelimiter defaultDelimiters (bytes "{}{a}b}}")
  = bytes "a}b".
Proof.
  rewrite (remove_strips_all_edge_delimiters defaultDelimiters
             (bytes "{}{a}b}}"));
    [reflexivity | unfold asciiDelimiters; simpl; lia].
Defined.

(** X11. With both delimiters below U+0080, what
    [RemovePlaceholderDelimiter] returns is never delimited, so removing
    the delimiters twice is removing them once; and what it returns for a
    delimited string neither begins nor ends with a delimiter. *)
Theorem remove_delimiter_once (cfg : Delimiters) (s : list byte) :
  asciiDelimiters cfg ->
  IsDelimitedPlaceholder cfg (RemovePlaceholderDelimiter cfg s) = false /\
  RemovePlaceholderDelimiter cfg (RemovePlaceholderDelimiter cfg s)
  = RemovePlaceholderDelimiter cfg s /\
  (IsDelimitedPlaceholder cfg s = true ->
   edgesPlain cfg (RemovePlaceholderDelimiter cfg s) = true).
Proof.
  intros Hascii.
  assert (Hnot : IsDelimitedPlaceholder cfg (RemovePlaceholderDelimiter cfg s)
                 = false).
  { unfold RemovePlaceholderDelimiter.
    destruct (IsDelimitedPlaceholder cfg s) eqn:E; cbn [negb]; [|exact E].
    rewrite (Trim_strips cfg Hascii).
    apply (not_delimited_after_strip cfg). }
  split; [exact Hnot|]. split.
  - unfold RemovePlaceholderDelimiter at 1. rewrite Hnot. reflexivity.
  - intros Hdel. unfold RemovePlaceholderDelimiter. rewrite Hdel.
    cbn [negb]. rewrite (Trim_strips cfg Hascii).
    apply edgesPlain_after_strip.
Qed.

Lemma remove_delimiter_once_witness :
  IsDelimitedPlaceholder defaultDelimiters
    (RemovePlaceholderDelimiter defaultDelimiters (bytes "{{x}}")) = false /\
  RemovePlaceholderDelimiter defaultDelimiters
    (RemovePlaceholderDelimiter defaultDelimiters (bytes "{{x}}"))
  = RemovePlaceholderDelimiter defaultDelimiters (bytes "{{x}}").
Proof.
  destruct (remove_delimiter_once defaultDelimiters (bytes "{{x}}")
              ltac:(unfold asciiDelimiters; simpl; lia)) as (H1 & H2 & _).
  split; assumption.
Defined.

(** X12. A delimiter that is no byte value, below 0 or above 255, is never
    found by [IsDelimitedPlaceholder], which compares bytes: no string is
    delimited, [AddPlaceholderDelimiter] wraps every string, also one that
    it has wrapped before, and [RemovePlaceholderDelimiter] changes no
    string. *)
Theorem wide_delimiter_never_detected (cfg : Delimiters) (s : list byte) :
  ~ (0 <= OpenDelimiter cfg <= 255) \/ ~ (0 <= CloseDelimiter cfg <= 255) ->
  IsDelimitedPlaceholder cfg s = false /\
  AddPlaceholderDelimiter cfg s
  = encodeRune (OpenDelimiter cfg) ++ s ++ encodeRune (CloseDelimiter cfg) /\
  RemovePlaceholderDelimiter cfg s = s.
Proof.
  intros Hwide.
  assert (Hnot : forall x, IsDelimitedPlaceholder cfg x = false).
  { intros [|b t]; [reflexivity|]. unfold IsDelimitedPlaceholder.
    pose proof (byteZ_range b) as Hb.
    pose proof (byteZ_range (List.last (b :: t) x00)) as Hl.
    apply andb_false_iff.
    destruct Hwide as [Ho|Hc]; [left | right]; apply Z.eqb_neq; lia. }
  split; [apply Hnot|]. split.
  - unfold AddPlaceholderDelimiter. rewrite Hnot. reflexivity.
  - unfold RemovePlaceholderDelimiter. rewrite Hnot. reflexivity.
Qed.

Lemma wide_delimiter_never_detected_witness :
  IsDelimitedPlaceholder wideDelimiters
    (AddPlaceholderDelimiter wideDelimiters (bytes "x")) = false /\
  RemovePlaceholderDelimiter wideDelimiters
    (AddPlaceholderDelimiter wideDelimiters (bytes "x"))
  = AddPlaceholderDelimiter wideDelimiters (bytes "x").
Proof.
  destruct (wide_delimiter_never_detected wideDelimiters
              (AddPlaceholderDelimiter wideDelimiters (bytes "x")))
    as (H1 & _ & H3).
  - left. unfold wideDelimiters. simpl. lia.
  - split; assumption.
Defined.
